(** * The CI action runner: a shallow embedding and its properties

    Source: the runner's [main.go] (package [main]): trigger matching, shell
    quoting, invocation URLs, command tokenisation, the invocation log, the
    build-event publisher, the periodic progress flusher, the per-action
    runner and the top-level driver.

    Go strings and byte slices are byte sequences: a Go [string] is a Rocq
    [string] (a list of 8-bit [ascii]), a [[]byte] is a [list byte].  Go's
    [int] and [int64] are [Z] with the wrap-around written out where an
    operation can overflow. *)

From Stdlib Require Import ZArith Lia Bool.
From Stdlib.Strings Require Import Ascii Byte.
From Stdlib Require String.
From stdpp Require Import base option list sets strings pretty.

Local Open Scope Z_scope.

(* [simpl] may unfold string concatenation on a constructor. *)
#[local] Arguments String.append !s1 s2 : simpl nomatch.

(** ** Go values shared by the whole file *)

(** What a Go call can do besides returning: panic, or end the process. *)
Inductive outcome (A : Type) : Type :=
| Returned (a : A)
| Panicked (msg : string)
| Exited (code : Z).
Arguments Returned {A} a.
Arguments Panicked {A} msg.
Arguments Exited {A} code.

(** Go [error] values, by the dynamic type the runner distinguishes.
    [fmt.Errorf] with a [%s] verb builds a fresh error that only embeds the
    text of its cause: the cause's dynamic type is lost ([ErrFmt]).  An
    [*exec.ExitError] is [ErrExit] for a child that exited with a status
    and [ErrSignal] for a child that did not exit (it was ended by a
    signal): then [ExitCode()] is -1 and the text names the signal. *)
Inductive error : Type :=
| ErrExit (code : Z)                       (* *exec.ExitError; ExitCode() = code *)
| ErrSignal (text : string)                (* *exec.ExitError; ExitCode() = -1 *)
| ErrStatus (code : Z) (msg : string)      (* a gRPC status error *)
| ErrFmt (msg : string) (cause : error)    (* fmt.Errorf(msg + "%s", cause) *)
| ErrOther (msg : string).                 (* any other error value *)

(** The constants of [main.go]. *)
Definition noExitCode : Z := -1.
Definition progressFlushThresholdBytes : Z := 1000.
Definition pushEventName : string := "push".
Definition pullRequestEventName : string := "pull_request".

(** gRPC status codes used by the runner. *)
Definition codes_Unknown : Z := 2.
Definition codes_Unavailable : Z := 14.

(** The command-line flags, read through global pointers in the source. *)
Record Flags : Type := {
  besBackend : string;
  besResultsURL : string;
  repoURL : string;
  commitSHA : string;
  triggerEvent : string;
  triggerBranch : string
}.

(** ** Workflow configuration *)

(** Modelled from the spec: package [workflowconf] (the [Action],
    [Triggers], [PushTrigger] and [PullRequestTrigger] structs) is not among
    the sources; section 3 ("Workflow config") gives the fields.  A nil
    pointer is [None]; a nil slice is the empty list. *)
Record PushTrigger : Type := { Push_Branches : list string }.
Record PullRequestTrigger : Type := { PullRequest_Branches : list string }.
Record Triggers : Type := {
  Push : option PushTrigger;
  PullRequest : option PullRequestTrigger
}.
Record Action : Type := {
  Name : string;
  Action_Triggers : option Triggers;
  BazelCommands : list string
}.
Record BuildBuddyConfig : Type := { Actions : list Action }.

(** ** Trigger matching *)

Fixpoint matchesAnyBranch (branches : list string) (branch : string) : bool :=
  match branches with
  | [] => false
  | b :: rest => if String.eqb b branch then true else matchesAnyBranch rest branch
  end.

Definition matchesAnyTrigger (action : Action) (event branch : string) : bool :=
  match Action_Triggers action with
  | None => false
  | Some triggers =>
      match Push triggers with
      | Some pushCfg =>
          if String.eqb event pushEventName
          then matchesAnyBranch (Push_Branches pushCfg) branch
          else
            match PullRequest triggers with
            | Some prCfg =>
                if String.eqb event pullRequestEventName
                then matchesAnyBranch (PullRequest_Branches prCfg) branch
                else false
            | None => false
            end
      | None =>
          match PullRequest triggers with
          | Some prCfg =>
              if String.eqb event pullRequestEventName
              then matchesAnyBranch (PullRequest_Branches prCfg) branch
              else false
          | None => false
          end
      end
  end.

(** The older copy of the runner ([cmd/action_runner/main.go]) guards the
    loop with [if branches == nil { return false }]. *)
Module ActionRunner.

Definition matchesAnyBranch (branches : list string) (branch : string) : bool :=
  match branches with
  | [] => false
  | _ :: _ =>
      (fix loop (bs : list string) : bool :=
         match bs with
         | [] => false
         | b :: rest => if String.eqb b branch then true else loop rest
         end) branches
  end.

Definition matchesAnyTrigger (action : Action) (event branch : string) : bool :=
  match Action_Triggers action with
  | None => false
  | Some triggers =>
      match Push triggers with
      | Some pushCfg =>
          if String.eqb event pushEventName
          then matchesAnyBranch (Push_Branches pushCfg) branch
          else
            match PullRequest triggers with
            | Some prCfg =>
                if String.eqb event pullRequestEventName
                then matchesAnyBranch (PullRequest_Branches prCfg) branch
                else false
            | None => false
            end
      | None =>
          match PullRequest triggers with
          | Some prCfg =>
              if String.eqb event pullRequestEventName
              then matchesAnyBranch (PullRequest_Branches prCfg) branch
              else false
          | None => false
          end
      end
  end.

End ActionRunner.

(** ** Strings: the pieces of package [strings] the runner calls *)

(** [strings.HasSuffix(s, suffix)]:
    [len(s) >= len(suffix) && s[len(s)-len(suffix):] == suffix]. *)
Definition strings_HasSuffix (s suffix : string) : bool :=
  (String.length suffix <=? String.length s)%nat
  && String.eqb
       (String.substring (String.length s - String.length suffix)
          (String.length suffix) s)
       suffix.

(** [strings.HasPrefix(s, prefix)]. *)
Definition strings_HasPrefix (s prefix : string) : bool :=
  String.prefix prefix s.

(** [strings.Index(s, substr)] for a non-empty [substr]: the offset of its
    first occurrence. *)
Fixpoint strings_Index (s substr : string) : option nat :=
  if strings_HasPrefix s substr then Some 0%nat
  else
    match s with
    | EmptyString => None
    | String _ rest => S <$> strings_Index rest substr
    end.

(** [strings.ReplaceAll(s, old, new)] for a non-empty [old], as the library
    builds it: copy up to the next occurrence, emit [new], skip [old],
    repeat; then copy what is left.  Every round consumes at least one byte
    of [s], so [String.length s] rounds suffice. *)
Fixpoint replace_rounds (rounds : nat) (s old new : string) : string :=
  match rounds with
  | O => s
  | S rounds' =>
      match strings_Index s old with
      | None => s
      | Some j =>
          String.substring 0 j s +:+ new +:+
          replace_rounds rounds'
            (String.substring (j + String.length old)
               (String.length s - (j + String.length old)) s)
            old new
      end
  end.

Definition strings_ReplaceAll (s old new : string) : string :=
  replace_rounds (String.length s) s old new.

(** ** Invocation URLs *)

Definition invocationURL (flags : Flags) (invocationID : string) : string :=
  let urlPrefix := besResultsURL flags in
  let urlPrefix :=
    if negb (strings_HasSuffix urlPrefix "/") then urlPrefix +:+ "/" else urlPrefix in
  urlPrefix +:+ invocationID.

(** ** Shell quoting *)

(** The character class [\w] of Go's [regexp] (RE2 syntax): ASCII letters,
    digits and the underscore. *)
Definition is_word_char (c : ascii) : bool :=
  let n := nat_of_ascii c in
  ((48 <=? n) && (n <=? 57) || (65 <=? n) && (n <=? 90)
   || (97 <=? n) && (n <=? 122) || (n =? 95))%nat.

Definition ascii_in (c : ascii) (set : string) : bool :=
  existsb (Ascii.eqb c) (String.list_ascii_of_string set).

(** One character of the class [[^\w@%+=:,./-]].  A rune outside ASCII is
    encoded by bytes of value 128 and above, none of which is in the listed
    set, so the class can be decided byte by byte. *)
Definition char_requires_quote (c : ascii) : bool :=
  negb (is_word_char c || ascii_in c "@%+=:,./-").

(** [shellCharsRequiringQuote.MatchString(s)]: some character of [s] is in
    the class. *)
Fixpoint shellCharsRequiringQuote_MatchString (s : string) : bool :=
  match s with
  | EmptyString => false
  | String c rest => char_requires_quote c || shellCharsRequiringQuote_MatchString rest
  end.

Definition squote : string := String "039"%char EmptyString.
Definition dquote : string := String "034"%char EmptyString.
(** The five bytes quote, double quote, quote, double quote, quote. *)
Definition squote_escape : string := squote +:+ dquote +:+ squote +:+ dquote +:+ squote.

Definition toShellToken (s : string) : string :=
  if shellCharsRequiringQuote_MatchString s
  then squote +:+ strings_ReplaceAll s squote squote_escape +:+ squote
  else s.

(** ** Tokenising a bazel command *)

Section BazelArgs.

(** [shlex.Split] of the third-party package [github.com/google/shlex]:
    the token list and the error it returns. *)
Variable shlex_Split : string -> list string * option error.

Definition bazelArgs (cmd : string) : outcome (list string * option error) :=
  match shlex_Split cmd with
  | (_, Some err) => Returned ([], Some err)
  | (tokens, None) =>
      match tokens with
      | [] => Panicked "runtime error: index out of range [0] with length 0"
      | t0 :: rest =>
          if String.eqb t0 "bazel" || String.eqb t0 "bazelisk"
          then Returned (rest, None)
          else Returned (tokens, None)
      end
  end.

End BazelArgs.

(** ** Byte slices and [bytes.Buffer]

    A byte slice is a view of a backing array: two slices over the same
    array share its bytes.  The heap maps an address (its index) to the
    array stored there.  Every slice of this file starts at offset 0 of its
    array ([make], and reslicing to [s[:k]]). *)
Abbreviation heap := (list (list byte)).

Record slice : Type := {
  arr : option nat;      (* None: the nil slice *)
  len : nat;
  cap : nat
}.

Definition nil_slice : slice := {| arr := None; len := 0; cap := 0 |}.

(** The bytes seen through a slice in a given heap. *)
Definition slice_bytes (h : heap) (s : slice) : list byte :=
  match arr s with
  | None => []
  | Some a => take (len s) (default [] (h !! a))
  end.

(** [make([]byte, n, c)]: a fresh zeroed array of capacity [c]. *)
Definition make_slice (h : heap) (n c : nat) : slice * heap :=
  ({| arr := Some (length h); len := n; cap := c |}, h ++ [replicate c x00]).

(** [s[:k]] *)
Definition reslice (s : slice) (k : nat) : slice :=
  {| arr := arr s; len := k; cap := cap s |}.

(** [copy(dst[m:], p)]: overwrites the array in place, up to [len(dst)]. *)
Definition copy_at (h : heap) (dst : slice) (m : nat) (p : list byte) : heap :=
  match arr dst with
  | None => h
  | Some a =>
      match h !! a with
      | None => h
      | Some bytes => <[a := list_inserts m (take (len dst - m) p) bytes]> h
      end
  end.

(** [bytes.Buffer] of the Go standard library, for the four methods the log
    calls ([Write], [Bytes], [Reset], [Len]).  None of them reads from the
    buffer, so its read offset stays 0 and the buffer is its [buf] slice. *)
Definition smallBufferSize : nat := 64.

Definition Buffer_Len (b : slice) : nat := len b.

(** [Bytes] returns [b.buf[b.off:]]: a slice of the buffer's own array. *)
Definition Buffer_Bytes (b : slice) : slice := b.

(** [Reset] is [b.buf = b.buf[:0]]: the array is kept. *)
Definition Buffer_Reset (b : slice) : slice := reslice b 0.

Definition tryGrowByReslice (b : slice) (n : nat) : option (nat * slice) :=
  if (n <=? cap b - len b)%nat then Some (len b, reslice b (len b + n)) else None.

(** [grow(n)] when reslicing failed: a small first array, or a new array of
    [2*cap + n] bytes to which the contents are copied. *)
Definition Buffer_grow (h : heap) (b : slice) (n : nat) : nat * slice * heap :=
  match tryGrowByReslice b n with
  | Some (m, b') => (m, b', h)
  | None =>
      match arr b with
      | None =>
          if (n <=? smallBufferSize)%nat
          then let '(s, h') := make_slice h n smallBufferSize in (0%nat, s, h')
          else let '(s, h') := make_slice h n n in (0%nat, s, h')
      | Some _ =>
          let c := cap b in
          let m := len b in
          let '(s, h') := make_slice h (2 * c + n) (2 * c + n) in
          let h'' := copy_at h' s 0 (slice_bytes h b) in
          (m, reslice s (m + n), h'')
      end
  end.

Definition Buffer_Write (h : heap) (b : slice) (p : list byte) : slice * heap :=
  let '(m, b', h') :=
    match tryGrowByReslice b (length p) with
    | Some (m, b') => (m, b', h)
    | None => Buffer_grow h b (length p)
    end in
  (b', copy_at h' b' m p).

(** ** The invocation log *)

(** The state the log touches: the heap, its buffer and what went to the
    process's standard error.  The mutex makes the buffer part of [Write]
    and the whole of [Consume] atomic; calls are taken one at a time. *)
Record LogState : Type := {
  log_heap : heap;
  log_Buffer : slice;
  log_stderr : list byte
}.

Definition newInvocationLog (h : heap) : LogState :=
  {| log_heap := h; log_Buffer := nil_slice; log_stderr := [] |}.

(** [Write] up to the call of the listener: the buffer write under the
    lock, then the best-effort copy to standard error.  It returns
    [Buffer.Write]'s result, [len(b), nil]. *)
Definition invocationLog_Write (b : list byte) (st : LogState) : nat * LogState :=
  let '(buf', h') := Buffer_Write (log_heap st) (log_Buffer st) b in
  (length b,
   {| log_heap := h'; log_Buffer := buf'; log_stderr := log_stderr st ++ b |}).

(** [Consume]: [b := []byte(invLog.Buffer.Bytes())] converts a byte slice
    to its own type, which copies nothing; the result is the buffer's slice. *)
Definition invocationLog_Consume (st : LogState) : slice * LogState :=
  let b := Buffer_Bytes (log_Buffer st) in
  (b,
   {| log_heap := log_heap st;
      log_Buffer := Buffer_Reset (log_Buffer st);
      log_stderr := log_stderr st |}).

(** A client of the log: a sequence of calls; what each [Consume] returned
    is kept, as a slice, in call order. *)
Inductive LogCall : Type :=
| CallWrite (b : list byte)
| CallConsume.

Fixpoint run_log (calls : list LogCall) (st : LogState) : list slice * LogState :=
  match calls with
  | [] => ([], st)
  | CallWrite b :: rest => run_log rest (snd (invocationLog_Write b st))
  | CallConsume :: rest =>
      let '(s, st') := invocationLog_Consume st in
      let '(out, st'') := run_log rest st' in
      (s :: out, st'')
  end.

(** ** Build events and the wire format *)

(** [bespb.BuildEventId], for the five kinds the runner emits. *)
Inductive BuildEventId : Type :=
| Id_Started
| Id_Progress (OpaqueCount : Z)
| Id_WorkspaceStatus
| Id_BuildFinished
| Id_BuildToolLogs.

Inductive Payload : Type :=
| Payload_Started (Uuid : string) (StartTimeMillis : Z)
| Payload_WorkspaceStatus (Item : list (string * string))
| Payload_Progress (Stderr : string)
| Payload_Finished (ExitCode : Z) (FinishTimeMillis : Z)
| Payload_BuildToolLogs (Log : list (string * string)).

(** [bespb.BuildEvent] *)
Record BuildEvent : Type := {
  Id : BuildEventId;
  Children : list BuildEventId;
  Payload_of : Payload;
  LastMessage : bool
}.

(** [bepb.StreamId] *)
Record StreamId : Type := {
  InvocationId : string;
  BuildId : string
}.

(** The [Event] of an ordered build event: a bazel event (the [Any] that
    [ptypes.MarshalAny] packs, taken as the event itself) or the marker that
    ends the stream. *)
Inductive WireEvent : Type :=
| BazelEvent (any : BuildEvent)
| ComponentStreamFinished_FINISHED.

(** [pepb.OrderedBuildEvent] *)
Record OrderedBuildEvent : Type := {
  OBE_StreamId : StreamId;
  SequenceNumber : Z;
  EventTime : Z;
  Event : WireEvent
}.

(** 64-bit and 32-bit signed wrap-around. *)
Definition wrap64 (z : Z) : Z := (z + 2 ^ 63) mod 2 ^ 64 - 2 ^ 63.
Definition wrap32 (z : Z) : Z := (z + 2 ^ 31) mod 2 ^ 32 - 2 ^ 31.

(** ** The build-event publisher *)

(** Modelled from the spec: package [status] ([status.WrapError],
    [status.UnavailableErrorf]) is not among the sources; section 4.6 (the
    publisher task) only has a failed dial or open latched as an error, and
    section 7 has transient failures carry the retry status. *)
Definition status_WrapError (err : error) (msg : string) : error := ErrFmt msg err.
Definition status_UnavailableErrorf (msg : string) : error := ErrStatus codes_Unavailable msg.

(** Capacity of the channel [events] ([make(chan *bespb.BuildEvent, 256)]);
    [done] and [doneReceiving] have capacity 1. *)
Definition events_capacity : nat := 256.

(** Where the goroutine running [run] stands: before each call that can
    block or fail. *)
Inductive RunPC : Type :=
| AtDial                  (* grpc_client.DialTarget *)
| AtOpenStream            (* besClient.PublishBuildToolEventStream *)
| AtLoop (seqNo : Z)      (* event := <-bep.events, first statement of the loop *)
| AtCloseSend             (* stream.CloseSend, after the break *)
| AtAwaitAcks             (* <-doneReceiving *)
| RunReturned.            (* returned; the deferred done <- struct{}{} has run *)

(** Where the ack-receiving goroutine stands. *)
Inductive AckPC : Type :=
| AckNotStarted
| AckReceiving            (* in the loop around stream.Recv *)
| AckReturned.            (* has sent on doneReceiving and returned *)

(** Where the caller of [Wait] stands. *)
Inductive WaitPC : Type :=
| WaitNotCalled
| WaitBlocked                         (* sentinel enqueued; at <-bep.done *)
| WaitReturned (res : option error).

(** The calls made on the client stream, with what each returned. *)
Inductive StreamCall : Type :=
| Send (req : OrderedBuildEvent) (res : option error)
| CloseSend (res : option error).

Record Publisher : Type := {
  streamID : StreamId;
  events : list (option BuildEvent);    (* channel contents, oldest first; None is nil *)
  done : nat;                           (* items in channel done *)
  err : option error;                   (* the latched error, guarded by mu *)
  run_pc : RunPC;
  ack_pc : AckPC;
  wait_pc : WaitPC;
  doneReceiving : nat;                  (* items in channel doneReceiving *)
  calls : list StreamCall;              (* stream.Send and CloseSend calls, in order *)
  enqueued : list (option BuildEvent)   (* everything ever sent on events, in order *)
}.

Definition newBuildEventPublisher (sid : StreamId) : Publisher :=
  {| streamID := sid; events := []; done := 0; err := None;
     run_pc := AtDial; ack_pc := AckNotStarted; wait_pc := WaitNotCalled;
     doneReceiving := 0; calls := []; enqueued := [] |}.

(** The requests handed to [stream.Send], in order: the wire. *)
Definition sent (p : Publisher) : list OrderedBuildEvent :=
  omap (fun c => match c with Send req _ => Some req | CloseSend _ => None end) (calls p).

Definition setError (e : error) (p : Publisher) : Publisher :=
  {| streamID := streamID p; events := events p; done := done p; err := Some e;
     run_pc := run_pc p; ack_pc := ack_pc p; wait_pc := wait_pc p;
     doneReceiving := doneReceiving p; calls := calls p; enqueued := enqueued p |}.

(** [run] returns: its deferred function signals on [done]. *)
Definition run_return (p : Publisher) : Publisher :=
  {| streamID := streamID p; events := events p; done := S (done p); err := err p;
     run_pc := RunReturned; ack_pc := ack_pc p; wait_pc := wait_pc p;
     doneReceiving := doneReceiving p; calls := calls p; enqueued := enqueued p |}.

Definition set_run_pc (pc : RunPC) (p : Publisher) : Publisher :=
  {| streamID := streamID p; events := events p; done := done p; err := err p;
     run_pc := pc; ack_pc := ack_pc p; wait_pc := wait_pc p;
     doneReceiving := doneReceiving p; calls := calls p; enqueued := enqueued p |}.

Definition log_call (c : StreamCall) (p : Publisher) : Publisher :=
  {| streamID := streamID p; events := events p; done := done p; err := err p;
     run_pc := run_pc p; ack_pc := ack_pc p; wait_pc := wait_pc p;
     doneReceiving := doneReceiving p; calls := calls p ++ [c]; enqueued := enqueued p |}.

Definition enqueue (e : option BuildEvent) (p : Publisher) : Publisher :=
  {| streamID := streamID p; events := events p ++ [e]; done := done p; err := err p;
     run_pc := run_pc p; ack_pc := ack_pc p; wait_pc := wait_pc p;
     doneReceiving := doneReceiving p; calls := calls p; enqueued := enqueued p ++ [e] |}.

Definition dequeue (rest : list (option BuildEvent)) (p : Publisher) : Publisher :=
  {| streamID := streamID p; events := rest; done := done p; err := err p;
     run_pc := run_pc p; ack_pc := ack_pc p; wait_pc := wait_pc p;
     doneReceiving := doneReceiving p; calls := calls p; enqueued := enqueued p |}.

(** What the outside world answers to the next step of [run]: the results
    of [MarshalAny] and of the dial, open, send or close call, and the clock
    reading that becomes [EventTime]. *)
Record RunReply : Type := {
  marshal_err : option error;
  call_err : option error;
  now : Z
}.

(** What [stream.Recv] returns to the ack receiver. *)
Inductive RecvReply : Type :=
| RecvAck
| RecvEOF
| RecvErr (e : error).

(** [Publish]: under the mutex, refuse when an error is latched, else send
    on [events].  The result is the error returned and the new state; the
    call blocks ([None]) while the channel is full. *)
Definition Publish (e : BuildEvent) (p : Publisher)
  : option (option error * Publisher) :=
  match err p with
  | Some e0 => Some (Some (ErrFmt "cannot publish event due to previous error: " e0), p)
  | None =>
      if (length (events p) <? events_capacity)%nat
      then Some (None, enqueue (Some e) p)
      else None
  end.

(** One step of the goroutine running [run], from one blocking or failing
    call to the next. *)
Definition run_step (r : RunReply) (p : Publisher) : option Publisher :=
  match run_pc p with
  | AtDial =>
      match call_err r with
      | Some e => Some (run_return (setError (status_WrapError e "error dialing bes_backend") p))
      | None => Some (set_run_pc AtOpenStream p)
      end
  | AtOpenStream =>
      match call_err r with
      | Some e =>
          Some (run_return (setError (status_WrapError e "error opening build event stream") p))
      | None =>
          (* go func() { ... stream.Recv() ... }() *)
          Some {| streamID := streamID p; events := events p; done := done p; err := err p;
                  run_pc := AtLoop 1; ack_pc := AckReceiving; wait_pc := wait_pc p;
                  doneReceiving := doneReceiving p; calls := calls p;
                  enqueued := enqueued p |}
      end
  | AtLoop seqNo =>
      match events p with
      | [] => None
      | None :: rest =>
          (* Wait() was called: send ComponentStreamFinished *)
          let req := {| OBE_StreamId := streamID p; SequenceNumber := seqNo;
                        EventTime := now r; Event := ComponentStreamFinished_FINISHED |} in
          let p1 := log_call (Send req (call_err r)) (dequeue rest p) in
          match call_err r with
          | Some e => Some (run_return (setError e p1))
          | None => Some (set_run_pc AtCloseSend p1)     (* break *)
          end
      | Some event :: rest =>
          match marshal_err r with
          | Some e =>
              Some (run_return
                      (setError (ErrFmt "failed to marshal bazel event: " e) (dequeue rest p)))
          | None =>
              let req := {| OBE_StreamId := streamID p; SequenceNumber := seqNo;
                            EventTime := now r; Event := BazelEvent event |} in
              let p1 := log_call (Send req (call_err r)) (dequeue rest p) in
              match call_err r with
              | Some e => Some (run_return (setError e p1))
              | None => Some (set_run_pc (AtLoop (wrap64 (seqNo + 1))) p1)
              end
          end
      end
  | AtCloseSend =>
      let p1 := log_call (CloseSend (call_err r)) p in
      match call_err r with
      | Some e =>
          Some (run_return (setError (ErrFmt "failed to close build event stream: " e) p1))
      | None => Some (set_run_pc AtAwaitAcks p1)
      end
  | AtAwaitAcks =>
      match doneReceiving p with
      | O => None
      | S n =>
          Some (run_return
                  {| streamID := streamID p; events := events p; done := done p;
                     err := err p; run_pc := run_pc p; ack_pc := ack_pc p;
                     wait_pc := wait_pc p; doneReceiving := n; calls := calls p;
                     enqueued := enqueued p |})
      end
  | RunReturned => None
  end.

(** One turn of the ack receiver's loop. *)
Definition ack_step (r : RecvReply) (p : Publisher) : option Publisher :=
  match ack_pc p with
  | AckReceiving =>
      let finish (q : Publisher) : Publisher :=
        {| streamID := streamID q; events := events q; done := done q; err := err q;
           run_pc := run_pc q; ack_pc := AckReturned; wait_pc := wait_pc q;
           doneReceiving := S (doneReceiving q); calls := calls q;
           enqueued := enqueued q |} in
      match r with
      | RecvAck => Some p
      | RecvEOF => Some (finish p)
      | RecvErr e => Some (finish (setError e p))
      end
  | _ => None
  end.

(** [Wait], in its two blocking halves. *)
Definition Wait_enqueue (p : Publisher) : option Publisher :=
  match wait_pc p with
  | WaitNotCalled =>
      if (length (events p) <? events_capacity)%nat
      then
        let q := enqueue None p in
        Some {| streamID := streamID q; events := events q; done := done q; err := err q;
                run_pc := run_pc q; ack_pc := ack_pc q; wait_pc := WaitBlocked;
                doneReceiving := doneReceiving q; calls := calls q;
                enqueued := enqueued q |}
      else None
  | _ => None
  end.

Definition Wait_receive (p : Publisher) : option Publisher :=
  match wait_pc p, done p with
  | WaitBlocked, S n =>
      Some {| streamID := streamID p; events := events p; done := n; err := err p;
              run_pc := run_pc p; ack_pc := ack_pc p; wait_pc := WaitReturned (err p);
              doneReceiving := doneReceiving p; calls := calls p;
              enqueued := enqueued p |}
  | _, _ => None
  end.

(** The moves of the system: a producer completes a [Publish], the caller
    of [Wait] advances, or one of the two goroutines takes a step. *)
Inductive Label : Type :=
| DoPublish (e : BuildEvent)
| DoWaitEnqueue
| DoWaitReceive
| DoRun (r : RunReply)
| DoAck (r : RecvReply).

Definition step (l : Label) (p : Publisher) : option Publisher :=
  match l with
  | DoPublish e => snd <$> Publish e p
  | DoWaitEnqueue => Wait_enqueue p
  | DoWaitReceive => Wait_receive p
  | DoRun r => run_step r p
  | DoAck r => ack_step r p
  end.

(** A schedule is a list of moves; [None] when a move is not enabled. *)
Fixpoint exec (ls : list Label) (p : Publisher) : option Publisher :=
  match ls with
  | [] => Some p
  | l :: rest =>
      match step l p with
      | Some p' => exec rest p'
      | None => None
      end
  end.

(** The older copy of the runner: after sending the final envelope [run]
    returns from inside the loop, so the statements after the loop are
    never reached. *)
Module ActionRunnerPublisher.

Definition run_step (r : RunReply) (p : Publisher) : option Publisher :=
  match run_pc p with
  | AtDial =>
      match call_err r with
      | Some e => Some (run_return (setError (ErrFmt "error dialing bes_backend: " e) p))
      | None => Some (set_run_pc AtOpenStream p)
      end
  | AtOpenStream =>
      match call_err r with
      | Some e =>
          Some (run_return (setError (ErrFmt "error opening build event stream: " e) p))
      | None =>
          Some {| streamID := streamID p; events := events p; done := done p; err := err p;
                  run_pc := AtLoop 1; ack_pc := AckReceiving; wait_pc := wait_pc p;
                  doneReceiving := doneReceiving p; calls := calls p;
                  enqueued := enqueued p |}
      end
  | AtLoop seqNo =>
      match events p with
      | [] => None
      | None :: rest =>
          let req := {| OBE_StreamId := streamID p; SequenceNumber := seqNo;
                        EventTime := now r; Event := ComponentStreamFinished_FINISHED |} in
          let p1 := log_call (Send req (call_err r)) (dequeue rest p) in
          match call_err r with
          | Some e => Some (run_return (setError e p1))
          | None => Some (run_return p1)                  (* return *)
          end
      | Some event :: rest =>
          match marshal_err r with
          | Some e => Some (run_return (setError e (dequeue rest p)))
          | None =>
              let req := {| OBE_StreamId := streamID p; SequenceNumber := seqNo;
                            EventTime := 0; Event := BazelEvent event |} in
              let p1 := log_call (Send req (call_err r)) (dequeue rest p) in
              match call_err r with
              | Some e => Some (run_return (setError e p1))
              | None => Some (set_run_pc (AtLoop (wrap64 (seqNo + 1))) p1)
              end
          end
      end
  | AtCloseSend =>
      let p1 := log_call (CloseSend (call_err r)) p in
      match call_err r with
      | Some e =>
          Some (run_return (setError (ErrFmt "failed to close build event stream: " e) p1))
      | None => Some (set_run_pc AtAwaitAcks p1)
      end
  | AtAwaitAcks =>
      match doneReceiving p with
      | O => None
      | S n =>
          Some (run_return
                  {| streamID := streamID p; events := events p; done := done p;
                     err := err p; run_pc := run_pc p; ack_pc := ack_pc p;
                     wait_pc := wait_pc p; doneReceiving := n; calls := calls p;
                     enqueued := enqueued p |})
      end
  | RunReturned => None
  end.

(** There the channel [events] holds 128 items. *)
Definition events_capacity : nat := 128.

Definition step (l : Label) (p : Publisher) : option Publisher :=
  match l with
  | DoPublish e =>
      match err p with
      | Some _ => snd <$> Publish e p
      | None =>
          if (length (events p) <? events_capacity)%nat then snd <$> Publish e p else None
      end
  | DoWaitEnqueue =>
      if (length (events p) <? events_capacity)%nat then Wait_enqueue p else None
  | DoWaitReceive => Wait_receive p
  | DoRun r => run_step r p
  | DoAck r => ack_step r p
  end.

Fixpoint exec (ls : list Label) (p : Publisher) : option Publisher :=
  match ls with
  | [] => Some p
  | l :: rest =>
      match step l p with
      | Some p' => exec rest p'
      | None => None
      end
  end.

End ActionRunnerPublisher.

(** ** The periodic progress flusher *)

(** The goroutine started by [startBackgroundProgressFlush]: a [for] loop
    around a [select] with two cases. *)
Inductive FlusherPC : Type :=
| AtSelect              (* at the select statement *)
| FlusherReturned.      (* the goroutine's function has returned *)

Record Flusher : Type := {
  stop : nat;               (* items in channel stop (capacity 1) *)
  flusher_pc : FlusherPC;
  flush_calls : nat         (* calls of ar.flushProgress made by the goroutine *)
}.

Definition startBackgroundProgressFlush : Flusher :=
  {| stop := 0; flusher_pc := AtSelect; flush_calls := 0 |}.

Inductive FlusherMove : Type :=
| CallStop        (* the returned function runs: stop <- struct{}{} *)
| SelectStop      (* the select takes case <-stop *)
| SelectTimer.    (* the select takes case <-time.After(progressFlushInterval) *)

Definition flusher_step (m : FlusherMove) (f : Flusher) : option Flusher :=
  match m with
  | CallStop =>
      if (stop f <? 1)%nat
      then Some {| stop := S (stop f); flusher_pc := flusher_pc f;
                   flush_calls := flush_calls f |}
      else None
  | SelectStop =>
      match flusher_pc f, stop f with
      | AtSelect, S n =>
          (* break: leaves the select; the enclosing for runs again *)
          Some {| stop := n; flusher_pc := AtSelect; flush_calls := flush_calls f |}
      | _, _ => None
      end
  | SelectTimer =>
      match flusher_pc f with
      | AtSelect =>
          Some {| stop := stop f; flusher_pc := AtSelect;
                  flush_calls := S (flush_calls f) |}
      | FlusherReturned => None
      end
  end.

Fixpoint flusher_exec (ms : list FlusherMove) (f : Flusher) : option Flusher :=
  match ms with
  | [] => Some f
  | m :: rest =>
      match flusher_step m f with
      | Some f' => flusher_exec rest f'
      | None => None
      end
  end.

(** ** Text written to the log *)

Definition nl : string := String "010"%char EmptyString.
Definition esc : string := String "027"%char EmptyString.

(** The colours of package [aurora]: a value wrapped in an ANSI colour
    sequence and a reset. *)
Definition aurora_Red (s : string) : string := esc +:+ "[31m" +:+ s +:+ esc +:+ "[0m".
Definition aurora_Cyan (s : string) : string := esc +:+ "[36m" +:+ s +:+ esc +:+ "[0m".

(** ** [fmt.Sprintf] with a format and no operands *)

(** In two places the runner hands finished text to [Printf] as the
    format, so the text is parsed by [fmt] once more, with no operand for
    any verb it finds.  The definitions below follow [doPrintf] of Go's
    [fmt] package (file [print.go]) for an empty operand list: the
    argument number stays 0, no verb finds an operand, and the flags, the
    width and the precision only decide how many bytes a verb takes. *)

Definition is_digit (c : ascii) : bool :=
  (48 <=? nat_of_ascii c)%nat && (nat_of_ascii c <=? 57)%nat.

(** [tooLarge(x)] *)
Definition tooLarge (x : Z) : bool := (1000000 <? x) || (x <? - 1000000).

(** The loop of [parsenum] over [s[newi:end]]. *)
Fixpoint parsenum_loop (digits : string) (num : Z) (isnum : bool) (newi end_ : nat)
  : Z * bool * nat :=
  match digits with
  | EmptyString => (num, isnum, newi)
  | String c rest =>
      if is_digit c then
        if tooLarge num then (0, false, end_)
        else parsenum_loop rest (num * 10 + (Z.of_nat (nat_of_ascii c) - 48)) true
               (S newi) end_
      else (num, isnum, newi)
  end.

(** [parsenum(s, start, end)] *)
Definition parsenum (s : string) (start end_ : nat) : Z * bool * nat :=
  if (end_ <=? start)%nat then (0, false, end_)
  else parsenum_loop (String.substring start (end_ - start) s) 0 false start end_.

(** The index of the first closing bracket of [s], counting from [i]. *)
Fixpoint find_close (s : string) (i : nat) : option nat :=
  match s with
  | EmptyString => None
  | String c rest => if Ascii.eqb c "]" then Some i else find_close rest (S i)
  end.

(** [parseArgNumber(format)], the format starting at the opening bracket:
    the index, the bytes taken, and whether a number was read. *)
Definition parseArgNumber (format : string) : Z * nat * bool :=
  if (String.length format <? 3)%nat then (0, 1%nat, false)
  else
    match find_close (String.substring 1 (String.length format - 1) format) 1 with
    | Some i =>
        let '(width, ok, newi) := parsenum format 1 i in
        if negb ok || negb (newi =? i)%nat then (0, S i, false)
        else (width - 1, S i, true)
    | None => (0, 1%nat, false)
    end.

(** [len(a)]: there is no operand. *)
Definition numArgs : Z := 0.

(** [p.argNumber(argNum, format, i, numArgs)]: the new index, whether an
    argument index was read, and [p.goodArgNum] ([good] on entry). *)
Definition argNumber (format : string) (i : nat) (good : bool) : nat * bool * bool :=
  match String.get i format with
  | Some c =>
      if Ascii.eqb c "[" then
        let '(index, wid, ok) :=
          parseArgNumber (String.substring i (String.length format - i) format) in
        if ok && (0 <=? index) && (index <? numArgs) then ((i + wid)%nat, true, good)
        else ((i + wid)%nat, ok, false)
      else (i, false, good)
  | None => (i, false, good)
  end.

(** The flags of a verb: the index of the first byte of [s] that is none
    of [#0+- ]. *)
Fixpoint skip_flags (s : string) (i : nat) : nat :=
  match s with
  | EmptyString => i
  | String c rest => if ascii_in c "#0+- " then skip_flags rest (S i) else i
  end.

Definition byte_in (lo hi : nat) (c : ascii) : bool :=
  (lo <=? nat_of_ascii c)%nat && (nat_of_ascii c <=? hi)%nat.

(** The table [first] of [unicode/utf8] for a leading byte of a sequence
    of several bytes: its size and the range of the second byte. *)
Definition utf8_first (s0 : ascii) : option (nat * nat * nat) :=
  if byte_in 194 223 s0 then Some (2, 128, 191)%nat
  else if byte_in 224 224 s0 then Some (3, 160, 191)%nat
  else if byte_in 225 236 s0 then Some (3, 128, 191)%nat
  else if byte_in 237 237 s0 then Some (3, 128, 159)%nat
  else if byte_in 238 239 s0 then Some (3, 128, 191)%nat
  else if byte_in 240 240 s0 then Some (4, 144, 191)%nat
  else if byte_in 241 243 s0 then Some (4, 128, 191)%nat
  else if byte_in 244 244 s0 then Some (4, 128, 143)%nat
  else None.

(** [utf8.RuneError], as [writeRune] writes it. *)
Definition RuneError : string :=
  String "239"%char (String "191"%char (String "189"%char EmptyString)).

(** The verb at the head of [s]: [utf8.DecodeRuneInString] for a byte
    that is not ASCII.  The result is the verb as [writeRune] writes it
    back and the number of bytes it takes in the format. *)
Definition decode_verb (s : string) : string * nat :=
  match s with
  | EmptyString => (RuneError, 0%nat)
  | String s0 rest =>
      if (nat_of_ascii s0 <? 128)%nat then (String s0 EmptyString, 1%nat)
      else
        match utf8_first s0 with
        | None => (RuneError, 1%nat)
        | Some (sz, lo, hi) =>
            if (String.length s <? sz)%nat then (RuneError, 1%nat)
            else
              match rest with
              | String s1 (String s2 (String s3 _)) =>
                  if negb (byte_in lo hi s1) then (RuneError, 1%nat)
                  else if (sz <=? 2)%nat then (String.substring 0 2 s, 2%nat)
                  else if negb (byte_in 128 191 s2) then (RuneError, 1%nat)
                  else if (sz <=? 3)%nat then (String.substring 0 3 s, 3%nat)
                  else if negb (byte_in 128 191 s3) then (RuneError, 1%nat)
                  else (String.substring 0 4 s, 4%nat)
              | String s1 (String s2 EmptyString) =>
                  if negb (byte_in lo hi s1) then (RuneError, 1%nat)
                  else if (sz <=? 2)%nat then (String.substring 0 2 s, 2%nat)
                  else if negb (byte_in 128 191 s2) then (RuneError, 1%nat)
                  else (String.substring 0 3 s, 3%nat)
              | String s1 EmptyString =>
                  if negb (byte_in lo hi s1) then (RuneError, 1%nat)
                  else (String.substring 0 2 s, 2%nat)
              | EmptyString => (RuneError, 1%nat)
              end
        end
  end.

Definition badWidthString : string := "%!(BADWIDTH)".
Definition badPrecString : string := "%!(BADPREC)".
Definition noVerbString : string := "%!(NOVERB)".

(** One verb: [s] is the format after the percent sign.  The result is
    the text written, the index in [s] where the format goes on, and
    whether the format ends inside the verb. *)
Definition one_verb (s : string) : string * nat * bool :=
  let end_ := String.length s in
  let i := skip_flags s 0 in
  let '(i, afterIndex, good) := argNumber s i true in
  let '(width_text, i, afterIndex, good) :=
    match String.get i s with
    | Some "*"%char => (badWidthString, S i, false, good)
    | _ =>
        let '(_, widPresent, newi) := parsenum s i end_ in
        (EmptyString, newi, afterIndex, if afterIndex && widPresent then false else good)
    end in
  let '(prec_text, i, afterIndex, good) :=
    match String.get i s with
    | Some "."%char =>
        let good := if afterIndex then false else good in
        let '(i, afterIndex, good) := argNumber s (S i) good in
        match String.get i s with
        | Some "*"%char => (badPrecString, S i, false, good)
        | _ =>
            let '(_, _, newi) := parsenum s i end_ in
            (EmptyString, newi, afterIndex, good)
        end
    | _ => (EmptyString, i, afterIndex, good)
    end in
  let '(i, _, good) :=
    if afterIndex then (i, afterIndex, good) else argNumber s i good in
  if (end_ <=? i)%nat then (width_text +:+ prec_text +:+ noVerbString, i, true)
  else
    let '(verb, size) := decode_verb (String.substring i (end_ - i) s) in
    let text :=
      if String.eqb verb "%" then "%"
      else if good then "%!" +:+ verb +:+ "(MISSING)"
      else "%!" +:+ verb +:+ "(BADINDEX)" in
    (width_text +:+ prec_text +:+ text, (i + size)%nat, false).

(** The loop of [doPrintf]: text up to a percent sign is copied, then one
    verb is read; [skip] counts the bytes of [format] that the verb read
    last has taken. *)
Fixpoint doPrintf (skip : nat) (format : string) : string :=
  match format with
  | EmptyString => EmptyString
  | String c rest =>
      match skip with
      | S k => doPrintf k rest
      | O =>
          if Ascii.eqb c "%" then
            let '(text, taken, stop) := one_verb rest in
            text +:+ (if stop then EmptyString else doPrintf taken rest)
          else String c (doPrintf 0 rest)
      end
  end.

(** [fmt.Sprintf(format)] *)
Definition fmt_Sprintf (format : string) : string := doPrintf 0 format.

Definition codes_String (c : Z) : string :=
  if c =? codes_Unavailable then "Unavailable"
  else if c =? codes_Unknown then "Unknown"
  else "Code(" +:+ pretty c +:+ ")".

(** [err.Error()] *)
Fixpoint error_text (e : error) : string :=
  match e with
  | ErrExit c => "exit status " +:+ pretty c
  | ErrSignal text => text
  | ErrStatus c msg => "rpc error: code = " +:+ codes_String c +:+ " desc = " +:+ msg
  | ErrFmt msg cause => msg +:+ error_text cause
  | ErrOther msg => msg
  end.

Definition getExitCode (err : option error) : Z :=
  match err with
  | None => 0
  | Some (ErrExit c) => c
  | Some _ => noExitCode
  end.

(** [gstatus.Code(err)] for a non-nil error. *)
Definition gstatus_Code (err : error) : Z :=
  match err with
  | ErrStatus c _ => c
  | _ => codes_Unknown
  end.

(** ** The action runner and the driver *)

(** What a child process does while [cmd.Run] waits for it, as far as the
    runner can tell: chunks of output copied to the sink, and the flusher's
    timer firing in between. *)
Inductive CmdEvent : Type :=
| Output (b : list byte)
| TimerFired.

Record CmdBehaviour : Type := {
  cmd_events : list CmdEvent;
  cmd_result : option error        (* what cmd.Run returns *)
}.

(** Everything the runner asks of its surroundings.  Calls that can differ
    from one call to the next are indexed by how many came before. *)
Record Env : Type := {
  os_Hostname : string * option error;
  user_Current : string * option error;
  os_Getenv : string -> string;
  url_with_userinfo : string -> string -> string -> string * option error;
  time_now_millis : Z;
  elapsed_text : string;                (* Sprintf("%.6f", elapsedTimeSeconds) *)
  strconv_Quote : string -> string;     (* the verb %q *)
  uuid_NewRandom : nat -> option string;
  shlex_Split : string -> list string * option error;
  cmd_Run : nat -> list string -> CmdBehaviour;
  os_Mkdir : option error;
  os_Chdir : option error;
  git_Run : list string -> option error;
  workflowconf_NewConfig : BuildBuddyConfig * option error;
  (* the publisher, as the runner's goroutine meets it *)
  latched : nat -> option error;        (* bep.err when the k-th Publish reads it *)
  Wait_result : nat -> option error     (* what the k-th Wait returns *)
}.

Record World : Type := {
  w_log : LogState;                     (* ar.log, with the heap and stderr *)
  w_listener : bool;                    (* ar.log.writeListener is Run's closure *)
  w_progressCount : Z;                  (* ar.progressCount, an int32 *)
  w_streamID : StreamId;                (* ar.bep.streamID *)
  w_events : list (StreamId * option BuildEvent);
                                        (* every send on an events channel *)
  w_flusher : option Flusher;           (* the flusher of the current runner *)
  w_publishes : nat;
  w_commands : nat;
  w_uuids : nat;
  w_waits : nat
}.

Definition initial_World : World :=
  {| w_log := newInvocationLog []; w_listener := false; w_progressCount := 0;
     w_streamID := {| InvocationId := ""; BuildId := "" |}; w_events := [];
     w_flusher := None; w_publishes := 0; w_commands := 0; w_uuids := 0;
     w_waits := 0 |}.

Definition set_log (lg : LogState) (w : World) : World :=
  {| w_log := lg; w_listener := w_listener w; w_progressCount := w_progressCount w;
     w_streamID := w_streamID w; w_events := w_events w; w_flusher := w_flusher w;
     w_publishes := w_publishes w; w_commands := w_commands w; w_uuids := w_uuids w;
     w_waits := w_waits w |}.

Definition set_listener (b : bool) (w : World) : World :=
  {| w_log := w_log w; w_listener := b; w_progressCount := w_progressCount w;
     w_streamID := w_streamID w; w_events := w_events w; w_flusher := w_flusher w;
     w_publishes := w_publishes w; w_commands := w_commands w; w_uuids := w_uuids w;
     w_waits := w_waits w |}.

Definition set_progressCount (n : Z) (w : World) : World :=
  {| w_log := w_log w; w_listener := w_listener w; w_progressCount := n;
     w_streamID := w_streamID w; w_events := w_events w; w_flusher := w_flusher w;
     w_publishes := w_publishes w; w_commands := w_commands w; w_uuids := w_uuids w;
     w_waits := w_waits w |}.

Definition set_flusher (f : option Flusher) (w : World) : World :=
  {| w_log := w_log w; w_listener := w_listener w; w_progressCount := w_progressCount w;
     w_streamID := w_streamID w; w_events := w_events w; w_flusher := f;
     w_publishes := w_publishes w; w_commands := w_commands w; w_uuids := w_uuids w;
     w_waits := w_waits w |}.

(** A send on the current publisher's channel. *)
Definition add_event (e : option BuildEvent) (w : World) : World :=
  {| w_log := w_log w; w_listener := w_listener w; w_progressCount := w_progressCount w;
     w_streamID := w_streamID w; w_events := w_events w ++ [(w_streamID w, e)];
     w_flusher := w_flusher w;
     w_publishes := w_publishes w; w_commands := w_commands w; w_uuids := w_uuids w;
     w_waits := w_waits w |}.

Definition count_publish (w : World) : World :=
  {| w_log := w_log w; w_listener := w_listener w; w_progressCount := w_progressCount w;
     w_streamID := w_streamID w; w_events := w_events w; w_flusher := w_flusher w;
     w_publishes := S (w_publishes w); w_commands := w_commands w; w_uuids := w_uuids w;
     w_waits := w_waits w |}.

Definition count_command (w : World) : World :=
  {| w_log := w_log w; w_listener := w_listener w; w_progressCount := w_progressCount w;
     w_streamID := w_streamID w; w_events := w_events w; w_flusher := w_flusher w;
     w_publishes := w_publishes w; w_commands := S (w_commands w); w_uuids := w_uuids w;
     w_waits := w_waits w |}.

Definition count_uuid (w : World) : World :=
  {| w_log := w_log w; w_listener := w_listener w; w_progressCount := w_progressCount w;
     w_streamID := w_streamID w; w_events := w_events w; w_flusher := w_flusher w;
     w_publishes := w_publishes w; w_commands := w_commands w; w_uuids := S (w_uuids w);
     w_waits := w_waits w |}.

Definition count_wait (w : World) : World :=
  {| w_log := w_log w; w_listener := w_listener w; w_progressCount := w_progressCount w;
     w_streamID := w_streamID w; w_events := w_events w; w_flusher := w_flusher w;
     w_publishes := w_publishes w; w_commands := w_commands w; w_uuids := w_uuids w;
     w_waits := S (w_waits w) |}.

(** A fresh runner for a stream: [newInvocationLog()], a zero
    [progressCount], the default listener [func() {}].  The flusher of an
    earlier runner works on that runner's log and is not followed further. *)
Definition new_actionRunner (sid : StreamId) (w : World) : World :=
  {| w_log := newInvocationLog (log_heap (w_log w)); w_listener := false;
     w_progressCount := 0; w_streamID := sid; w_events := w_events w;
     w_flusher := None;
     w_publishes := w_publishes w; w_commands := w_commands w; w_uuids := w_uuids w;
     w_waits := w_waits w |}.

(** Computations of the runner's goroutine: they change the world and
    return, panic, or exit the process. *)
Definition M (A : Type) : Type := World -> outcome A * World.

Definition ret {A : Type} (a : A) : M A := fun w => (Returned a, w).

Definition bind {A B : Type} (c : M A) (k : A -> M B) : M B :=
  fun w =>
    match c w with
    | (Returned a, w') => k a w'
    | (Panicked msg, w') => (Panicked msg, w')
    | (Exited code, w') => (Exited code, w')
    end.

Notation "'let*' x ':=' c 'in' k" := (bind c (fun x => k))
  (at level 10, x name, c at level 100, k at level 200).

Definition lift {A : Type} (o : outcome A) : M A := fun w => (o, w).

Definition os_Exit {A : Type} (code : Z) : M A := fun w => (Exited code, w).

(** [defer d(); body]: [d] also runs when [body] panics, not when it exits
    the process. *)
Definition with_defer {A : Type} (d : World -> World) (body : M A) : M A :=
  fun w =>
    match body w with
    | (Returned a, w') => (Returned a, d w')
    | (Panicked msg, w') => (Panicked msg, d w')
    | (Exited code, w') => (Exited code, w')
    end.

(** [fatal(err)]: [os.Exit(int(gstatus.Code(err)))]. *)
Definition fatal {A : Type} (err : error) : M A := os_Exit (gstatus_Code err).

Section Runner.

Variable env : Env.
Variable flags : Flags.

(** [bep.Publish(e)] as the runner's goroutine meets it: the latch is what
    the publisher's goroutines have made of it by then; the channel is
    drained by [run] and takes the event. *)
Definition bep_Publish (e : BuildEvent) : M (option error) :=
  fun w =>
    match latched env (w_publishes w) with
    | Some e0 =>
        (Returned (Some (ErrFmt "cannot publish event due to previous error: " e0)),
         count_publish w)
    | None => (Returned None, count_publish (add_event (Some e) w))
    end.

(** [bep.Wait()]: the sentinel goes on the channel; the result is the
    latched error once [run] has signalled. *)
Definition bep_Wait : M (option error) :=
  fun w => (Returned (Wait_result env (w_waits w)), count_wait (add_event None w)).

Definition flushProgress : M (option error) :=
  fun w =>
    let '(buf, lg) := invocationLog_Consume (w_log w) in
    let w1 := set_log lg w in
    if (len buf =? 0)%nat then (Returned None, w1)
    else
      let count := w_progressCount w1 in
      let w2 := set_progressCount (wrap32 (count + 1)) w1 in
      let output := String.string_of_list_byte (slice_bytes (log_heap lg) buf) in
      bep_Publish
        {| Id := Id_Progress count;
           Children := [Id_Progress (wrap32 (count + 1))];
           Payload_of := Payload_Progress output;
           LastMessage := false |} w2.

(** The listener [Run] installs; before that it is [func() {}]. *)
Definition writeListener : M unit :=
  fun w =>
    if w_listener w
    then
      if progressFlushThresholdBytes <=? Z.of_nat (Buffer_Len (log_Buffer (w_log w)))
      then (let* _ := flushProgress in ret tt) w
      else (Returned tt, w)
    else (Returned tt, w).

(** [invLog.Write(b)], listener included. *)
Definition Write (b : list byte) : M nat :=
  fun w =>
    let '(n, lg) := invocationLog_Write b (w_log w) in
    (let* _ := writeListener in ret n) (set_log lg w).

(** [invLog.Printf(format, vals...)], the formatted text given. *)
Definition Printf (text : string) : M unit :=
  let* _ := Write (String.list_byte_of_string (text +:+ nl)) in ret tt.

(** [invLog.Printf(format)] with a format made at run time and no
    operand: [fmt] parses the text as a format. *)
Definition Printf_format (format : string) : M unit :=
  let* _ := Write (String.list_byte_of_string (fmt_Sprintf (format +:+ nl))) in ret tt.

(** The flusher's timer fires: one more call of [flushProgress] from its
    goroutine (the error is dropped). *)
Definition flusher_tick : M unit :=
  fun w =>
    match w_flusher w with
    | Some f =>
        match flusher_step SelectTimer f with
        | Some f' => (let* _ := flushProgress in ret tt) (set_flusher (Some f') w)
        | None => (Returned tt, w)
        end
    | None => (Returned tt, w)
    end.

Fixpoint play (evs : list CmdEvent) : M unit :=
  match evs with
  | [] => ret tt
  | Output b :: rest => let* _ := Write b in play rest
  | TimerFired :: rest => let* _ := flusher_tick in play rest
  end.

(** [runCommand(ctx, "bazelisk", args, nil, ar.log)] *)
Definition runCommand (args : list string) : M (option error) :=
  fun w =>
    let beh := cmd_Run env (w_commands w) args in
    (let* _ := play (cmd_events beh) in ret (cmd_result beh)) (count_command w).

Definition printCommandLine (username hostname : string) (bazelArgs : list string)
  : M unit :=
  let ps1End := if String.eqb username "root" then "#" else "$" in
  let command :=
    fold_left (fun acc arg => acc +:+ " " +:+ toShellToken arg) bazelArgs "bazelisk" in
  let userAtHost := username +:+ "@" +:+ hostname in
  Printf_format (nl +:+ aurora_Cyan userAtHost +:+ ps1End +:+ " " +:+ command).

Definition startedEvent (w : World) : BuildEvent :=
  {| Id := Id_Started;
     Children := [Id_Progress 0; Id_WorkspaceStatus; Id_BuildFinished];
     Payload_of := Payload_Started (InvocationId (w_streamID w)) (time_now_millis env);
     LastMessage := false |}.

Definition workspaceStatusEvent (username hostname : string) : BuildEvent :=
  {| Id := Id_WorkspaceStatus;
     Children := [];
     Payload_of :=
       Payload_WorkspaceStatus
         [("BUILD_USER", username); ("BUILD_HOST", hostname);
          ("REPO_URL", repoURL flags); ("COMMIT_SHA", commitSHA flags);
          ("GIT_TREE_STATUS", "Clean")];
     LastMessage := false |}.

(** The loop of [Run] over the action's bazel commands. *)
Fixpoint run_commands (username hostname : string) (cmds : list string)
  : M (option error) :=
  match cmds with
  | [] => ret None
  | bazelCmd :: rest =>
      let* parsed := lift (bazelArgs (shlex_Split env) bazelCmd) in
      match parsed with
      | (_, Some err) => ret (Some (ErrFmt "failed to parse bazel command: " err))
      | (args, None) =>
          let* _ := printCommandLine username hostname args in
          let* err := runCommand args in
          let* _ :=
            (let exitCode := getExitCode err in
             if negb (exitCode =? noExitCode)
             then Printf (esc +:+ "[90m(command exited with code " +:+ pretty exitCode
                          +:+ ")" +:+ esc +:+ "[0m")
             else ret tt) in
          let* ferr := flushProgress in
          match ferr with
          | Some _ => ret None
          | None =>
              match err with
              | Some e => ret (Some e)
              | None => run_commands username hostname rest
              end
          end
      end
  end.

(** [stop <- struct{}{}], the function [startBackgroundProgressFlush]
    returns. *)
Definition stopFlushingProgress (w : World) : World :=
  match w_flusher w with
  | Some f =>
      match flusher_step CallStop f with
      | Some f' => set_flusher (Some f') w
      | None => w
      end
  | None => w
  end.

Definition Run (username hostname : string) (action : Action) : M (option error) :=
  let* _ := Printf ("Action:          " +:+ Name action) in
  let* _ := Printf ("Triggered by:    " +:+ triggerEvent flags +:+ " to branch "
                    +:+ strconv_Quote env (triggerBranch flags)) in
  let* _ := (fun w => Printf ("Invocation ID:   " +:+ InvocationId (w_streamID w)) w) in
  let* _ := (fun w => Printf ("Invocation URL:  "
                               +:+ invocationURL flags (InvocationId (w_streamID w))) w) in
  let* err := (fun w => bep_Publish (startedEvent w) w) in
  match err with
  | Some _ => ret None
  | None =>
      let* err := flushProgress in
      match err with
      | Some _ => ret None
      | None =>
          let* err := bep_Publish (workspaceStatusEvent username hostname) in
          match err with
          | Some _ => ret None
          | None =>
              let* _ := (fun w => (Returned tt, set_listener true w)) in
              let* _ := (fun w => (Returned tt,
                                   set_flusher (Some startBackgroundProgressFlush) w)) in
              with_defer stopFlushingProgress
                (run_commands username hostname (BazelCommands action))
          end
      end
  end.

(** [newUUID()] *)
Definition newUUID : M string :=
  fun w =>
    match uuid_NewRandom env (w_uuids w) with
    | Some id => (Returned id, count_uuid w)
    | None => fatal (status_UnavailableErrorf "failed to generate UUID") (count_uuid w)
    end.

Definition buildFinishedEvent (exitCode : Z) : BuildEvent :=
  {| Id := Id_BuildFinished;
     Children := [Id_BuildToolLogs];
     Payload_of := Payload_Finished (wrap32 exitCode) (time_now_millis env);
     LastMessage := false |}.

Definition buildToolLogsEvent : BuildEvent :=
  {| Id := Id_BuildToolLogs;
     Children := [];
     Payload_of := Payload_BuildToolLogs [("elapsed time", elapsed_text env)];
     LastMessage := true |}.

(** The body of the loop of [RunAllActions] for an action whose trigger
    matched. *)
Definition runAction (username hostname : string) (action : Action) : M unit :=
  let* invocationId := newUUID in
  let* buildId := newUUID in
  let* _ := (fun w => (Returned tt,
                       new_actionRunner {| InvocationId := invocationId;
                                           BuildId := buildId |} w)) in
  let* rerr := Run username hostname action in
  let* exitCode :=
    match rerr with
    | None => ret 0
    | Some err =>
        let* _ := Printf_format
                    (aurora_Red (nl +:+ "Action failed: " +:+ error_text err)) in
        let exitCode := getExitCode (Some err) in
        ret (if exitCode =? noExitCode then 1 else exitCode)
    end in
  let* _ := flushProgress in
  let* _ := bep_Publish (buildFinishedEvent exitCode) in
  let* _ := bep_Publish buildToolLogsEvent in
  let* werr := bep_Wait in
  match werr with
  | Some err =>
      fatal (status_UnavailableErrorf
               ("failed to publish build event for action "
                +:+ strconv_Quote env (Name action) +:+ ": " +:+ error_text err))
  | None => ret tt
  end.

Fixpoint run_actions (username hostname : string) (actions : list Action) : M unit :=
  match actions with
  | [] => ret tt
  | action :: rest =>
      if negb (matchesAnyTrigger action (triggerEvent flags) (triggerBranch flags))
      then run_actions username hostname rest          (* continue *)
      else
        let* _ := runAction username hostname action in
        run_actions username hostname rest
  end.

Definition RunAllActions (cfg : BuildBuddyConfig) : M unit :=
  let hostname :=
    match os_Hostname env with
    | (_, Some _) => ""
    | (h, None) => h
    end in
  let username :=
    match user_Current env with
    | (_, Some _) => ""
    | (u, None) => u
    end in
  run_actions username hostname (Actions cfg).

Definition authRepoURL : string * option error :=
  let user := os_Getenv env "REPO_USER" in
  let token := os_Getenv env "REPO_TOKEN" in
  if String.eqb user "" && String.eqb token "" then (repoURL flags, None)
  else
    match url_with_userinfo env (repoURL flags) user token with
    | (_, Some err) =>
        ("", Some (ErrFmt ("failed to parse repo URL "
                           +:+ strconv_Quote env (repoURL flags) +:+ ": ") err))
    | (u, None) => (u, None)
    end.

Definition cloneRepo : option error :=
  match os_Mkdir env with
  | Some err => Some (status_WrapError err "mkdir")
  | None =>
      match os_Chdir env with
      | Some err => Some (status_WrapError err "cd")
      | None =>
          match git_Run env ["init"] with
          | Some err => Some err
          | None =>
              match authRepoURL with
              | (_, Some err) => Some err
              | (authURL, None) =>
                  match git_Run env ["remote"; "add"; "origin"; authURL] with
                  | Some err => Some err
                  | None =>
                      match git_Run env ["fetch"; "origin"; commitSHA flags] with
                      | Some err =>
                          Some (status_UnavailableErrorf
                                  ("git fetch failed: " +:+ error_text err))
                      | None => git_Run env ["checkout"; commitSHA flags]
                      end
                  end
              end
          end
      end
  end.

(** [readConfig()]: the file opened and parsed, or an error. *)
Definition readConfig : BuildBuddyConfig * option error := workflowconf_NewConfig env.

Definition main : M unit :=
  match cloneRepo with
  | Some err => fatal err
  | None =>
      match readConfig with
      | (_, Some _) => os_Exit 1
      | (cfg, None) => RunAllActions cfg
      end
  end.

End Runner.

(** The exit status of the process: 0 when [main] returns, 2 when the Go
    runtime ends it after a panic, the argument of [os.Exit] otherwise. *)
Definition exit_status (o : outcome unit) : Z :=
  match o with
  | Returned _ => 0
  | Panicked _ => 2
  | Exited code => code
  end.

(** [strings.Join(elems, sep)] *)
Fixpoint strings_Join (elems : list string) (sep : string) : string :=
  match elems with
  | [] => ""
  | e :: rest =>
      match rest with
      | [] => e
      | _ :: _ => e +:+ sep +:+ strings_Join rest sep
      end
  end.

(** ** The older copy of the runner: log, runner and driver

    [cmd/action_runner/main.go] has no write listener and no periodic
    flusher: the log is written and flushed by one goroutine at a time. *)
Module ActionRunnerMain.

Definition retryableExitCode : Z := 21.
Definition textCyan : string := esc +:+ "[36m".
Definition textGray : string := esc +:+ "[90m".
Definition textReset : string := esc +:+ "[0m".

(** The map literal of [validateFlags]: flag names and the values the
    pointers hold. *)
Definition flag_table (flags : Flags) : list (string * string) :=
  [("repo_url", repoURL flags); ("commit_sha", commitSHA flags);
   ("trigger_branch", triggerBranch flags); ("trigger_event", triggerEvent flags);
   ("bes_backend", besBackend flags); ("bes_results_url", besResultsURL flags)].

(** [validateFlags()].  Go leaves the iteration order of a map unspecified:
    [entries] is the map in the order the [range] loop visits it.  The
    joined text holds no formatting verb, so [fmt.Errorf] returns it as is. *)
Definition validateFlags (entries : list (string * string)) : option error :=
  let errs :=
    fold_left
      (fun errs entry =>
         if String.eqb (snd entry) "" then errs ++ ["--" +:+ fst entry +:+ " unset"]
         else errs)
      entries [] in
  if (length errs =? 0)%nat then None
  else Some (ErrOther (strings_Join errs "; ")).

Section Driver.

Variable env : Env.
Variable flags : Flags.

(** [invLog.writer.Write(b)], the writer being
    [io.MultiWriter(os.Stderr, &invLog.Buffer)]: the bytes go to standard
    error, then to the buffer.  Writes to standard error are taken to
    succeed. *)
Definition writer_Write (b : list byte) : M nat :=
  fun w =>
    let '(n, lg) := invocationLog_Write b (w_log w) in
    (Returned n, set_log lg w).

Definition Printf (text : string) : M unit :=
  let* _ := writer_Write (String.list_byte_of_string (text +:+ nl)) in ret tt.

(** [flushProgress]: [string(ar.log.Buffer.Bytes())] copies the bytes
    before [Reset]. *)
Definition flushProgress : M (option error) :=
  fun w =>
    let lg := w_log w in
    if (Buffer_Len (log_Buffer lg) =? 0)%nat then (Returned None, w)
    else
      let count := w_progressCount w in
      let w1 := set_progressCount (wrap32 (count + 1)) w in
      let output :=
        String.string_of_list_byte (slice_bytes (log_heap lg) (Buffer_Bytes (log_Buffer lg))) in
      let w2 :=
        set_log {| log_heap := log_heap lg;
                   log_Buffer := Buffer_Reset (log_Buffer lg);
                   log_stderr := log_stderr lg |} w1 in
      bep_Publish env
        {| Id := Id_Progress count;
           Children := [Id_Progress (wrap32 (count + 1))];
           Payload_of := Payload_Progress output;
           LastMessage := false |} w2.

(** The child's output reaches the writer chunk by chunk; no timer is
    involved here. *)
Fixpoint play (evs : list CmdEvent) : M unit :=
  match evs with
  | [] => ret tt
  | Output b :: rest => let* _ := writer_Write b in play rest
  | TimerFired :: rest => play rest
  end.

(** [runCommand(ctx, "bazelisk", args, emptyEnv, ar.log.writer)] *)
Definition runCommand (args : list string) : M (option error) :=
  fun w =>
    let beh := cmd_Run env (w_commands w) args in
    (let* _ := play (cmd_events beh) in ret (cmd_result beh)) (count_command w).

(** The loop of [Run]: the prompt line is logged before the parse error is
    looked at. *)
Fixpoint run_commands (username hostname ps1End : string) (cmds : list string)
  : M (option error) :=
  match cmds with
  | [] => ret None
  | bazelCmd :: rest =>
      let* parsed := lift (bazelArgs (shlex_Split env) bazelCmd) in
      let '(args, perr) := parsed in
      let* _ := Printf (nl +:+ textCyan +:+ username +:+ "@" +:+ hostname +:+ textReset
                        +:+ ps1End +:+ " bazelisk " +:+ strings_Join args " ") in
      match perr with
      | Some err => ret (Some (ErrFmt "failed to parse bazel command: " err))
      | None =>
          let* err := runCommand args in
          let* _ :=
            (let exitCode := getExitCode err in
             if negb (exitCode =? noExitCode)
             then Printf (textGray +:+ "(command exited with code " +:+ pretty exitCode
                          +:+ ")" +:+ textReset)
             else ret tt) in
          let* ferr := flushProgress in
          match ferr with
          | Some _ => ret None
          | None =>
              match err with
              | Some e => ret (Some e)
              | None => run_commands username hostname ps1End rest
              end
          end
      end
  end.

Definition Run (username hostname : string) (action : Action) : M (option error) :=
  let* _ := Printf ("Action:          " +:+ Name action) in
  let* _ := Printf ("Triggered by:    " +:+ triggerEvent flags +:+ " to branch "
                    +:+ strconv_Quote env (triggerBranch flags)) in
  let* _ := (fun w => Printf ("Invocation ID:   " +:+ InvocationId (w_streamID w)) w) in
  let* _ := (fun w => Printf ("Invocation URL:  "
                               +:+ invocationURL flags (InvocationId (w_streamID w))) w) in
  let* err := (fun w => bep_Publish env (startedEvent env w) w) in
  match err with
  | Some _ => ret None
  | None =>
      let* err := flushProgress in
      match err with
      | Some _ => ret None
      | None =>
          let* err := bep_Publish env (workspaceStatusEvent flags username hostname) in
          match err with
          | Some _ => ret None
          | None =>
              let ps1End := if String.eqb username "root" then "#" else "$" in
              run_commands username hostname ps1End (BazelCommands action)
          end
      end
  end.

(** [newUUID()]: a failure ends the process with the retry code. *)
Definition newUUID : M string :=
  fun w =>
    match uuid_NewRandom env (w_uuids w) with
    | Some id => (Returned id, count_uuid w)
    | None => os_Exit retryableExitCode (count_uuid w)
    end.

(** The body of the loop of [RunAllActions] for a triggered action. *)
Definition runAction (username hostname : string) (action : Action) : M unit :=
  let* invocationId := newUUID in
  let* buildId := newUUID in
  let* _ := (fun w => (Returned tt,
                       new_actionRunner {| InvocationId := invocationId;
                                           BuildId := buildId |} w)) in
  let* rerr := Run username hostname action in
  let* exitCode :=
    match rerr with
    | None => ret 0
    | Some err =>
        let* _ := Printf ("action runner failed: " +:+ error_text err) in
        let exitCode := getExitCode (Some err) in
        ret (if exitCode =? noExitCode then 1 else exitCode)
    end in
  let* _ := flushProgress in
  let* _ := bep_Publish env (buildFinishedEvent env exitCode) in
  let* _ := bep_Publish env (buildToolLogsEvent env) in
  let* werr := bep_Wait env in
  match werr with
  | Some _ => os_Exit retryableExitCode
  | None => ret tt
  end.

Fixpoint run_actions (username hostname : string) (actions : list Action) : M unit :=
  match actions with
  | [] => ret tt
  | action :: rest =>
      if negb (ActionRunner.matchesAnyTrigger action (triggerEvent flags)
                 (triggerBranch flags))
      then run_actions username hostname rest
      else
        let* _ := runAction username hostname action in
        run_actions username hostname rest
  end.

Definition RunAllActions (cfg : BuildBuddyConfig) : M unit :=
  let hostname :=
    match os_Hostname env with
    | (_, Some _) => ""
    | (h, None) => h
    end in
  let username :=
    match user_Current env with
    | (_, Some _) => ""
    | (u, None) => u
    end in
  run_actions username hostname (Actions cfg).

Definition cloneRepo : option error :=
  match os_Mkdir env with
  | Some err => Some (ErrFmt ("mkdir " +:+ dquote +:+ "repo-root" +:+ dquote +:+ ": ") err)
  | None =>
      match os_Chdir env with
      | Some err => Some (ErrFmt ("cd " +:+ dquote +:+ "repo-root" +:+ dquote +:+ ": ") err)
      | None =>
          match git_Run env ["init"] with
          | Some err => Some err
          | None =>
              match authRepoURL env flags with
              | (_, Some err) => Some err
              | (authURL, None) =>
                  match git_Run env ["remote"; "add"; "origin"; authURL] with
                  | Some err => Some err
                  | None =>
                      match git_Run env ["fetch"; "origin"; commitSHA flags] with
                      | Some err => Some err
                      | None => git_Run env ["checkout"; commitSHA flags]
                      end
                  end
              end
          end
      end
  end.

(** [readConfig()]: the file opened and parsed, or an error. *)
Definition readConfig : BuildBuddyConfig * option error :=
  match workflowconf_NewConfig env with
  | (cfg, Some err) =>
      (cfg, Some (ErrFmt ("read " +:+ dquote +:+ "buildbuddy.yaml" +:+ dquote +:+ ": ") err))
  | (cfg, None) => (cfg, None)
  end.

(** [main()], the map of [validateFlags] being visited in the order
    [entries]. *)
Definition main (entries : list (string * string)) : M unit :=
  match validateFlags entries with
  | Some _ => os_Exit 1
  | None =>
      match cloneRepo with
      | Some _ => os_Exit retryableExitCode
      | None =>
          match readConfig with
          | (_, Some _) => os_Exit 1
          | (cfg, None) => RunAllActions cfg
          end
      end
  end.

End Driver.

End ActionRunnerMain.

(** ** Definitions used to state the properties *)

(** Every character of [s] satisfies [ok]. *)
Fixpoint all_chars (ok : ascii -> bool) (s : string) : bool :=
  match s with
  | EmptyString => true
  | String c rest => ok c && all_chars ok rest
  end.

(** The set the regular expression leaves unquoted:
    [A-Za-z0-9_@%+=:,./-]. *)
Definition shell_safe_char (c : ascii) : bool :=
  is_word_char c || ascii_in c "@%+=:,./-".

(** The set [A-Za-z0-9@%+=:,./-], without the underscore. *)
Definition listed_safe_char (c : ascii) : bool :=
  let n := nat_of_ascii c in
  ((48 <=? n) && (n <=? 57) || (65 <=? n) && (n <=? 90) || (97 <=? n) && (n <=? 122))%nat
  || ascii_in c "@%+=:,./-".

(** [s] with every single quote replaced by the five-byte escape, one
    character at a time. *)
Fixpoint escape_quotes (s : string) : string :=
  match s with
  | EmptyString => EmptyString
  | String c rest =>
      (if Ascii.eqb c "039"%char then squote_escape else String c EmptyString)
      +:+ escape_quotes rest
  end.

Definition single_quoted (s : string) : string :=
  squote +:+ escape_quotes s +:+ squote.

(** A stand-in tokeniser for examples: words separated by blanks, no
    quoting. *)
Fixpoint split_blanks (s cur : string) : list string :=
  match s with
  | EmptyString => if String.eqb cur "" then [] else [cur]
  | String c rest =>
      if Ascii.eqb c " "%char
      then if String.eqb cur "" then split_blanks rest ""
           else cur :: split_blanks rest ""
      else split_blanks rest (cur +:+ String c EmptyString)
  end.

Definition blank_Split (s : string) : list string * option error :=
  (split_blanks s "", None).

(** An item taken from the channel, as the event of its envelope. *)
Definition to_wire (o : option BuildEvent) : WireEvent :=
  match o with
  | Some e => BazelEvent e
  | None => ComponentStreamFinished_FINISHED
  end.

(** Envelope events numbered consecutively from [k]. *)
Fixpoint number_from (k : Z) (ws : list WireEvent) : list (Z * WireEvent) :=
  match ws with
  | [] => []
  | w :: rest => (k, w) :: number_from (k + 1) rest
  end.

(** The wire, reduced to sequence numbers and events. *)
Definition wire_view (p : Publisher) : list (Z * WireEvent) :=
  map (fun req => (SequenceNumber req, Event req)) (sent p).

(** Control invariant: the order of stream calls and goroutine completion. *)
Record CtlInv (p : Publisher) : Prop := {
  ctl_pre : run_pc p = AtDial \/ run_pc p = AtOpenStream -> calls p = [];
  ctl_pre_ack :
    run_pc p = AtDial \/ run_pc p = AtOpenStream ->
    doneReceiving p = 0%nat /\ ack_pc p = AckNotStarted;
  ctl_loop : forall s r, run_pc p = AtLoop s -> CloseSend r ∉ calls p;
  ctl_atclose : forall r, run_pc p = AtCloseSend -> CloseSend r ∉ calls p;
  ctl_token : (0 < doneReceiving p)%nat -> ack_pc p = AckReturned;
  ctl_await : run_pc p = AtAwaitAcks -> CloseSend None ∈ calls p;
  ctl_returned :
    run_pc p = RunReturned -> CloseSend None ∈ calls p -> ack_pc p = AckReturned;
  ctl_done :
    (0 < done p)%nat \/ (exists r, wait_pc p = WaitReturned r) -> run_pc p = RunReturned
}.

(** Queue invariant: what was sent is what was dequeued, numbered in order. *)
Definition queue_split (p : Publisher) (sentq dropped : list (option BuildEvent)) : Prop :=
  enqueued p = sentq ++ dropped ++ events p
  /\ map Event (sent p) = map to_wire sentq
  /\ (forall i, sentq !! i = Some None -> S i = length sentq)
  /\ (dropped = [] \/ (run_pc p = RunReturned /\ Forall is_Some (sentq ++ dropped)))
  /\ (forall s, run_pc p = AtLoop s ->
        dropped = [] /\ Forall is_Some sentq
        /\ s = wrap64 (Z.of_nat (length sentq) + 1)).

Record QInv (p : Publisher) : Prop := {
  q_split : exists sentq dropped, queue_split p sentq dropped;
  q_seq :
    forall i req, sent p !! i = Some req ->
      SequenceNumber req = wrap64 (Z.of_nat i + 1) /\ OBE_StreamId req = streamID p
}.

(** After a successful send of the final envelope the next stream call is
    the half-close. *)
Definition FinInv (p : Publisher) : Prop :=
  forall req, Send req None ∈ calls p ->
    Event req = ComponentStreamFinished_FINISHED ->
    run_pc p = AtCloseSend \/ exists r, CloseSend r ∈ calls p.

(** What holds in every state the publisher can reach. *)
Record Reachable_inv (p : Publisher) : Prop := {
  r_ctl : CtlInv p;
  r_queue : QInv p;
  r_fin : FinInv p
}.

(** Closing goals about one step of the control invariant. *)
Ltac ctl_finish Hpre Hprea Hloop Hatc Htok :=
  intros; simplify_eq/=; try done; try lia;
  try (rewrite ?Hpre in * by auto; set_unfold;
       intuition (eauto; try discriminate; try lia; try congruence));
  try (destruct Hprea; [auto|]; lia);
  try (exfalso; eapply Hloop; eauto; fail);
  try (exfalso; eapply Hatc; eauto; fail);
  try (apply Htok; lia);
  try (match goal with H : (0 < _)%nat -> _ |- _ => apply H; lia end);
  try (repeat match goal with H : ex _ |- _ => destruct H end; simplify_eq; eauto; fail).

(** Example replies, events and schedules. *)
Definition reply_ok : RunReply := {| marshal_err := None; call_err := None; now := 0 |}.
Definition reply_fail : RunReply :=
  {| marshal_err := None; call_err := Some (ErrOther "transport is closing"); now := 0 |}.
Definition demo_sid : StreamId := {| InvocationId := "inv"; BuildId := "build" |}.
Definition demo_event (n : Z) : BuildEvent :=
  {| Id := Id_Progress n; Children := [Id_Progress (n + 1)];
     Payload_of := Payload_Progress "out"; LastMessage := false |}.
Definition clean_schedule : list Label :=
  [DoRun reply_ok; DoRun reply_ok; DoPublish (demo_event 0); DoRun reply_ok;
   DoPublish (demo_event 1); DoWaitEnqueue; DoRun reply_ok; DoRun reply_ok;
   DoRun reply_ok; DoAck RecvAck; DoAck RecvEOF; DoRun reply_ok; DoWaitReceive].


(** A schedule that publishes [es] one at a time, the publisher task
    sending each event before the next is published, then waits. *)
Definition publish_schedule (es : list BuildEvent) : list Label :=
  [DoRun reply_ok; DoRun reply_ok]
  ++ flat_map (fun e => [DoPublish e; DoRun reply_ok]) es
  ++ [DoWaitEnqueue; DoRun reply_ok].

(** The buffer's slice points at an array of its capacity. *)
Definition Buffer_wf (h : heap) (b : slice) : Prop :=
  match arr b with
  | None => len b = 0%nat /\ cap b = 0%nat
  | Some a => exists bytes, h !! a = Some bytes /\ length bytes = cap b /\ (len b <= cap b)%nat
  end.

Definition LogState_wf (st : LogState) : Prop := Buffer_wf (log_heap st) (log_Buffer st).

(** The bytes the buffer holds: written and not yet consumed. *)
Definition pending (st : LogState) : list byte :=
  slice_bytes (log_heap st) (log_Buffer st).

(** A client that copies what [Consume] returns before its next call, as
    [string(buf)] does in [flushProgress]. *)
Fixpoint run_log_copying (calls : list LogCall) (st : LogState)
  : list (list byte) * LogState :=
  match calls with
  | [] => ([], st)
  | CallWrite b :: rest => run_log_copying rest (snd (invocationLog_Write b st))
  | CallConsume :: rest =>
      let '(s, st') := invocationLog_Consume st in
      let copy := slice_bytes (log_heap st') s in
      let '(out, st'') := run_log_copying rest st' in
      (copy :: out, st'')
  end.

(** What the same calls give on a plain byte queue. *)
Fixpoint queue_outputs (calls : list LogCall) (held : list byte)
  : list (list byte) * list byte :=
  match calls with
  | [] => ([], held)
  | CallWrite b :: rest => queue_outputs rest (held ++ b)
  | CallConsume :: rest =>
      let '(out, held') := queue_outputs rest [] in
      (held :: out, held')
  end.

(** All bytes written by a sequence of calls, in order. *)
Definition written (calls : list LogCall) : list byte :=
  flat_map (fun c => match c with CallWrite b => b | CallConsume => [] end) calls.

(** Two writes with a [Consume] after each. *)
Definition two_writes : list LogCall :=
  [CallWrite (String.list_byte_of_string "abc"); CallConsume;
   CallWrite (String.list_byte_of_string "de"); CallConsume].

(** A computation that always returns and leaves the stream identity and
    the count of commands alone. *)
Definition log_only {A : Type} (c : M A) : Prop :=
  forall w, exists a w',
    c w = (Returned a, w')
    /\ w_streamID w' = w_streamID w /\ w_commands w' = w_commands w
    /\ w_uuids w' = w_uuids w /\ w_waits w' = w_waits w
    /\ exists more, w_events w' = w_events w ++ more.

Section RunnerProperties.

Variable env : Env.
Variable flags : Flags.

(** The four lines [Run] logs before it publishes anything. *)
Definition Run_prelude (action : Action) : M unit :=
  let* _ := Printf env ("Action:          " +:+ Name action) in
  let* _ := Printf env ("Triggered by:    " +:+ triggerEvent flags +:+ " to branch "
                        +:+ strconv_Quote env (triggerBranch flags)) in
  let* _ := (fun w => Printf env ("Invocation ID:   " +:+ InvocationId (w_streamID w)) w) in
  (fun w => Printf env ("Invocation URL:  "
                        +:+ invocationURL flags (InvocationId (w_streamID w))) w).

(** One round of the command loop up to the flush: the prompt line, the
    command, the exit-code line. *)
Definition command_round (username hostname : string) (args : list string)
  : M (option error) :=
  let* _ := printCommandLine env username hostname args in
  let* err := runCommand env args in
  let* _ :=
    (let exitCode := getExitCode err in
     if negb (exitCode =? noExitCode)
     then Printf env (esc +:+ "[90m(command exited with code " +:+ pretty exitCode
                      +:+ ")" +:+ esc +:+ "[0m")
     else ret tt) in
  ret err.

(** The two kinds of error [Run] can return. *)
Definition tokenise_error (e : error) : Prop :=
  exists cmd tokens cause,
    shlex_Split env cmd = (tokens, Some cause)
    /\ e = ErrFmt "failed to parse bazel command: " cause.

Definition command_error (e : error) : Prop :=
  exists k args, cmd_result (cmd_Run env k args) = Some e.

(** No event publishing fails: no error is ever latched and every [Wait]
    returns nil. *)
Definition publishing_succeeds : Prop :=
  (forall k, latched env k = None) /\ (forall k, Wait_result env k = None).



End RunnerProperties.

(** Scenario S3: one action [test] with the single command
    [bazel build //:nonexistent], triggered by a push to [main]; the child
    prints an error and exits with code 1; publishing succeeds. *)
Definition S3_action : Action :=
  {| Name := "test";
     Action_Triggers :=
       Some {| Push := Some {| Push_Branches := ["main"] |}; PullRequest := None |};
     BazelCommands := ["bazel build //:nonexistent"] |}.

Definition S3_flags : Flags :=
  {| besBackend := "grpc://localhost:1985"; besResultsURL := "http://localhost:8080/invocation";
     repoURL := "https://x/y"; commitSHA := "abc123";
     triggerEvent := "push"; triggerBranch := "main" |}.

Definition S3_env : Env :=
  {| os_Hostname := ("host", None);
     user_Current := ("ci", None);
     os_Getenv := fun _ => "";
     url_with_userinfo := fun u _ _ => (u, None);
     time_now_millis := 0;
     elapsed_text := "0.100000";
     strconv_Quote := fun s => dquote +:+ s +:+ dquote;
     uuid_NewRandom := fun k => Some ("uuid-" +:+ pretty k);
     shlex_Split := blank_Split;
     cmd_Run := fun _ _ =>
       {| cmd_events :=
            [Output (String.list_byte_of_string "ERROR: no such target //:nonexistent");
             TimerFired];
          cmd_result := Some (ErrExit 1) |};
     os_Mkdir := None;
     os_Chdir := None;
     git_Run := fun _ => None;
     workflowconf_NewConfig := ({| Actions := [S3_action] |}, None);
     latched := fun _ => None;
     Wait_result := fun _ => None |}.

(** Scenario S5 at its start: the stream is already broken when [Run]
    publishes its first event. *)
Definition S5_env : Env :=
  {| os_Hostname := os_Hostname S3_env;
     user_Current := user_Current S3_env;
     os_Getenv := os_Getenv S3_env;
     url_with_userinfo := url_with_userinfo S3_env;
     time_now_millis := time_now_millis S3_env;
     elapsed_text := elapsed_text S3_env;
     strconv_Quote := strconv_Quote S3_env;
     uuid_NewRandom := uuid_NewRandom S3_env;
     shlex_Split := shlex_Split S3_env;
     cmd_Run := cmd_Run S3_env;
     os_Mkdir := None;
     os_Chdir := None;
     git_Run := git_Run S3_env;
     workflowconf_NewConfig := workflowconf_NewConfig S3_env;
     latched := fun _ => Some (ErrOther "transport is closing");
     Wait_result := fun _ => Some (ErrOther "transport is closing") |}.

(** Scenario S5 later: the stream breaks after the three opening events
    of [Run]; the child writes a line, the flusher's timer fires, and the
    child is ended by a signal. *)
Definition S5_late_env : Env :=
  {| os_Hostname := os_Hostname S3_env;
     user_Current := user_Current S3_env;
     os_Getenv := os_Getenv S3_env;
     url_with_userinfo := url_with_userinfo S3_env;
     time_now_millis := time_now_millis S3_env;
     elapsed_text := elapsed_text S3_env;
     strconv_Quote := strconv_Quote S3_env;
     uuid_NewRandom := uuid_NewRandom S3_env;
     shlex_Split := shlex_Split S3_env;
     cmd_Run := fun _ _ =>
       {| cmd_events :=
            [Output (String.list_byte_of_string "Loading: 0 packages loaded");
             TimerFired];
          cmd_result := Some (ErrSignal "signal: killed") |};
     os_Mkdir := None;
     os_Chdir := None;
     git_Run := git_Run S3_env;
     workflowconf_NewConfig := workflowconf_NewConfig S3_env;
     latched := fun k =>
       if (k <? 3)%nat then None else Some (ErrOther "transport is closing");
     Wait_result := fun _ => Some (ErrOther "transport is closing") |}.

(** *** The publisher: what a nil result of [Wait] stands for *)

(** The stream calls of a run in which nothing failed so far: one
    successful [Send] per envelope. *)
Definition all_sent_ok (p : Publisher) : list StreamCall :=
  map (fun req => Send req None) (sent p).

(** Shape of the stream calls, by where [run] stands: every call before an
    error succeeded, the half-close comes last, and [run] returns without a
    latched error only after a successful half-close and the end of the ack
    receiver. *)
Definition CallsInv (p : Publisher) : Prop :=
  match run_pc p with
  | AtAwaitAcks => calls p = all_sent_ok p ++ [CloseSend None]
  | RunReturned =>
      is_Some (err p)
      \/ (calls p = all_sent_ok p ++ [CloseSend None] /\ ack_pc p = AckReturned)
  | _ => calls p = all_sent_ok p
  end.

(** Once the final envelope went out, the channel history is: the events
    sent, the sentinel, and what is still in the channel. *)
Definition FinSentInv (p : Publisher) : Prop :=
  run_pc p = AtCloseSend \/ (exists r, CloseSend r ∈ calls p) ->
  exists es,
    enqueued p = map Some es ++ None :: events p
    /\ map Event (sent p) = map BazelEvent es ++ [ComponentStreamFinished_FINISHED].

(** What a nil result of [Wait] stands for. *)
Definition WaitNilInv (p : Publisher) : Prop :=
  wait_pc p = WaitReturned None ->
  run_pc p = RunReturned /\ err p = None /\ ack_pc p = AckReturned
  /\ calls p = all_sent_ok p ++ [CloseSend None].

(** The three channels within their capacities. *)
Record ChanInv (p : Publisher) : Prop := {
  ch_events : (length (events p) <= events_capacity)%nat;
  ch_done : (done p <= 1)%nat;
  ch_done_pc : run_pc p <> RunReturned -> done p = 0%nat;
  ch_recv : (doneReceiving p <= 1)%nat;
  ch_recv_pc : ack_pc p <> AckReturned -> doneReceiving p = 0%nat
}.

(** The three invariants of delivery together. *)
Record Delivery_inv (p : Publisher) : Prop := {
  d_calls : CallsInv p;
  d_fin : FinSentInv p;
  d_wait : WaitNilInv p
}.

(** 256 events published before [run] has dialled. *)
Definition flood_schedule (e : BuildEvent) : list Label :=
  replicate 256 (DoPublish e) ++ [DoRun reply_fail].

(** No call is made on the stream before it is open. *)
Definition PreInv (p : Publisher) : Prop :=
  run_pc p = AtDial \/ run_pc p = AtOpenStream -> calls p = [].

(** *** The runner: the opening of a stream and the command loop *)

(** The test of [RunAllActions] on an action. *)
Definition triggered (flags : Flags) (action : Action) : bool :=
  matchesAnyTrigger action (triggerEvent flags) (triggerBranch flags).

(** [ar.log.Buffer.Len()] *)
Definition buffered (w : World) : Z := Z.of_nat (Buffer_Len (log_Buffer (w_log w))).

Section OpeningProperties.

Variable env : Env.
Variable flags : Flags.

(** The text of the four lines [Run] logs first. *)
Definition Run_header (action : Action) (sid : StreamId) : string :=
  (("Action:          " +:+ Name action) +:+ nl)
  +:+ (("Triggered by:    " +:+ triggerEvent flags +:+ " to branch "
        +:+ strconv_Quote env (triggerBranch flags)) +:+ nl)
  +:+ (("Invocation ID:   " +:+ InvocationId sid) +:+ nl)
  +:+ (("Invocation URL:  " +:+ invocationURL flags (InvocationId sid)) +:+ nl).

(** The first three events of an action's stream. *)
Definition opening_events (username hostname : string) (action : Action) (sid : StreamId)
  : list (StreamId * option BuildEvent) :=
  [(sid, Some {| Id := Id_Started;
                 Children := [Id_Progress 0; Id_WorkspaceStatus; Id_BuildFinished];
                 Payload_of := Payload_Started (InvocationId sid) (time_now_millis env);
                 LastMessage := false |});
   (sid, Some {| Id := Id_Progress 0;
                 Children := [Id_Progress 1];
                 Payload_of := Payload_Progress (Run_header action sid);
                 LastMessage := false |});
   (sid, Some (workspaceStatusEvent flags username hostname))].

(** From call number [k] on, every command tokenises and its child
    succeeds. *)
Fixpoint all_succeed (cmds : list string) (k : nat) : Prop :=
  match cmds with
  | [] => True
  | cmd :: rest =>
      exists args,
        bazelArgs (shlex_Split env) cmd = Returned (args, None)
        /\ cmd_result (cmd_Run env k args) = None
        /\ all_succeed rest (S k)
  end.

End OpeningProperties.

(** Scenario S3 when [bazelisk] cannot be started: [cmd.Run] returns an
    error that is no [*exec.ExitError]. *)
Definition S3_env_not_started : Env :=
  {| os_Hostname := os_Hostname S3_env;
     user_Current := user_Current S3_env;
     os_Getenv := os_Getenv S3_env;
     url_with_userinfo := url_with_userinfo S3_env;
     time_now_millis := time_now_millis S3_env;
     elapsed_text := elapsed_text S3_env;
     strconv_Quote := strconv_Quote S3_env;
     uuid_NewRandom := uuid_NewRandom S3_env;
     shlex_Split := shlex_Split S3_env;
     cmd_Run := fun _ _ =>
       {| cmd_events := [];
          cmd_result :=
            Some (ErrOther "exec: bazelisk: executable file not found in $PATH") |};
     os_Mkdir := None;
     os_Chdir := None;
     git_Run := git_Run S3_env;
     workflowconf_NewConfig := workflowconf_NewConfig S3_env;
     latched := latched S3_env;
     Wait_result := Wait_result S3_env |}.

(** An action whose single command is blank. *)
Definition blank_command_action : Action :=
  {| Name := "blank";
     Action_Triggers := Action_Triggers S3_action;
     BazelCommands := [" "] |}.

(** An item put on a channel that is not a Progress event with an empty
    text. *)
Definition progress_nonempty (item : StreamId * option BuildEvent) : Prop :=
  match snd item with
  | Some {| Payload_of := Payload_Progress out |} => out <> ""
  | _ => True
  end.

(** A computation that keeps the log's buffer well formed and publishes no
    empty Progress event. *)
Definition no_empty_progress {A : Type} (c : M A) : Prop :=
  forall w, LogState_wf (w_log w) ->
    LogState_wf (w_log (snd (c w)))
    /\ exists more,
         w_events (snd (c w)) = w_events w ++ more /\ Forall progress_nonempty more.

(** *** The older copy of the runner *)

(** The texts of the Progress events among events put on a channel, in
    order, as bytes. *)
Definition progress_bytes (evs : list (StreamId * option BuildEvent)) : list byte :=
  flat_map
    (fun item =>
       match snd item with
       | Some {| Payload_of := Payload_Progress out |} => String.list_byte_of_string out
       | _ => []
       end) evs.

(** The names of the flags an iteration finds unset, in its order. *)
Definition unset_flags (entries : list (string * string)) : list string :=
  map fst (List.filter (fun entry => String.eqb (snd entry) "") entries).

(** The only ways the process ends besides a return: the listed codes. *)
Definition exits_with (codes : list Z) {A : Type} (c : M A) : Prop :=
  forall w code, fst (c w) = Exited code -> In code codes.

(** A step of the runner accounts for the log: the bytes held before,
    with those written since, are those of the Progress events published
    since, with those still held. *)
Definition log_accounted (w w' : World) : Prop :=
  LogState_wf (w_log w) ->
  LogState_wf (w_log w')
  /\ exists written more,
       log_stderr (w_log w') = log_stderr (w_log w) ++ written
       /\ w_events w' = w_events w ++ more
       /\ pending (w_log w) ++ written = progress_bytes more ++ pending (w_log w').

Definition accounts {A : Type} (c : M A) : Prop :=
  forall w, log_accounted w (snd (c w)).

(** All six flags are set. *)
Definition flags_set (flags : Flags) : Prop :=
  repoURL flags <> "" /\ commitSHA flags <> "" /\ triggerBranch flags <> ""
  /\ triggerEvent flags <> "" /\ besBackend flags <> "" /\ besResultsURL flags <> "".

(** ** The printed command line *)

(** The text [printCommandLine] builds after the prompt. *)
Definition command_line (bazelArgs : list string) : string :=
  fold_left (fun acc arg => acc +:+ " " +:+ toShellToken arg) bazelArgs "bazelisk".

(** The format [printCommandLine] hands to [Printf]: the prompt, then
    [command_line]. *)
Definition command_line_format (username hostname : string) (bazelArgs : list string)
  : string :=
  nl +:+ aurora_Cyan (username +:+ "@" +:+ hostname)
  +:+ (if String.eqb username "root" then "#" else "$")
  +:+ " " +:+ command_line bazelArgs.

(** How a POSIX shell splits a command line into words, for the
    characters [toShellToken] can produce: blanks separate words; between
    single quotes every character stands for itself; between double quotes
    every character but the dollar sign, the backquote and the backslash
    stands for itself; outside quotes the characters of
    [A-Za-z0-9_@%+=:,./-] stand for themselves.  Anything else, and an
    unterminated quote, is outside this model ([None]).  [cur] is the word
    being read, if one has begun. *)
Inductive QuoteMode : Type := Bare | InSingle | InDouble.

Definition push_char (cur : option string) (c : ascii) : option string :=
  Some (default "" cur +:+ String c EmptyString).

Fixpoint sh_split (mode : QuoteMode) (cur : option string) (s : string)
  : option (list string) :=
  match s with
  | EmptyString =>
      match mode with
      | Bare => Some (match cur with Some w => [w] | None => [] end)
      | _ => None
      end
  | String c rest =>
      match mode with
      | Bare =>
          if Ascii.eqb c " "%char then
            match cur with
            | Some w => cons w <$> sh_split Bare None rest
            | None => sh_split Bare None rest
            end
          else if Ascii.eqb c "039"%char then sh_split InSingle (Some (default "" cur)) rest
          else if Ascii.eqb c "034"%char then sh_split InDouble (Some (default "" cur)) rest
          else if shell_safe_char c then sh_split Bare (push_char cur c) rest
          else None
      | InSingle =>
          if Ascii.eqb c "039"%char then sh_split Bare cur rest
          else sh_split InSingle (push_char cur c) rest
      | InDouble =>
          if Ascii.eqb c "034"%char then sh_split Bare cur rest
          else if ascii_in c "$`\" then None
          else sh_split InDouble (push_char cur c) rest
      end
  end.

(** ** Properties: strings *)

Lemma append_assoc (a b c : string) : (a +:+ b) +:+ c = a +:+ (b +:+ c).
Proof. induction a as [|x a IH]; simpl; [reflexivity | now rewrite IH]. Qed.

Lemma append_nil_r (a : string) : a +:+ "" = a.
Proof. induction a as [|x a IH]; simpl; [reflexivity | now rewrite IH]. Qed.

Lemma length_append (a b : string) :
  String.length (a +:+ b) = (String.length a + String.length b)%nat.
Proof. induction a as [|x a IH]; simpl; [reflexivity | now rewrite IH]. Qed.

Lemma substring_all (s : string) : String.substring 0 (String.length s) s = s.
Proof. induction s as [|x s IH]; simpl; [reflexivity | now rewrite IH]. Qed.

Lemma substring_prefix (a b : string) :
  String.substring 0 (String.length a) (a +:+ b) = a.
Proof.
  induction a as [|x a IH]; simpl.
  - destruct b; reflexivity.
  - now rewrite IH.
Qed.

Lemma substring_suffix (a b : string) :
  String.substring (String.length a) (String.length b) (a +:+ b) = b.
Proof. induction a as [|x a IH]; simpl; [apply substring_all | exact IH]. Qed.

Lemma HasSuffix_slash_cons (c : ascii) (s : string) :
  s <> EmptyString ->
  strings_HasSuffix (String c s) "/" = strings_HasSuffix s "/".
Proof.
  intros Hs. destruct s as [|d s]; [congruence|].
  unfold strings_HasSuffix. simpl. rewrite !Nat.sub_0_r. reflexivity.
Qed.

Lemma HasSuffix_slash_iff (s : string) :
  strings_HasSuffix s "/" = true <-> exists base, s = base +:+ "/".
Proof.
  induction s as [|c s IH].
  - split; [discriminate|]. intros [[|x base] H]; simpl in H; discriminate.
  - destruct s as [|d s].
    + unfold strings_HasSuffix; simpl. split.
      * intros H. exists EmptyString. simpl.
        destruct (Ascii.eqb_spec c "/"%char) as [->|]; [reflexivity | discriminate].
      * intros [[|x [|y base]] H]; simpl in H; inversion H; subst; reflexivity.
    + rewrite HasSuffix_slash_cons by discriminate. rewrite IH. split.
      * intros [base ->]. exists (String c base). reflexivity.
      * intros [[|x base] H]; simpl in H; [discriminate|].
        injection H as _ H. exists base. exact H.
Qed.

(** ** Properties: trigger matching *)

Lemma matchesAnyBranch_In (branches : list string) (branch : string) :
  matchesAnyBranch branches branch = true <-> In branch branches.
Proof.
  induction branches as [|b rest IH]; simpl.
  - split; [discriminate | tauto].
  - destruct (String.eqb_spec b branch) as [->|Hne].
    + split; auto.
    + rewrite IH. split; [auto | intros [H|H]; [congruence | exact H]].
Qed.

(** The nil guard of the older copy changes nothing. *)
Lemma ActionRunner_matchesAnyTrigger_same (action : Action) (event branch : string) :
  ActionRunner.matchesAnyTrigger action event branch = matchesAnyTrigger action event branch.
Proof.
  assert (Hb : forall bs, ActionRunner.matchesAnyBranch bs branch = matchesAnyBranch bs branch).
  { assert (Hloop : forall l,
              (fix loop (bs : list string) : bool :=
                 match bs with
                 | [] => false
                 | b :: rest => if String.eqb b branch then true else loop rest
                 end) l = matchesAnyBranch l branch).
    { induction l as [|b l IH]; [reflexivity|].
      simpl. destruct (String.eqb b branch); [reflexivity | exact IH]. }
    intros bs. unfold ActionRunner.matchesAnyBranch.
    destruct bs as [|b0 bs0]; [reflexivity | exact (Hloop (b0 :: bs0))]. }
  unfold ActionRunner.matchesAnyTrigger, matchesAnyTrigger.
  destruct (Action_Triggers action) as [t|]; [|reflexivity].
  destruct (Push t), (PullRequest t); now rewrite ?Hb.
Qed.

(** C5.  [matchesAnyTrigger] is false for an action without triggers; for
    the event "push" with a push trigger present it is true exactly when the
    branch is in that trigger's branches; likewise for "pull_request"; in
    every other case, and so for every other event name, it is false. *)
Theorem matchesAnyTrigger_contract (action : Action) (event branch : string) :
  (Action_Triggers action = None -> matchesAnyTrigger action event branch = false)
  /\ (forall triggers pushCfg,
        Action_Triggers action = Some triggers ->
        event = "push" -> Push triggers = Some pushCfg ->
        (matchesAnyTrigger action event branch = true
         <-> In branch (Push_Branches pushCfg)))
  /\ (forall triggers prCfg,
        Action_Triggers action = Some triggers ->
        event = "pull_request" -> PullRequest triggers = Some prCfg ->
        (matchesAnyTrigger action event branch = true
         <-> In branch (PullRequest_Branches prCfg)))
  /\ (forall triggers,
        Action_Triggers action = Some triggers ->
        ~ (event = "push" /\ is_Some (Push triggers)) ->
        ~ (event = "pull_request" /\ is_Some (PullRequest triggers)) ->
        matchesAnyTrigger action event branch = false)
  /\ (event <> "push" -> event <> "pull_request" ->
      matchesAnyTrigger action event branch = false).
Proof.
  unfold matchesAnyTrigger, pushEventName, pullRequestEventName.
  split; [|split; [|split; [|split]]].
  - intros ->. reflexivity.
  - intros triggers pushCfg -> -> ->. simpl. apply matchesAnyBranch_In.
  - intros triggers prCfg -> -> ->.
    destruct (Push triggers); simpl; apply matchesAnyBranch_In.
  - intros triggers -> Hpush Hpr.
    destruct (Push triggers) as [p|] eqn:Ep;
      destruct (PullRequest triggers) as [q|] eqn:Eq;
      repeat match goal with
             | |- context [String.eqb event ?s] =>
                 destruct (String.eqb_spec event s)
             end;
      try reflexivity;
      try (exfalso; apply Hpush; split; [assumption | eexists; reflexivity]);
      try (exfalso; apply Hpr; split; [assumption | eexists; reflexivity]).
  - intros Hpush Hpr.
    destruct (Action_Triggers action) as [t|]; [|reflexivity].
    destruct (String.eqb_spec event "push"); [congruence|].
    destruct (String.eqb_spec event "pull_request"); [congruence|].
    destruct (Push t), (PullRequest t); reflexivity.
Qed.

Lemma matchesAnyTrigger_contract_witness :
  matchesAnyTrigger
    {| Name := "build";
       Action_Triggers :=
         Some {| Push := Some {| Push_Branches := ["main"] |}; PullRequest := None |};
       BazelCommands := ["bazel version"] |} "push" "main" = true
  /\ matchesAnyTrigger
       {| Name := "build"; Action_Triggers := None; BazelCommands := [] |}
       "push" "main" = false.
Proof.
  split.
  - apply (proj1 (proj2 (matchesAnyTrigger_contract
                           {| Name := "build";
                              Action_Triggers :=
                                Some {| Push := Some {| Push_Branches := ["main"] |};
                                        PullRequest := None |};
                              BazelCommands := ["bazel version"] |} "push" "main"))
             {| Push := Some {| Push_Branches := ["main"] |}; PullRequest := None |}
             {| Push_Branches := ["main"] |} eq_refl eq_refl eq_refl).
    simpl. left. reflexivity.
  - apply (proj1 (matchesAnyTrigger_contract
                    {| Name := "build"; Action_Triggers := None; BazelCommands := [] |}
                    "push" "main")).
    reflexivity.
Defined.

(** ** Properties: invocation URLs *)


(** ** Properties: shell quoting *)

Lemma HasPrefix_squote (c : ascii) (r : string) :
  strings_HasPrefix (String c r) squote = Ascii.eqb c "039"%char.
Proof.
  unfold strings_HasPrefix, squote.
  change (String.prefix (String "039"%char EmptyString) (String c r))
    with (if ascii_dec "039"%char c then String.prefix EmptyString r else false).
  destruct (ascii_dec "039"%char c) as [<-|Hne].
  - destruct r; reflexivity.
  - symmetry. apply Ascii.eqb_neq. congruence.
Qed.

Lemma Index_squote_cons (c : ascii) (r : string) :
  strings_Index (String c r) squote =
  if Ascii.eqb c "039"%char then Some 0%nat else S <$> strings_Index r squote.
Proof.
  change (strings_Index (String c r) squote)
    with (if strings_HasPrefix (String c r) squote then Some 0%nat
          else S <$> strings_Index r squote).
  now rewrite HasPrefix_squote.
Qed.

Lemma Index_squote_None (s : string) :
  strings_Index s squote = None -> escape_quotes s = s.
Proof.
  induction s as [|c r IH]; [reflexivity|].
  rewrite Index_squote_cons. simpl.
  destruct (Ascii.eqb c "039"%char); [discriminate|].
  destruct (strings_Index r squote); [discriminate|].
  intros _. simpl. now rewrite IH.
Qed.

Lemma Index_squote_Some (s : string) (j : nat) :
  strings_Index s squote = Some j ->
  exists pre post,
    s = pre +:+ squote +:+ post /\ String.length pre = j /\ escape_quotes pre = pre.
Proof.
  revert j. induction s as [|c r IH]; intros j; [discriminate|].
  rewrite Index_squote_cons.
  destruct (Ascii.eqb_spec c "039"%char) as [->|Hne].
  - intros [= <-]. exists EmptyString, r. repeat split.
  - destruct (strings_Index r squote) as [k|] eqn:Ek; [|discriminate].
    intros [= <-]. destruct (IH k eq_refl) as (pre & post & -> & Hlen & Hesc).
    exists (String c pre), post. simpl. repeat split.
    + now rewrite Hlen.
    + apply Ascii.eqb_neq in Hne. rewrite Hne. simpl. now rewrite Hesc.
Qed.

Lemma escape_quotes_app (a b : string) :
  escape_quotes (a +:+ b) = escape_quotes a +:+ escape_quotes b.
Proof.
  induction a as [|c a IH]; [reflexivity|].
  simpl. now rewrite IH, append_assoc.
Qed.

(** With enough rounds the library's replacement loop is the
    character-wise escape. *)
Lemma substring_after (a b : string) :
  String.substring (String.length a) (String.length (a +:+ b) - String.length a)
    (a +:+ b) = b.
Proof.
  rewrite length_append, Nat.add_comm, Nat.add_sub. apply substring_suffix.
Qed.

Lemma replace_rounds_escape (n : nat) (s : string) :
  (String.length s <= n)%nat ->
  replace_rounds n s squote squote_escape = escape_quotes s.
Proof.
  revert s. induction n as [|n IH]; intros s Hlen.
  - destruct s; [reflexivity | simpl in Hlen; lia].
  - cbn [replace_rounds]. destruct (strings_Index s squote) as [j|] eqn:Ej.
    + destruct (Index_squote_Some s j Ej) as (pre & post & -> & Hj & Hesc).
      subst j. clear Ej. rewrite substring_prefix.
      rewrite <- (append_assoc pre squote post).
      rewrite <- (length_append pre squote), substring_after.
      rewrite IH.
      * rewrite append_assoc, !escape_quotes_app, Hesc. reflexivity.
      * rewrite !length_append in Hlen. simpl in Hlen. lia.
    + symmetry. now apply Index_squote_None.
Qed.

Lemma ReplaceAll_squote (s : string) :
  strings_ReplaceAll s squote squote_escape = escape_quotes s.
Proof. apply replace_rounds_escape. lia. Qed.

Lemma MatchString_all_chars (s : string) :
  shellCharsRequiringQuote_MatchString s = negb (all_chars shell_safe_char s).
Proof.
  induction s as [|c r IH]; [reflexivity|].
  simpl. rewrite IH. unfold char_requires_quote, shell_safe_char.
  now rewrite negb_andb.
Qed.

(** C6, as the code has it.  A string made only of characters of
    [A-Za-z0-9_@%+=:,./-] (the underscore included, as [\w] has it) is
    returned unchanged; any other string is returned between single quotes,
    each single quote inside it replaced by the five-byte escape. *)
Theorem toShellToken_quotes (s : string) :
  (all_chars shell_safe_char s = true -> toShellToken s = s)
  /\ (all_chars shell_safe_char s = false -> toShellToken s = single_quoted s).
Proof.
  unfold toShellToken, single_quoted.
  rewrite MatchString_all_chars, ReplaceAll_squote.
  split; intros ->; reflexivity.
Qed.

Lemma toShellToken_quotes_witness :
  toShellToken "//foo:bar_baz" = "//foo:bar_baz"
  /\ toShellToken "it's" = single_quoted "it's".
Proof.
  split.
  - apply (proj1 (toShellToken_quotes "//foo:bar_baz")). reflexivity.
  - apply (proj2 (toShellToken_quotes "it's")). reflexivity.
Defined.

(** C6 as stated fails on the underscore: it is outside the listed set
    [A-Za-z0-9@%+=:,./-], yet a string containing it is returned unquoted. *)
Lemma toShellToken_underscore_unquoted :
  all_chars listed_safe_char "a_b" = false
  /\ toShellToken "a_b" = "a_b"
  /\ toShellToken "a_b" <> single_quoted "a_b".
Proof. repeat split. discriminate. Qed.

(** ** Properties: tokenising a bazel command *)

(** C10.  When the tokeniser returns at least one token and no error, the
    access to the first token is in bounds and [bazelArgs] returns the
    tokens, without a leading "bazel" or "bazelisk", and no error.  When it
    returns no token and no error, nothing guards the access and the call
    panics. *)
Theorem bazelArgs_first_token
  (shlex_Split : string -> list string * option error) (cmd : string) :
  (forall t0 rest,
      shlex_Split cmd = (t0 :: rest, None) ->
      bazelArgs shlex_Split cmd =
      Returned (if String.eqb t0 "bazel" || String.eqb t0 "bazelisk"
                then rest else t0 :: rest, None))
  /\ (shlex_Split cmd = ([], None) ->
      exists msg, bazelArgs shlex_Split cmd = Panicked msg).
Proof.
  unfold bazelArgs. split.
  - intros t0 rest ->.
    destruct (String.eqb t0 "bazel" || String.eqb t0 "bazelisk"); reflexivity.
  - intros ->. eexists. reflexivity.
Qed.

Lemma bazelArgs_first_token_witness :
  bazelArgs blank_Split "bazel build //:all" = Returned (["build"; "//:all"], None)
  /\ (exists msg, bazelArgs blank_Split "   " = Panicked msg).
Proof.
  split.
  - exact (proj1 (bazelArgs_first_token blank_Split "bazel build //:all")
             "bazel" ["build"; "//:all"] eq_refl).
  - exact (proj2 (bazelArgs_first_token blank_Split "   ") eq_refl).
Defined.

(** ** Properties: the build-event publisher *)

Lemma wrap64_small (z : Z) : - 2 ^ 63 <= z < 2 ^ 63 -> wrap64 z = z.
Proof. intros H. unfold wrap64. rewrite Z.mod_small; lia. Qed.

Lemma wrap64_succ (z : Z) : wrap64 (wrap64 z + 1) = wrap64 (z + 1).
Proof.
  unfold wrap64.
  replace ((z + 2 ^ 63) mod 2 ^ 64 - 2 ^ 63 + 1 + 2 ^ 63)
    with ((z + 2 ^ 63) mod 2 ^ 64 + 1) by lia.
  rewrite Zplus_mod_idemp_l. f_equal. f_equal. lia.
Qed.

Lemma sent_log_call (c : StreamCall) (p : Publisher) :
  sent (log_call c p) =
  sent p ++ match c with Send req _ => [req] | CloseSend _ => [] end.
Proof. unfold sent, log_call; simpl. rewrite omap_app. destruct c; reflexivity. Qed.


Lemma CtlInv_init (sid : StreamId) : CtlInv (newBuildEventPublisher sid).
Proof.
  split; simpl; try done; try lia.
  intros [H|[r H]]; [lia | discriminate].
Qed.

Lemma CtlInv_step (l : Label) (p p' : Publisher) :
  CtlInv p -> step l p = Some p' -> CtlInv p'.
Proof.
  intros [Hpre Hprea Hloop Hatc Htok Haw Hret Hdone] Hstep.
  destruct l as [e| | |r|r]; simpl in Hstep.
  - unfold Publish in Hstep. repeat case_match; simplify_eq/=; split; simpl;
      ctl_finish Hpre Hprea Hloop Hatc Htok.
  - unfold Wait_enqueue in Hstep. repeat case_match; simplify_eq/=; split; simpl;
      ctl_finish Hpre Hprea Hloop Hatc Htok.
  - unfold Wait_receive in Hstep. repeat case_match; simplify_eq/=; split; simpl;
      ctl_finish Hpre Hprea Hloop Hatc Htok.
  - unfold run_step in Hstep.
    repeat case_match; simplify_eq/=; split; simpl;
      ctl_finish Hpre Hprea Hloop Hatc Htok.
  - unfold ack_step in Hstep. repeat case_match; simplify_eq/=; split; simpl;
      ctl_finish Hpre Hprea Hloop Hatc Htok.
Qed.

Lemma map_length_eq {A B C : Type} (f : A -> C) (g : B -> C) (l : list A) (k : list B) :
  map f l = map g k -> length l = length k.
Proof. intros H. apply (f_equal length) in H. now rewrite !length_map in H. Qed.

Lemma QInv_init (sid : StreamId) : QInv (newBuildEventPublisher sid).
Proof.
  split.
  - exists [], []. repeat split; simpl; auto; discriminate.
  - intros i req. unfold sent. simpl. rewrite lookup_nil. discriminate.
Qed.

Lemma to_wire_nil (q : list (option BuildEvent)) :
  [] = map to_wire q -> q = [].
Proof. destruct q; [reflexivity | discriminate]. Qed.

Lemma Forall_is_Some_no_None (q : list (option BuildEvent)) (i : nat) :
  Forall is_Some q -> q !! i = Some None -> False.
Proof.
  intros Hall Hi. rewrite Forall_lookup in Hall.
  destruct (Hall i None Hi) as [x Hx]. discriminate.
Qed.

(** Sending the dequeued item [x] with sequence number [s]. *)
Lemma QInv_send (p : Publisher) (x : option BuildEvent) (rest : list (option BuildEvent))
      (s t : Z) (res : option error) (pc' : RunPC) :
  QInv p -> run_pc p = AtLoop s -> events p = x :: rest ->
  (forall s', pc' = AtLoop s' -> is_Some x /\ s' = wrap64 (s + 1)) ->
  let req := {| OBE_StreamId := streamID p; SequenceNumber := s; EventTime := t;
                Event := to_wire x |} in
  forall p',
    streamID p' = streamID p -> events p' = rest -> enqueued p' = enqueued p ->
    calls p' = calls p ++ [Send req res] -> run_pc p' = pc' ->
    QInv p'.
Proof.
  intros [(sq & dr & Henq & Hmap & Hlast & Hdrop & Hl) Hseq] Hpc Hev Hpc' req p'
         Hsid Hev' Henq' Hcalls Hrpc.
  destruct (Hl s Hpc) as (-> & Hall & Hs).
  assert (Hlen : length (sent p) = length sq) by (eapply map_length_eq; eauto).
  assert (Hsent : sent p' = sent p ++ [req]).
  { unfold sent. rewrite Hcalls, omap_app. reflexivity. }
  split.
  - exists (sq ++ [x]), []. unfold queue_split.
    rewrite Henq', Henq, Hev, Hev', Hsent, !map_app, Hmap, Hrpc. simpl.
    rewrite <- app_assoc. split; [reflexivity|]. split; [reflexivity|].
    split; [|split; [now left|]].
    + intros i Hi. rewrite length_app. simpl.
      destruct (decide (i < length sq)%nat) as [Hlt|Hge].
      * rewrite lookup_app_l in Hi by assumption.
        exfalso. eapply Forall_is_Some_no_None; eauto.
      * apply lookup_lt_Some in Hi. rewrite length_app in Hi. simpl in Hi. lia.
    + intros s' Hs'. destruct (Hpc' s' Hs') as [Hx ->]. split; [reflexivity|]. split.
      * rewrite Forall_app. split; auto.
      * rewrite Hs, wrap64_succ, length_app. simpl. f_equal. lia.
  - intros i r. rewrite Hsent, Hsid. intros Hi.
    destruct (decide (i < length (sent p))%nat) as [Hlt|Hge].
    + rewrite lookup_app_l in Hi by assumption. auto.
    + assert (i = length (sent p)).
      { apply lookup_lt_Some in Hi. rewrite length_app in Hi. simpl in Hi. lia. }
      subst i. rewrite list_lookup_middle in Hi by reflexivity.
      injection Hi as <-. simpl. split; [|reflexivity].
      rewrite Hs, Hlen. reflexivity.
Qed.

Lemma QInv_frame (p p' : Publisher) :
  QInv p ->
  streamID p' = streamID p -> enqueued p' = enqueued p -> events p' = events p ->
  sent p' = sent p ->
  run_pc p' = run_pc p \/ (run_pc p <> RunReturned /\ forall s, run_pc p' <> AtLoop s) ->
  QInv p'.
Proof.
  intros [(sq & dr & Henq & Hmap & Hlast & Hdrop & Hl) Hseq] Hsid Henq' Hev Hsent Hpc.
  split.
  - exists sq, dr. unfold queue_split. rewrite Henq', Hev, Hsent.
    split; [assumption|]. split; [assumption|]. split; [assumption|]. split.
    + destruct Hdrop as [->|[Hr Hall]]; [now left|].
      right. split; [|assumption]. destruct Hpc as [->|[Hne _]]; [assumption | contradiction].
    + intros s Hs. destruct Hpc as [Heq|[_ Hno]]; [|now destruct (Hno s)].
      apply Hl. now rewrite <- Heq.
  - intros i req. rewrite Hsent, Hsid. apply Hseq.
Qed.

Lemma QInv_enqueue (x : option BuildEvent) (p p' : Publisher) :
  QInv p ->
  streamID p' = streamID p -> enqueued p' = enqueued p ++ [x] ->
  events p' = events p ++ [x] -> sent p' = sent p -> run_pc p' = run_pc p ->
  QInv p'.
Proof.
  intros [(sq & dr & Henq & Hmap & Hlast & Hdrop & Hl) Hseq] Hsid Henq' Hev Hsent Hpc.
  split.
  - exists sq, dr. unfold queue_split. rewrite Henq', Hev, Hsent, Hpc, Henq.
    rewrite <- !app_assoc. auto.
  - intros i req. rewrite Hsent, Hsid. apply Hseq.
Qed.

Lemma QInv_open (p p' : Publisher) :
  QInv p -> run_pc p <> RunReturned -> calls p = [] ->
  streamID p' = streamID p -> enqueued p' = enqueued p -> events p' = events p ->
  calls p' = calls p -> run_pc p' = AtLoop 1 ->
  QInv p'.
Proof.
  intros [(sq & dr & Henq & Hmap & Hlast & Hdrop & Hl) Hseq] Hnr Hc Hsid Henq' Hev Hcalls Hpc.
  assert (Hsent : sent p' = sent p) by (unfold sent; now rewrite Hcalls).
  assert (Hsq : sq = []).
  { apply to_wire_nil. rewrite <- Hmap. unfold sent. now rewrite Hc. }
  subst sq. destruct Hdrop as [->|[Hr _]]; [|contradiction].
  split.
  - exists [], []. unfold queue_split. rewrite Henq', Hev, Hsent, Hpc.
    split; [assumption|]. split; [assumption|]. split; [assumption|].
    split; [now left|]. intros s [= <-]. split; [reflexivity|].
    split; [constructor | reflexivity].
  - intros i req. rewrite Hsent, Hsid. apply Hseq.
Qed.

Lemma QInv_marshal_fail (p p' : Publisher) (s : Z) (e : BuildEvent)
      (rest : list (option BuildEvent)) :
  QInv p -> run_pc p = AtLoop s -> events p = Some e :: rest ->
  streamID p' = streamID p -> enqueued p' = enqueued p -> events p' = rest ->
  calls p' = calls p -> run_pc p' = RunReturned ->
  QInv p'.
Proof.
  intros [(sq & dr & Henq & Hmap & Hlast & Hdrop & Hl) Hseq] Hpc Hev Hsid Henq' Hev' Hcalls Hpc'.
  assert (Hsent : sent p' = sent p) by (unfold sent; now rewrite Hcalls).
  destruct (Hl s Hpc) as (-> & Hall & Hs).
  split.
  - exists sq, [Some e]. unfold queue_split. rewrite Henq', Hev', Hsent, Hpc', Henq, Hev.
    split; [reflexivity|]. split; [assumption|]. split; [assumption|]. split.
    + right. split; [reflexivity|]. rewrite Forall_app. split; [assumption|].
      constructor; [eexists; reflexivity | constructor].
    + discriminate.
  - intros i req. rewrite Hsent, Hsid. apply Hseq.
Qed.

Lemma QInv_step (l : Label) (p p' : Publisher) :
  CtlInv p -> QInv p -> step l p = Some p' -> QInv p'.
Proof.
  intros Hctl Hq Hstep.
  destruct l as [e| | |r|r]; simpl in Hstep.
  - unfold Publish in Hstep. repeat case_match; simplify_eq/=; [assumption|].
    eapply QInv_enqueue; eauto.
  - unfold Wait_enqueue in Hstep. repeat case_match; simplify_eq/=.
    eapply QInv_enqueue; eauto.
  - unfold Wait_receive in Hstep. repeat case_match; simplify_eq/=.
    eapply QInv_frame; eauto.
  - unfold run_step in Hstep.
    destruct (run_pc p) as [| |s| | |] eqn:Epc.
    + destruct (call_err r); simplify_eq/=;
        (eapply QInv_frame; [eassumption|reflexivity..|]);
        right; rewrite Epc; split; discriminate.
    + destruct (call_err r); simplify_eq/=.
      * eapply QInv_frame; [eassumption|reflexivity..|].
        right; rewrite Epc; split; discriminate.
      * eapply QInv_open; [eassumption| | |reflexivity..].
        -- rewrite Epc. discriminate.
        -- apply (ctl_pre p Hctl). auto.
    + destruct (events p) as [|[ev|] rest] eqn:Eev; [discriminate| |].
      * destruct (marshal_err r).
        -- simplify_eq/=. eapply QInv_marshal_fail; eauto.
        -- destruct (call_err r) eqn:Ece; simplify_eq/=.
           ++ eapply (QInv_send p (Some ev) rest s (now r) (Some e) RunReturned);
                eauto; try discriminate.
           ++ eapply (QInv_send p (Some ev) rest s (now r) None (AtLoop (wrap64 (s + 1))));
                eauto.
              intros s' [= <-]. split; [eexists; reflexivity | reflexivity].
      * destruct (call_err r) eqn:Ece; simplify_eq/=.
        -- eapply (QInv_send p None rest s (now r) (Some e) RunReturned);
             eauto; try discriminate.
        -- eapply (QInv_send p None rest s (now r) None AtCloseSend);
             eauto; try discriminate.
    + destruct (call_err r); simplify_eq/=;
        (eapply QInv_frame; [eassumption|reflexivity..| |]);
        try (unfold sent; simpl; rewrite omap_app; simpl; apply app_nil_r);
        right; rewrite Epc; split; discriminate.
    + destruct (doneReceiving p); simplify_eq/=.
      eapply QInv_frame; [eassumption|reflexivity..|].
      right; rewrite Epc; split; discriminate.
    + discriminate.
  - unfold ack_step in Hstep. repeat case_match; simplify_eq/=;
      try assumption; eapply QInv_frame; eauto.
Qed.

Lemma elem_of_Send_sent (p : Publisher) (req : OrderedBuildEvent) (res : option error) :
  Send req res ∈ calls p -> req ∈ sent p.
Proof.
  intros H. unfold sent. apply list_elem_of_omap.
  exists (Send req res). split; [assumption | reflexivity].
Qed.

Lemma no_finished_while_looping (p : Publisher) (s : Z) (req : OrderedBuildEvent)
      (res : option error) :
  QInv p -> run_pc p = AtLoop s -> Send req res ∈ calls p ->
  Event req <> ComponentStreamFinished_FINISHED.
Proof.
  intros [(sq & dr & Henq & Hmap & Hlast & Hdrop & Hl) _] Hpc Hin Hev.
  destruct (Hl s Hpc) as (_ & Hall & _).
  apply elem_of_Send_sent in Hin.
  assert (Hin' : Event req ∈ map to_wire sq).
  { rewrite <- Hmap. now apply list_elem_of_fmap_2. }
  apply list_elem_of_fmap in Hin' as (o & Ho & Hoin).
  rewrite Forall_forall in Hall. destruct (Hall o Hoin) as [e ->].
  simpl in Ho. congruence.
Qed.

Lemma FinInv_init (sid : StreamId) : FinInv (newBuildEventPublisher sid).
Proof. intros req H. simpl in H. set_solver. Qed.

Lemma FinInv_step (l : Label) (p p' : Publisher) :
  CtlInv p -> QInv p -> FinInv p -> step l p = Some p' -> FinInv p'.
Proof.
  intros Hctl Hq Hfin Hstep. unfold FinInv in *.
  destruct l as [e| | |r|r]; simpl in Hstep.
  - unfold Publish in Hstep. repeat case_match; simplify_eq/=; assumption.
  - unfold Wait_enqueue in Hstep. repeat case_match; simplify_eq/=; assumption.
  - unfold Wait_receive in Hstep. repeat case_match; simplify_eq/=; assumption.
  - unfold run_step in Hstep.
    destruct (run_pc p) as [| |s| | |] eqn:Epc.
    + pose proof (ctl_pre p Hctl (or_introl Epc)) as Hc.
      destruct (call_err r); simplify_eq/=; rewrite Hc; set_solver.
    + pose proof (ctl_pre p Hctl (or_intror Epc)) as Hc.
      destruct (call_err r); simplify_eq/=; rewrite Hc; set_solver.
    + assert (Hno : forall req res, Send req res ∈ calls p ->
                Event req <> ComponentStreamFinished_FINISHED).
      { intros. eapply no_finished_while_looping; eauto. }
      destruct (events p) as [|[ev|] rest] eqn:Eev; [discriminate| |].
      * destruct (marshal_err r); [|destruct (call_err r)]; simplify_eq/=;
          intros req Hin Hev; exfalso.
        -- eapply Hno; eauto.
        -- apply elem_of_app in Hin as [Hin|Hin]; [eapply Hno; eauto|].
           apply list_elem_of_singleton in Hin. discriminate.
        -- apply elem_of_app in Hin as [Hin|Hin]; [eapply Hno; eauto|].
           apply list_elem_of_singleton in Hin. injection Hin as ->. discriminate.
      * destruct (call_err r); simplify_eq/=; intros req Hin Hev.
        -- exfalso. apply elem_of_app in Hin as [Hin|Hin]; [eapply Hno; eauto|].
           apply list_elem_of_singleton in Hin. discriminate.
        -- now left.
    + destruct (call_err r); simplify_eq/=; intros req Hin Hev; right;
        eexists; apply elem_of_app; right; apply list_elem_of_singleton; reflexivity.
    + destruct (doneReceiving p); simplify_eq/=. intros req Hin Hev. right.
      exists None. apply (ctl_await p Hctl Epc).
    + discriminate.
  - unfold ack_step in Hstep. repeat case_match; simplify_eq/=; assumption.
Qed.

Lemma exec_invariant (ls : list Label) (p p' : Publisher) :
  Reachable_inv p -> exec ls p = Some p' -> Reachable_inv p'.
Proof.
  revert p. induction ls as [|l ls IH]; intros p Hinv Hexec; simpl in Hexec.
  - now injection Hexec as <-.
  - destruct (step l p) as [q|] eqn:Estep; [|discriminate].
    apply (IH q); [|assumption]. destruct Hinv as [Hc Hq Hf]. split.
    + eapply CtlInv_step; eauto.
    + eapply QInv_step; eauto.
    + eapply FinInv_step; eauto.
Qed.

Lemma reachable_invariant (sid : StreamId) (ls : list Label) (p : Publisher) :
  exec ls (newBuildEventPublisher sid) = Some p -> Reachable_inv p.
Proof.
  apply exec_invariant. split;
    [apply CtlInv_init | apply QInv_init | apply FinInv_init].
Qed.

Lemma wire_view_numbered (reqs : list OrderedBuildEvent) (k : Z) :
  (forall i req, reqs !! i = Some req -> SequenceNumber req = k + Z.of_nat i) ->
  map (fun req => (SequenceNumber req, Event req)) reqs = number_from k (map Event reqs).
Proof.
  revert k. induction reqs as [|req reqs IH]; intros k Hseq; [reflexivity|].
  simpl. rewrite (Hseq 0%nat req eq_refl), Z.add_0_r. f_equal.
  apply IH. intros i r Hi. rewrite (Hseq (S i) r Hi). lia.
Qed.

(** C1.  In every reachable state of a publisher whose channel received
    the [N] events [es] and then the sentinel of [Wait], once the publisher
    task has taken the sentinel off the channel, the envelopes handed to
    [stream.Send] are exactly the events of [es] in the order they were
    published, numbered 1 to [N], followed by one envelope numbered [N+1]
    carrying the finished marker, which is last.  ([N+1] is below [2^63],
    where the [int64] counter would wrap.) *)
Theorem wire_sequence_numbers (sid : StreamId) (ls : list Label) (p : Publisher)
        (es : list BuildEvent) (rest : list (option BuildEvent)) :
  exec ls (newBuildEventPublisher sid) = Some p ->
  enqueued p = map Some es ++ None :: rest ->
  (length (events p) + length es < length (enqueued p))%nat ->
  Z.of_nat (length es) + 1 < 2 ^ 63 ->
  wire_view p =
  number_from 1 (map BazelEvent es ++ [ComponentStreamFinished_FINISHED]).
Proof.
  intros Hexec Henq Hdeq Hbound.
  destruct (reachable_invariant sid ls p Hexec) as [_ [Hsplit Hseq] _].
  destruct Hsplit as (sq & dr & Hq & Hmap & Hlast & Hdrop & _).
  assert (Hlen : (length es < length (sq ++ dr))%nat).
  { rewrite Hq in Hdeq. rewrite !length_app in *. lia. }
  assert (Hsentinel : (sq ++ dr) !! length es = Some None).
  { rewrite <- (lookup_app_l _ (events p)) by assumption.
    rewrite <- app_assoc, <- Hq, Henq.
    rewrite <- (length_map Some es) at 1. apply list_lookup_middle. reflexivity. }
  assert (Hdr : dr = []).
  { destruct Hdrop as [->|[_ Hall]]; [reflexivity|].
    exfalso. eapply Forall_is_Some_no_None; eauto. }
  subst dr. rewrite app_nil_r in *. simpl in Hq.
  apply Hlast in Hsentinel.
  assert (Hsq : sq = map Some es ++ [None]).
  { rewrite Henq, (cons_middle None (map Some es) rest), app_assoc in Hq.
    symmetry in Hq. apply app_inj_1 in Hq as [Hsq _]; [assumption|].
    rewrite length_app, length_map. simpl. lia. }
  unfold wire_view. rewrite (wire_view_numbered (sent p) 1).
  - rewrite Hmap, Hsq, map_app, map_map. reflexivity.
  - intros i req Hi. destruct (Hseq i req Hi) as [-> _].
    assert (i < length (sent p))%nat by (eapply lookup_lt_Some; eauto).
    assert (length (sent p) = length sq) by (eapply map_length_eq; eauto).
    rewrite wrap64_small; lia.
Qed.




Lemma wire_sequence_numbers_witness :
  exists p, exec clean_schedule (newBuildEventPublisher demo_sid) = Some p
            /\ wire_view p =
               [(1, BazelEvent (demo_event 0)); (2, BazelEvent (demo_event 1));
                (3, ComponentStreamFinished_FINISHED)].
Proof.
  eexists. split; [vm_compute; reflexivity|].
  refine (wire_sequence_numbers demo_sid clean_schedule _
            [demo_event 0; demo_event 1] [] _ _ _ _).
  - vm_compute. reflexivity.
  - reflexivity.
  - simpl. lia.
  - reflexivity.
Defined.

Lemma exec_app (l1 l2 : list Label) (p : Publisher) :
  exec (l1 ++ l2) p = match exec l1 p with Some q => exec l2 q | None => None end.
Proof.
  revert p. induction l1 as [|l l1 IH]; intros p; simpl; [reflexivity|].
  destruct (step l p); [apply IH | reflexivity].
Qed.

Lemma exec_publish_rounds (es : list BuildEvent) (p : Publisher) (s : Z) :
  run_pc p = AtLoop s -> events p = [] -> err p = None ->
  exists p' s',
    exec (flat_map (fun e => [DoPublish e; DoRun reply_ok]) es) p = Some p'
    /\ run_pc p' = AtLoop s' /\ events p' = [] /\ err p' = None
    /\ wait_pc p' = wait_pc p
    /\ enqueued p' = enqueued p ++ map Some es.
Proof.
  revert p s. induction es as [|e es IH]; intros p s Hpc Hev Herr.
  - exists p, s. simpl. rewrite app_nil_r. repeat split; assumption.
  - cbn [flat_map app exec step]. unfold Publish. rewrite Herr, Hev. simpl.
    unfold run_step. simpl. rewrite Hpc, Hev. simpl.
    match goal with |- context [exec _ ?q] =>
      destruct (IH q (wrap64 (s + 1)) eq_refl eq_refl Herr)
        as (p' & s' & Hexec & Hpc' & Hev' & Herr' & Hw' & Henq') end.
    exists p', s'. split; [exact Hexec|]. repeat split; auto.
    rewrite Henq'. simpl. now rewrite <- app_assoc.
Qed.

(** For every list of events there is a run in which the publisher task
    takes them all, and the sentinel, off the channel. *)
Theorem publisher_can_complete (sid : StreamId) (es : list BuildEvent) :
  exists p,
    exec (publish_schedule es) (newBuildEventPublisher sid) = Some p
    /\ enqueued p = map Some es ++ [None]
    /\ events p = []
    /\ run_pc p = AtCloseSend.
Proof.
  unfold publish_schedule. rewrite exec_app. simpl.
  match goal with |- context [exec (_ ++ _) ?q] =>
    destruct (exec_publish_rounds es q 1 eq_refl eq_refl eq_refl)
      as (p' & s' & Hexec & Hpc & Hev & Herr & Hw & Henq) end.
  rewrite exec_app, Hexec. simpl.
  unfold Wait_enqueue. simpl in Hw. rewrite Hw, Hev. simpl.
  unfold run_step. simpl. rewrite Hpc, Hev. simpl.
  eexists. split; [reflexivity|]. simpl. rewrite Henq. auto.
Qed.

(** *** The older copy of [run] *)

(** There [run] returns from inside the loop right after the final send, so
    it never calls [CloseSend] and never waits on [doneReceiving]. *)
Theorem ActionRunner_run_never_half_closes (sid : StreamId) (ls : list Label)
      (p : Publisher) :
  ActionRunnerPublisher.exec ls (newBuildEventPublisher sid) = Some p ->
  (forall r, ~ In (CloseSend r) (calls p))
  /\ run_pc p <> AtCloseSend /\ run_pc p <> AtAwaitAcks.
Proof.
  assert (Hgen : forall ls q q',
             ((forall r, ~ In (CloseSend r) (calls q))
              /\ run_pc q <> AtCloseSend /\ run_pc q <> AtAwaitAcks) ->
             ActionRunnerPublisher.exec ls q = Some q' ->
             (forall r, ~ In (CloseSend r) (calls q'))
             /\ run_pc q' <> AtCloseSend /\ run_pc q' <> AtAwaitAcks).
  { clear. induction ls as [|l ls IH]; intros q q' Hq Hexec; simpl in Hexec.
    - now injection Hexec as <-.
    - destruct (ActionRunnerPublisher.step l q) as [q1|] eqn:Estep; [|discriminate].
      apply (IH q1 q'); [|assumption]. clear IH Hexec.
      destruct Hq as (Hc & H1 & H2).
      destruct l as [e| | |r|r]; simpl in Estep.
      + unfold Publish in Estep. repeat case_match; simplify_eq/=; auto.
      + unfold Wait_enqueue in Estep. repeat case_match; simplify_eq/=; auto.
      + unfold Wait_receive in Estep. repeat case_match; simplify_eq/=; auto.
      + unfold ActionRunnerPublisher.run_step in Estep.
        repeat case_match; simplify_eq/=; try congruence;
          (split; [|split; discriminate]); intros r0 Hin; try (eapply Hc; eauto; fail);
          apply in_app_or in Hin as [Hin|[Hin|[]]];
          first [discriminate Hin | eapply Hc; eauto].
      + unfold ack_step in Estep. repeat case_match; simplify_eq/=; auto. }
  intros Hexec. apply (Hgen ls (newBuildEventPublisher sid) p); [|assumption].
  simpl. split; [tauto|]. split; discriminate.
Qed.

Lemma ActionRunner_run_never_half_closes_witness :
  exists p,
    ActionRunnerPublisher.exec
      [DoRun reply_ok; DoRun reply_ok; DoWaitEnqueue; DoRun reply_ok; DoWaitReceive]
      (newBuildEventPublisher demo_sid) = Some p
    /\ ((forall r, ~ In (CloseSend r) (calls p))
        /\ run_pc p <> AtCloseSend /\ run_pc p <> AtAwaitAcks).
Proof.
  eexists. split; [vm_compute; reflexivity|].
  refine (ActionRunner_run_never_half_closes demo_sid
            [DoRun reply_ok; DoRun reply_ok; DoWaitEnqueue; DoRun reply_ok; DoWaitReceive]
            _ _).
  vm_compute. reflexivity.
Defined.

(** With the older copy a stream whose every send succeeded is reported
    done while the ack receiver is still receiving. *)
Lemma ActionRunner_done_without_acks :
  exists p req,
    ActionRunnerPublisher.exec
      [DoRun reply_ok; DoRun reply_ok; DoWaitEnqueue; DoRun reply_ok; DoWaitReceive]
      (newBuildEventPublisher demo_sid) = Some p
    /\ calls p = [Send req None]
    /\ Event req = ComponentStreamFinished_FINISHED
    /\ wait_pc p = WaitReturned None
    /\ ack_pc p = AckReceiving.
Proof. eexists. eexists. split; [vm_compute; reflexivity|]. repeat split. Qed.

(** ** Properties: the periodic progress flusher *)

(** C4 fails on the code.  [break] inside the [select] leaves the [select],
    not the [for]: after the stop signal has been received the goroutine is
    back at the [select], and each later timer makes it call
    [flushProgress] again. *)
Theorem flusher_flushes_after_stop :
  flusher_exec [CallStop; SelectStop] startBackgroundProgressFlush
  = Some {| stop := 0; flusher_pc := AtSelect; flush_calls := 0 |}
  /\ flusher_exec [CallStop; SelectStop; SelectTimer; SelectTimer]
       startBackgroundProgressFlush
     = Some {| stop := 0; flusher_pc := AtSelect; flush_calls := 2 |}.
Proof. split; reflexivity. Qed.

Lemma flusher_stays_at_select (ms : list FlusherMove) (g f : Flusher) :
  flusher_pc g = AtSelect -> flusher_exec ms g = Some f -> flusher_pc f = AtSelect.
Proof.
  revert g. induction ms as [|m ms IH]; intros g Hg Hexec; simpl in Hexec.
  - now injection Hexec as <-.
  - destruct (flusher_step m g) as [g'|] eqn:Estep; [|discriminate].
    apply (IH g'); [|assumption].
    destruct m; simpl in Estep; rewrite ?Hg in Estep;
      repeat case_match; simplify_eq/=; auto.
Qed.

(** The flusher goroutine never returns, whatever is sent on [stop]. *)
Theorem flusher_never_returns (ms : list FlusherMove) (f : Flusher) :
  flusher_exec ms startBackgroundProgressFlush = Some f -> flusher_pc f = AtSelect.
Proof. apply flusher_stays_at_select. reflexivity. Qed.

Lemma flusher_never_returns_witness :
  flusher_pc {| stop := 0; flusher_pc := AtSelect; flush_calls := 1 |} = AtSelect.
Proof.
  exact (flusher_never_returns [CallStop; SelectStop; SelectTimer] _ eq_refl).
Defined.

(** Once started, the timer case is always enabled and flushes once more. *)
Lemma flusher_timer_always_flushes (ms : list FlusherMove) (f : Flusher) :
  flusher_exec ms startBackgroundProgressFlush = Some f ->
  flusher_step SelectTimer f
  = Some {| stop := stop f; flusher_pc := AtSelect; flush_calls := S (flush_calls f) |}.
Proof.
  intros H. apply (flusher_stays_at_select ms startBackgroundProgressFlush) in H;
    [|reflexivity].
  unfold flusher_step. now rewrite H.
Qed.

(** ** Properties: the invocation log *)

Lemma list_inserts_take (m : nat) (p bytes : list byte) :
  (m + length p <= length bytes)%nat ->
  take (m + length p) (list_inserts m p bytes) = take m bytes ++ p.
Proof.
  intros Hlen.
  rewrite <- (take_drop m bytes) at 1.
  rewrite <- (take_drop (length p) (drop m bytes)).
  assert (Hm : length (take m bytes) = m) by (rewrite length_take; lia).
  assert (Hp : length (take (length p) (drop m bytes)) = length p).
  { rewrite length_take, length_drop. lia. }
  replace m with (length (take m bytes) + 0)%nat at 2 by lia.
  rewrite list_inserts_app_r, list_inserts_0_r by (now rewrite Hp).
  replace (m + length p)%nat with (length (take m bytes ++ p))
    by (rewrite length_app; lia).
  rewrite app_assoc. apply take_app_length.
Qed.

Lemma copy_at_fits (h : heap) (b : slice) (a m : nat) (p bytes : list byte) :
  arr b = Some a -> h !! a = Some bytes -> (m + length p <= len b)%nat ->
  copy_at h b m p = <[a := list_inserts m p bytes]> h.
Proof.
  intros Ha Hh Hm. unfold copy_at. rewrite Ha, Hh.
  rewrite take_ge by lia. reflexivity.
Qed.

Lemma slice_bytes_insert (h : heap) (b : slice) (a : nat) (bytes : list byte) :
  arr b = Some a -> (a < length h)%nat ->
  slice_bytes (<[a := bytes]> h) b = take (len b) bytes.
Proof.
  intros Ha Hlt. unfold slice_bytes. rewrite Ha.
  rewrite list_lookup_insert_eq by assumption. reflexivity.
Qed.

Lemma Buffer_wf_insert (h : heap) (b : slice) (a : nat) (bytes : list byte) :
  arr b = Some a -> (a < length h)%nat -> length bytes = cap b -> (len b <= cap b)%nat ->
  Buffer_wf (<[a := bytes]> h) b.
Proof.
  intros Ha Hlt Hc Hl. unfold Buffer_wf. rewrite Ha. exists bytes.
  rewrite list_lookup_insert_eq by assumption. auto.
Qed.

(** Writing [old] and then [p] into a fresh zeroed array of [c] bytes. *)
Lemma fresh_array_write (h : heap) (c : nat) (old p : list byte) :
  (length old + length p <= c)%nat ->
  let s := {| arr := Some (length h); len := c; cap := c |} in
  let b' := reslice s (length old + length p) in
  let h' := copy_at (copy_at (h ++ [replicate c x00]) s 0 old) b' (length old) p in
  Buffer_wf h' b' /\ slice_bytes h' b' = old ++ p.
Proof.
  intros Hc s b' h'.
  assert (Hlt : (length h < length (h ++ [replicate c x00]))%nat).
  { rewrite length_app. simpl. lia. }
  assert (H1 : (h ++ [replicate c x00]) !! length h = Some (replicate c x00)).
  { apply list_lookup_middle. reflexivity. }
  unfold h'.
  rewrite (copy_at_fits _ s (length h) 0 old (replicate c x00)); simpl; auto; [|lia].
  erewrite (copy_at_fits _ b' (length h) (length old) p); simpl; auto;
    [|now apply list_lookup_insert_eq].
  rewrite list_insert_insert_eq.
  split.
  - apply Buffer_wf_insert; simpl; auto.
    rewrite !length_inserts, length_replicate. reflexivity.
  - rewrite slice_bytes_insert by (simpl; auto). simpl.
    rewrite list_inserts_take by (rewrite length_inserts, length_replicate; lia).
    f_equal.
    change (length old) with (0 + length old)%nat at 1.
    rewrite list_inserts_take by (rewrite length_replicate; simpl; lia).
    reflexivity.
Qed.

Lemma Buffer_Write_spec (h : heap) (b : slice) (p : list byte) :
  Buffer_wf h b ->
  Buffer_wf (snd (Buffer_Write h b p)) (fst (Buffer_Write h b p))
  /\ slice_bytes (snd (Buffer_Write h b p)) (fst (Buffer_Write h b p))
     = slice_bytes h b ++ p.
Proof.
  intros Hwf. unfold Buffer_Write, Buffer_grow, tryGrowByReslice.
  destruct (length p <=? cap b - len b)%nat eqn:Efit.
  - (* the write fits the array *)
    apply Nat.leb_le in Efit. simpl. unfold Buffer_wf in Hwf.
    destruct (arr b) as [a|] eqn:Ea.
    + destruct Hwf as (bytes & Hh & Hcap & Hle).
      assert (Hlt : (a < length h)%nat) by (eapply lookup_lt_Some; eauto).
      rewrite (copy_at_fits h _ a (len b) p bytes); simpl; auto. split.
      * apply Buffer_wf_insert; simpl; auto; [|lia].
        now rewrite length_inserts.
      * rewrite slice_bytes_insert by (simpl; auto). simpl.
        rewrite list_inserts_take by lia.
        unfold slice_bytes. rewrite Ea, Hh. reflexivity.
    + destruct Hwf as [Hl Hc]. assert (p = []) by (destruct p; simpl in *; [reflexivity|lia]).
      subst p. unfold copy_at, slice_bytes, Buffer_wf, reslice. simpl. rewrite Ea.
      split; [lia | reflexivity].
  - (* a new array *)
    apply Nat.leb_gt in Efit. unfold Buffer_wf in Hwf.
    destruct (arr b) as [a|] eqn:Ea.
    + destruct Hwf as (bytes & Hh & Hcap & Hle).
      assert (Hold : length (slice_bytes h b) = len b).
      { unfold slice_bytes. rewrite Ea, Hh. simpl. rewrite length_take. lia. }
      unfold make_slice. simpl. rewrite <- Hold.
      apply (fresh_array_write h _ (slice_bytes h b) p). lia.
    + destruct Hwf as [Hl Hc].
      assert (Hold : slice_bytes h b = []) by (unfold slice_bytes; now rewrite Ea).
      rewrite Hold. unfold make_slice.
      assert (Hfresh : forall c, (length p <= c)%nat ->
                let s := {| arr := Some (length h); len := length p; cap := c |} in
                let h' := copy_at (h ++ [replicate c x00]) s 0 p in
                Buffer_wf h' s /\ slice_bytes h' s = [] ++ p).
      { intros c Hpc s h'.
        assert (Hlt : (length h < length (h ++ [replicate c x00]))%nat).
        { rewrite length_app. simpl. lia. }
        unfold h'.
        rewrite (copy_at_fits _ s (length h) 0 p (replicate c x00)); simpl; auto;
          [|apply list_lookup_middle; reflexivity].
        split.
        - apply Buffer_wf_insert; simpl; auto.
          now rewrite length_inserts, length_replicate.
        - rewrite slice_bytes_insert by (simpl; auto). simpl.
          change (length p) with (0 + length p)%nat.
          rewrite list_inserts_take by (rewrite length_replicate; simpl; lia).
          reflexivity. }
      destruct (length p <=? smallBufferSize)%nat eqn:Esmall; simpl.
      * apply Nat.leb_le in Esmall. apply (Hfresh smallBufferSize Esmall).
      * apply (Hfresh (length p)). lia.
Qed.

Lemma Write_pending (b : list byte) (st : LogState) :
  LogState_wf st ->
  LogState_wf (snd (invocationLog_Write b st))
  /\ pending (snd (invocationLog_Write b st)) = pending st ++ b.
Proof.
  intros Hwf. unfold invocationLog_Write, LogState_wf, pending.
  pose proof (Buffer_Write_spec (log_heap st) (log_Buffer st) b Hwf) as Hspec.
  destruct (Buffer_Write (log_heap st) (log_Buffer st) b) as [buf' h']. exact Hspec.
Qed.

Lemma Consume_pending (st : LogState) :
  LogState_wf st ->
  LogState_wf (snd (invocationLog_Consume st))
  /\ pending (snd (invocationLog_Consume st)) = []
  /\ slice_bytes (log_heap (snd (invocationLog_Consume st)))
       (fst (invocationLog_Consume st)) = pending st.
Proof.
  intros Hwf. unfold invocationLog_Consume, LogState_wf, pending, Buffer_wf in *. simpl.
  unfold slice_bytes, Buffer_Reset, Buffer_Bytes, reslice. simpl.
  destruct (arr (log_Buffer st)) as [a|]; [|tauto].
  destruct Hwf as (bytes & Hh & Hc & Hl). repeat split.
  - exists bytes. repeat split; auto. lia.
Qed.

(** A client that copies each output of [Consume] before its next call
    sees what a plain byte queue would give. *)
Lemma log_copied_outputs_wf (calls : list LogCall) (st : LogState) :
  LogState_wf st ->
  fst (run_log_copying calls st) = fst (queue_outputs calls (pending st))
  /\ pending (snd (run_log_copying calls st)) = snd (queue_outputs calls (pending st)).
Proof.
  revert st. induction calls as [|[b|] rest IH]; intros st Hwf;
    cbn [run_log_copying queue_outputs].
  - auto.
  - destruct (Write_pending b st Hwf) as [Hwf' Hp]. rewrite <- Hp. now apply IH.
  - destruct (Consume_pending st Hwf) as (Hwf' & Hp & Hs).
    destruct (invocationLog_Consume st) as [s st'] eqn:Ec. simpl in *.
    specialize (IH st' Hwf'). rewrite Hp in IH.
    destruct (run_log_copying rest st') as [out st''].
    destruct (queue_outputs rest []) as [out' held']. simpl in *.
    destruct IH as [-> IH2]. rewrite Hs. split; [reflexivity | exact IH2].
Qed.

Lemma queue_outputs_conserve (calls : list LogCall) (held : list byte) :
  concat (fst (queue_outputs calls held)) ++ snd (queue_outputs calls held)
  = held ++ written calls.
Proof.
  revert held. induction calls as [|[b|] rest IH]; intros held;
    cbn [queue_outputs written flat_map].
  - simpl. now rewrite app_nil_r.
  - rewrite IH. unfold written. now rewrite app_assoc.
  - specialize (IH []). destruct (queue_outputs rest []) as [out held'].
    simpl in *. rewrite <- app_assoc. now rewrite IH.
Qed.

(** On a fresh log, outputs copied at once are the bytes written since the
    previous [Consume]; together with what the buffer still holds they are
    all the bytes written, each once and in order. *)
Theorem log_copied_outputs (h : heap) (calls : list LogCall) :
  fst (run_log_copying calls (newInvocationLog h)) = fst (queue_outputs calls [])
  /\ concat (fst (run_log_copying calls (newInvocationLog h)))
     ++ pending (snd (run_log_copying calls (newInvocationLog h)))
     = written calls.
Proof.
  assert (Hwf : LogState_wf (newInvocationLog h)) by (split; reflexivity).
  destruct (log_copied_outputs_wf calls (newInvocationLog h) Hwf) as [H1 H2].
  split; [exact H1|]. rewrite H1, H2. apply (queue_outputs_conserve calls []).
Qed.

(** C7 fails on the code.  [Consume] returns a slice of the buffer's own
    array and [Reset] keeps that array, so the next [Write] overwrites the
    bytes returned.  After two writes, each followed by [Consume], the first
    output no longer reads "abc" but "dec": the bytes "ab" are lost and the
    bytes "de" of the second write show in both outputs. *)
Theorem Consume_output_overwritten :
  map (slice_bytes (log_heap (snd (run_log two_writes (newInvocationLog [])))))
      (fst (run_log two_writes (newInvocationLog [])))
  = [String.list_byte_of_string "dec"; String.list_byte_of_string "de"]
  /\ fst (queue_outputs two_writes [])
     = [String.list_byte_of_string "abc"; String.list_byte_of_string "de"].
Proof. split; reflexivity. Qed.

(** ** Properties: the action runner and the driver *)

Lemma log_only_ret {A : Type} (a : A) : log_only (ret a).
Proof. intros w. exists a, w. repeat split; auto. exists []. now rewrite app_nil_r. Qed.

Lemma log_only_bind {A B : Type} (c : M A) (k : A -> M B) :
  log_only c -> (forall a, log_only (k a)) -> log_only (bind c k).
Proof.
  intros Hc Hk w. destruct (Hc w) as (a & w1 & Hcw & Hs1 & Hc1 & Hu1 & Hw1 & m1 & He1).
  destruct (Hk a w1) as (b & w2 & Hkw & Hs2 & Hc2 & Hu2 & Hw2 & m2 & He2).
  exists b, w2. unfold bind. rewrite Hcw. repeat split; try congruence.
  exists (m1 ++ m2). rewrite He2, He1. now rewrite app_assoc.
Qed.

Section RunnerFacts.

Variable env : Env.
Variable flags : Flags.

Lemma log_only_Publish (e : BuildEvent) : log_only (bep_Publish env e).
Proof.
  intros w. unfold bep_Publish. destruct (latched env (w_publishes w)).
  - eexists _, _. repeat split. exists []. simpl. now rewrite app_nil_r.
  - eexists _, _. repeat split. simpl. eexists. reflexivity.
Qed.

Lemma log_only_flushProgress : log_only (flushProgress env).
Proof.
  intros w. unfold flushProgress.
  destruct (invocationLog_Consume (w_log w)) as [buf lg].
  destruct (len buf =? 0)%nat.
  - eexists _, _. repeat split. exists []. simpl. now rewrite app_nil_r.
  - match goal with |- context [bep_Publish env ?e ?w0] =>
      destruct (log_only_Publish e w0) as (a & w' & -> & H1 & H2 & H3 & H4 & m & H5) end.
    exists a, w'. repeat split; auto. exists m. exact H5.
Qed.

Lemma log_only_writeListener : log_only (writeListener env).
Proof.
  intros w. unfold writeListener.
  destruct (w_listener w);
    [destruct (progressFlushThresholdBytes <=? _)|];
    try (apply (log_only_ret tt w)).
  apply (log_only_bind _ _ log_only_flushProgress (fun _ => log_only_ret tt) w).
Qed.

Lemma log_only_Write (b : list byte) : log_only (Write env b).
Proof.
  intros w. unfold Write.
  destruct (invocationLog_Write b (w_log w)) as [n lg].
  apply (log_only_bind _ _ log_only_writeListener (fun _ => log_only_ret n)
           (set_log lg w)).
Qed.

Lemma log_only_Printf (text : string) : log_only (Printf env text).
Proof.
  unfold Printf. apply log_only_bind; [apply log_only_Write | intros; apply log_only_ret].
Qed.

Lemma log_only_flusher_tick : log_only (flusher_tick env).
Proof.
  intros w. unfold flusher_tick.
  destruct (w_flusher w) as [f|]; [|apply (log_only_ret tt w)].
  destruct (flusher_step SelectTimer f) as [f'|]; [|apply (log_only_ret tt w)].
  apply (log_only_bind _ _ log_only_flushProgress (fun _ => log_only_ret tt)
           (set_flusher (Some f') w)).
Qed.

Lemma log_only_play (evs : list CmdEvent) : log_only (play env evs).
Proof.
  induction evs as [|[b|] evs IH]; simpl.
  - apply log_only_ret.
  - apply log_only_bind; [apply log_only_Write | intros; exact IH].
  - apply log_only_bind; [apply log_only_flusher_tick | intros; exact IH].
Qed.

Lemma log_only_Printf_format (format : string) : log_only (Printf_format env format).
Proof.
  unfold Printf_format.
  apply log_only_bind; [apply log_only_Write | intros; apply log_only_ret].
Qed.

Lemma log_only_printCommandLine (u h : string) (args : list string) :
  log_only (printCommandLine env u h args).
Proof. apply log_only_Printf_format. Qed.


Lemma log_only_Run_prelude (action : Action) : log_only (Run_prelude env flags action).
Proof.
  unfold Run_prelude.
  apply log_only_bind; [apply log_only_Printf | intros _].
  apply log_only_bind; [apply log_only_Printf | intros _].
  apply log_only_bind; [intros w; apply log_only_Printf | intros _].
  intros w. apply log_only_Printf.
Qed.

Lemma runCommand_spec (args : list string) (w : World) :
  exists w',
    runCommand env args w = (Returned (cmd_result (cmd_Run env (w_commands w) args)), w')
    /\ w_streamID w' = w_streamID w /\ w_commands w' = S (w_commands w)
    /\ w_uuids w' = w_uuids w /\ w_waits w' = w_waits w
    /\ exists more, w_events w' = w_events w ++ more.
Proof.
  unfold runCommand.
  destruct (log_only_play (cmd_events (cmd_Run env (w_commands w) args)) (count_command w))
    as (a & w1 & Hp & H1 & H2 & H3 & H4 & H5).
  exists w1. unfold bind. rewrite Hp. repeat split; auto.
Qed.

Lemma command_round_spec (u h : string) (args : list string) (w : World) :
  exists w',
    command_round env u h args w
    = (Returned (cmd_result (cmd_Run env (w_commands w) args)), w')
    /\ w_streamID w' = w_streamID w /\ w_commands w' = S (w_commands w)
    /\ w_uuids w' = w_uuids w /\ w_waits w' = w_waits w
    /\ exists more, w_events w' = w_events w ++ more.
Proof.
  unfold command_round.
  destruct (log_only_printCommandLine u h args w)
    as ([] & w1 & Hp & Hs1 & Hc1 & Hu1 & Hw1 & m1 & He1).
  destruct (runCommand_spec args w1) as (w2 & Hr & Hs2 & Hc2 & Hu2 & Hw2 & m2 & He2).
  unfold bind at 1. rewrite Hp. unfold bind at 1. rewrite Hr.
  set (err := cmd_result (cmd_Run env (w_commands w1) args)) in *.
  assert (Hlo : log_only
            (if negb (getExitCode err =? noExitCode)
             then Printf env (esc +:+ "[90m(command exited with code "
                              +:+ pretty (getExitCode err) +:+ ")" +:+ esc +:+ "[0m")
             else ret tt)).
  { destruct (negb _); [apply log_only_Printf | apply log_only_ret]. }
  destruct (Hlo w2) as ([] & w3 & Hq & Hs3 & Hc3 & Hu3 & Hw3 & m3 & He3).
  unfold bind. cbv zeta. rewrite Hq. exists w3. unfold err. rewrite Hc1.
  repeat split; try congruence.
  exists (m1 ++ m2 ++ m3). rewrite He3, He2, He1, <- !app_assoc. reflexivity.
Qed.

Lemma run_commands_cons (u h cmd : string) (rest : list string) (w : World) :
  run_commands env u h (cmd :: rest) w =
  match bazelArgs (shlex_Split env) cmd with
  | Returned (_, Some err) =>
      (Returned (Some (ErrFmt "failed to parse bazel command: " err)), w)
  | Returned (args, None) =>
      match command_round env u h args w with
      | (Returned err, w3) =>
          match flushProgress env w3 with
          | (Returned (Some _), w4) => (Returned None, w4)
          | (Returned None, w4) =>
              match err with
              | Some e => (Returned (Some e), w4)
              | None => run_commands env u h rest w4
              end
          | (Panicked msg, w4) => (Panicked msg, w4)
          | (Exited code, w4) => (Exited code, w4)
          end
      | (Panicked msg, w3) => (Panicked msg, w3)
      | (Exited code, w3) => (Exited code, w3)
      end
  | Panicked msg => (Panicked msg, w)
  | Exited code => (Exited code, w)
  end.
Proof.
  cbn [run_commands]. unfold bind at 1. unfold lift.
  destruct (bazelArgs (shlex_Split env) cmd) as [[args [err|]]| |]; try reflexivity.
  unfold command_round, bind.
  destruct (printCommandLine env u h args w) as [[[]| |] w1]; try reflexivity.
  destruct (runCommand env args w1) as [[err| |] w2]; try reflexivity.
  cbv zeta.
  destruct (negb (getExitCode err =? noExitCode)).
  - destruct (Printf env _ w2) as [[[]| |] w3]; try reflexivity.
    unfold ret.
    destruct (flushProgress env w3) as [[[e|]| |] w4]; try reflexivity.
    destruct err; reflexivity.
  - unfold ret.
    destruct (flushProgress env w2) as [[[e|]| |] w4]; try reflexivity.
    destruct err; reflexivity.
Qed.

Lemma run_commands_errors (u h : string) (cmds : list string) (w w' : World) (e : error) :
  run_commands env u h cmds w = (Returned (Some e), w') ->
  tokenise_error env e \/ command_error env e.
Proof.
  revert w. induction cmds as [|cmd rest IH]; intros w Hrun.
  - discriminate.
  - rewrite run_commands_cons in Hrun.
    destruct (bazelArgs (shlex_Split env) cmd) as [[args [err|]]| |] eqn:Eb;
      try discriminate.
    + injection Hrun as <- <-. left. unfold bazelArgs in Eb.
      destruct (shlex_Split env cmd) as [tokens [cause|]] eqn:Es.
      * injection Eb as _ <-. exists cmd, tokens, cause. auto.
      * destruct tokens; [discriminate|]. destruct (_ || _); discriminate.
    + destruct (command_round_spec u h args w) as (w3 & -> & _) in Hrun.
      destruct (log_only_flushProgress w3) as (ferr & w4 & Hf & _). rewrite Hf in Hrun.
      destruct ferr; [discriminate|].
      destruct (cmd_result (cmd_Run env (w_commands w) args)) as [e0|] eqn:Er.
      * injection Hrun as <- <-. right. eexists _, _. exact Er.
      * eapply IH; eauto.
Qed.


Lemma Run_unfold (u h : string) (action : Action) (w : World) :
  Run env flags u h action w =
  match Run_prelude env flags action w with
  | (Returned _, w1) =>
      match bep_Publish env (startedEvent env w1) w1 with
      | (Returned (Some _), w2) => (Returned None, w2)
      | (Returned None, w2) =>
          match flushProgress env w2 with
          | (Returned (Some _), w3) => (Returned None, w3)
          | (Returned None, w3) =>
              match bep_Publish env (workspaceStatusEvent flags u h) w3 with
              | (Returned (Some _), w4) => (Returned None, w4)
              | (Returned None, w4) =>
                  with_defer stopFlushingProgress
                    (run_commands env u h (BazelCommands action))
                    (set_flusher (Some startBackgroundProgressFlush)
                       (set_listener true w4))
              | (Panicked msg, w4) => (Panicked msg, w4)
              | (Exited code, w4) => (Exited code, w4)
              end
          | (Panicked msg, w3) => (Panicked msg, w3)
          | (Exited code, w3) => (Exited code, w3)
          end
      | (Panicked msg, w2) => (Panicked msg, w2)
      | (Exited code, w2) => (Exited code, w2)
      end
  | (Panicked msg, w1) => (Panicked msg, w1)
  | (Exited code, w1) => (Exited code, w1)
  end.
Proof.
  unfold Run, Run_prelude, bind.
  destruct (Printf env _ w) as [[[]| |] wa]; try reflexivity.
  destruct (Printf env _ wa) as [[[]| |] wb]; try reflexivity.
  destruct (Printf env _ wb) as [[[]| |] wc]; try reflexivity.
  destruct (Printf env _ wc) as [[[]| |] w1]; try reflexivity.
  destruct (bep_Publish env (startedEvent env w1) w1) as [[[e|]| |] w2]; try reflexivity.
  destruct (flushProgress env w2) as [[[e|]| |] w3]; try reflexivity.
  destruct (bep_Publish env _ w3) as [[[e|]| |] w4]; reflexivity.
Qed.

Lemma with_defer_Returned {A : Type} (d : World -> World) (body : M A) (w w' : World)
      (a : A) :
  with_defer d body w = (Returned a, w') ->
  exists w0, body w = (Returned a, w0) /\ w' = d w0.
Proof.
  unfold with_defer. destruct (body w) as [[b| |] w0]; intros [= <- <-]; eauto.
Qed.

(** C8.  In [Run], a failure returned by [Publish] for the Started event,
    by the first progress flush, by [Publish] for the WorkspaceStatus event,
    or by the progress flush after a command (whatever the command
    returned) makes the function return nil at that point; and an error
    that [Run] does return is either the tokenisation failure of a bazel
    command or the error of a bazel command's execution. *)
Theorem Run_publish_failures_return_nil (username hostname : string) (action : Action)
        (w : World) :
  let w1 := snd (Run_prelude env flags action w) in
  let started := bep_Publish env (startedEvent env w1) w1 in
  let flushed := flushProgress env (snd started) in
  let status := bep_Publish env (workspaceStatusEvent flags username hostname)
                  (snd flushed) in
  (forall e, fst started = Returned (Some e) ->
     Run env flags username hostname action w = (Returned None, snd started))
  /\ (fst started = Returned None ->
      forall e, fst flushed = Returned (Some e) ->
        Run env flags username hostname action w = (Returned None, snd flushed))
  /\ (fst started = Returned None -> fst flushed = Returned None ->
      forall e, fst status = Returned (Some e) ->
        Run env flags username hostname action w = (Returned None, snd status))
  /\ (forall cmd rest args w0 e,
        bazelArgs (shlex_Split env) cmd = Returned (args, None) ->
        fst (flushProgress env (snd (command_round env username hostname args w0)))
        = Returned (Some e) ->
        fst (run_commands env username hostname (cmd :: rest) w0) = Returned None)
  /\ (forall e w',
        Run env flags username hostname action w = (Returned (Some e), w') ->
        tokenise_error env e \/ command_error env e).
Proof.
  cbv zeta. rewrite Run_unfold.
  destruct (log_only_Run_prelude action w) as ([] & w1 & -> & _). cbn [fst snd].
  destruct (bep_Publish env (startedEvent env w1) w1) as [o2 w2]. cbn [fst snd].
  destruct (flushProgress env w2) as [o3 w3]. cbn [fst snd].
  destruct (bep_Publish env (workspaceStatusEvent flags username hostname) w3)
    as [o4 w4]. cbn [fst snd].
  split; [|split; [|split; [|split]]].
  - intros e ->. reflexivity.
  - intros -> e ->. reflexivity.
  - intros -> -> e ->. reflexivity.
  - intros cmd rest args w0 e Hb Hf. rewrite run_commands_cons, Hb.
    destruct (command_round_spec username hostname args w0) as (w3' & Hc & _).
    rewrite Hc in *. cbn [fst snd] in Hf.
    destruct (flushProgress env w3') as [o5 w4']. cbn [fst snd] in Hf. subst o5.
    reflexivity.
  - intros e w' H.
    destruct o2 as [[e2|]| |]; try discriminate.
    destruct o3 as [[e3|]| |]; try discriminate.
    destruct o4 as [[e4|]| |]; try discriminate.
    apply with_defer_Returned in H as (w0 & H & _).
    eapply run_commands_errors; eauto.
Qed.


Lemma Publish_ok (e : BuildEvent) (w : World) :
  (forall k, latched env k = None) ->
  bep_Publish env e w = (Returned None, count_publish (add_event (Some e) w)).
Proof. intros H. unfold bep_Publish. now rewrite H. Qed.

Lemma flushProgress_ok (w : World) :
  (forall k, latched env k = None) ->
  exists w',
    flushProgress env w = (Returned None, w')
    /\ w_streamID w' = w_streamID w /\ w_commands w' = w_commands w
    /\ exists more, w_events w' = w_events w ++ more.
Proof.
  intros H. unfold flushProgress.
  destruct (invocationLog_Consume (w_log w)) as [buf lg].
  destruct (len buf =? 0)%nat.
  - eexists. repeat split. exists []. simpl. now rewrite app_nil_r.
  - rewrite Publish_ok by assumption. eexists. repeat split. simpl. eexists. reflexivity.
Qed.




Lemma newUUID_ok (id : string) (w : World) :
  uuid_NewRandom env (w_uuids w) = Some id ->
  newUUID env w = (Returned id, count_uuid w).
Proof. intros H. unfold newUUID. now rewrite H. Qed.







End RunnerFacts.

Lemma Run_publish_failures_return_nil_witness :
  fst (Run S5_env S3_flags "ci" "host" S3_action initial_World) = Returned None.
Proof.
  rewrite (proj1 (Run_publish_failures_return_nil S5_env S3_flags "ci" "host"
                    S3_action initial_World) (ErrFmt "cannot publish event due to previous error: "
                                                (ErrOther "transport is closing")) eq_refl).
  reflexivity.
Defined.

(** C8 as stated fails in scenario S5 when the stream breaks later: the
    three opening events are published; while the command runs the
    flusher's timer fires and its call of [flushProgress] makes the fourth
    call of [Publish], which is refused; that failure is dropped, the log
    is empty when [Run] flushes after the command, and [Run] returns the
    command's error, not nil. *)
Lemma Run_returns_error_after_refused_flush :
  let r := Run S5_late_env S3_flags "ci" "host" S3_action
             (new_actionRunner demo_sid initial_World) in
  latched S5_late_env 3 = Some (ErrOther "transport is closing")
  /\ w_publishes (snd r) = 4%nat
  /\ length (w_events (snd r)) = 3%nat
  /\ flush_calls <$> w_flusher (snd r) = Some 1%nat
  /\ fst r = Returned (Some (ErrSignal "signal: killed"))
  /\ fst r <> Returned None.
Proof.
  cbv zeta. split; [reflexivity|]. split; [vm_compute; reflexivity|].
  split; [vm_compute; reflexivity|]. split; [vm_compute; reflexivity|].
  split; [vm_compute; reflexivity|]. vm_compute. discriminate.
Qed.




(** ** Properties: delivery, capacity and the latch of the publisher *)

Lemma ChanInv_init (sid : StreamId) : ChanInv (newBuildEventPublisher sid).
Proof. split; simpl; unfold events_capacity; auto; lia. Qed.

Lemma ChanInv_step (l : Label) (p p' : Publisher) :
  CtlInv p -> ChanInv p -> step l p = Some p' -> ChanInv p'.
Proof.
  intros Hctl [He Hd Hdp Hr Hrp] Hstep.
  destruct l as [e| | |r|r]; simpl in Hstep.
  - unfold Publish in Hstep. destruct (err p); simplify_eq/=; [split; assumption|].
    destruct (length (events p) <? events_capacity)%nat eqn:E; simplify_eq/=.
    apply Nat.ltb_lt in E. split; simpl; auto. rewrite length_app. simpl. lia.
  - unfold Wait_enqueue in Hstep. destruct (wait_pc p); try discriminate.
    destruct (length (events p) <? events_capacity)%nat eqn:E; simplify_eq/=.
    apply Nat.ltb_lt in E. split; simpl; auto. rewrite length_app. simpl. lia.
  - unfold Wait_receive in Hstep. destruct (wait_pc p); try discriminate.
    destruct (done p) as [|n] eqn:Ed; simplify_eq/=.
    split; simpl; auto; try lia.
  - unfold run_step in Hstep.
    destruct (run_pc p) as [| |s| | |] eqn:Epc; try discriminate;
      assert (Hd0 : done p = 0%nat) by (apply Hdp; discriminate).
    + destruct (call_err r); simplify_eq/=; split; simpl; auto; try lia; try done.
    + destruct (ctl_pre_ack p Hctl (or_intror Epc)) as [Hdr0 _].
      destruct (call_err r); simplify_eq/=; split; simpl; auto; try lia; try done.
    + destruct (events p) as [|[ev|] rest] eqn:Eev; [discriminate| |];
        simpl in He;
        repeat case_match; simplify_eq/=; split; simpl; auto; try lia; try done.
    + destruct (call_err r); simplify_eq/=; split; simpl; auto; try lia; try done.
    + destruct (doneReceiving p) as [|n] eqn:Edr; simplify_eq/=.
      split; simpl; auto; try lia; try done.
  - unfold ack_step in Hstep.
    destruct (ack_pc p) eqn:Eack; try discriminate.
    assert (Hr0 : doneReceiving p = 0%nat) by (apply Hrp; discriminate).
    destruct r; simplify_eq/=; split; simpl; auto; try lia; try done.
Qed.

(** The channels stay within their capacities: at most 256 events wait in
    [events], and the single signals on [done] and [doneReceiving] find
    their channel empty, so neither send can block. *)
Theorem channels_within_capacity (sid : StreamId) (ls : list Label) (p : Publisher) :
  exec ls (newBuildEventPublisher sid) = Some p ->
  (length (events p) <= 256)%nat /\ (done p <= 1)%nat /\ (doneReceiving p <= 1)%nat
  /\ (run_pc p <> RunReturned -> done p = 0%nat)
  /\ (ack_pc p <> AckReturned -> doneReceiving p = 0%nat).
Proof.
  assert (Hgen : forall ls q q',
             CtlInv q -> ChanInv q -> exec ls q = Some q' -> ChanInv q').
  { clear. induction ls as [|l ls IH]; intros q q' Hc Hq Hexec; simpl in Hexec.
    - now injection Hexec as <-.
    - destruct (step l q) as [q1|] eqn:Estep; [|discriminate].
      apply (IH q1 q'); [| |assumption].
      + eapply CtlInv_step; eauto.
      + eapply ChanInv_step; eauto. }
  intros Hexec.
  destruct (Hgen ls _ p (CtlInv_init sid) (ChanInv_init sid) Hexec)
    as [He Hd Hdp Hr Hrp].
  auto.
Qed.

Lemma channels_within_capacity_witness :
  exists p, exec clean_schedule (newBuildEventPublisher demo_sid) = Some p
            /\ (done p <= 1)%nat.
Proof.
  eexists. split; [vm_compute; reflexivity|].
  refine (proj1 (proj2 (channels_within_capacity demo_sid clean_schedule _ _))).
  vm_compute. reflexivity.
Defined.

(** ** The latch *)

Lemma err_sticky_step (l : Label) (p p' : Publisher) :
  is_Some (err p) -> step l p = Some p' -> is_Some (err p').
Proof.
  intros [e0 He0] Hstep.
  destruct l as [e| | |r|r]; simpl in Hstep;
    [unfold Publish in Hstep | unfold Wait_enqueue in Hstep
     | unfold Wait_receive in Hstep | unfold run_step in Hstep
     | unfold ack_step in Hstep];
    repeat case_match; simplify_eq/=;
    first [congruence | eexists; reflexivity | eexists; eassumption].
Qed.

Lemma err_sticky (ls : list Label) (p p' : Publisher) :
  is_Some (err p) -> exec ls p = Some p' -> is_Some (err p').
Proof.
  revert p. induction ls as [|l ls IH]; intros p Herr Hexec; simpl in Hexec.
  - now injection Hexec as <-.
  - destruct (step l p) as [q|] eqn:Estep; [|discriminate].
    apply (IH q); [|assumption]. eapply err_sticky_step; eauto.
Qed.

(** Once an error is latched nothing clears it: whatever happens next,
    [Publish] returns an error without blocking and puts nothing on the
    channel. *)
Theorem latched_error_refuses_publish (ls : list Label) (p q : Publisher)
        (e : BuildEvent) :
  is_Some (err p) -> exec ls p = Some q ->
  exists e0,
    err q = Some e0
    /\ Publish e q
       = Some (Some (ErrFmt "cannot publish event due to previous error: " e0), q).
Proof.
  intros Herr Hexec. destruct (err_sticky ls p q Herr Hexec) as [e0 He0].
  exists e0. split; [assumption|]. unfold Publish. now rewrite He0.
Qed.

Lemma latched_error_refuses_publish_witness :
  exists p e0,
    exec [DoRun reply_fail; DoPublish (demo_event 0)] (newBuildEventPublisher demo_sid)
    = Some p
    /\ err p = Some e0
    /\ Publish (demo_event 1) p
       = Some (Some (ErrFmt "cannot publish event due to previous error: " e0), p).
Proof.
  pose proof (latched_error_refuses_publish
                [DoPublish (demo_event 0)]
                (run_return (setError (status_WrapError (ErrOther "transport is closing")
                                         "error dialing bes_backend")
                               (newBuildEventPublisher demo_sid)))
                _ (demo_event 1) (ex_intro _ _ eq_refl) eq_refl) as (e0 & He & Hp).
  eexists _, e0. split; [reflexivity|]. split; [exact He | exact Hp].
Defined.

(** ** What a nil result of Wait means *)

Lemma Forall_is_Some_map {A : Type} (l : list (option A)) :
  Forall is_Some l -> exists es, l = map Some es.
Proof.
  induction 1 as [|x l [a ->] _ [es ->]]; [exists []; reflexivity|].
  exists (a :: es). reflexivity.
Qed.

Lemma CloseSend_not_in_all_sent_ok (p : Publisher) (r : option error) :
  CloseSend r ∉ all_sent_ok p.
Proof.
  unfold all_sent_ok. intros H. apply list_elem_of_fmap in H as (req & Hreq & _).
  discriminate.
Qed.

Lemma Delivery_init (sid : StreamId) : Delivery_inv (newBuildEventPublisher sid).
Proof.
  split.
  - reflexivity.
  - intros [H|[r H]]; [discriminate | simpl in H; set_solver].
  - discriminate.
Qed.

Lemma CallsInv_frame (p p' : Publisher) :
  run_pc p' = run_pc p -> calls p' = calls p ->
  (is_Some (err p) -> is_Some (err p')) ->
  (ack_pc p = AckReturned -> ack_pc p' = AckReturned) ->
  CallsInv p -> CallsInv p'.
Proof.
  unfold CallsInv, all_sent_ok, sent. intros -> -> Herr Hack.
  destruct (run_pc p); auto. intros [H|[H1 H2]]; auto.
Qed.

Lemma CallsInv_step (l : Label) (p p' : Publisher) :
  CtlInv p -> CallsInv p -> step l p = Some p' -> CallsInv p'.
Proof.
  intros Hctl Hc Hstep.
  destruct l as [e| | |r|r]; simpl in Hstep.
  - unfold Publish in Hstep. repeat case_match; simplify_eq/=;
      (eapply CallsInv_frame; [..|eassumption]); auto.
  - unfold Wait_enqueue in Hstep. repeat case_match; simplify_eq/=;
      (eapply CallsInv_frame; [..|eassumption]); auto.
  - unfold Wait_receive in Hstep. repeat case_match; simplify_eq/=;
      (eapply CallsInv_frame; [..|eassumption]); auto.
  - unfold run_step in Hstep. unfold CallsInv in *.
    destruct (run_pc p) as [| |s| | |] eqn:Epc; try discriminate.
    + destruct (call_err r); simplify_eq/=; [left; eexists; reflexivity | assumption].
    + destruct (call_err r); simplify_eq/=; [left; eexists; reflexivity | assumption].
    + destruct (events p) as [|[ev|] rest] eqn:Eev; [discriminate| |].
      * destruct (marshal_err r); [simplify_eq/=; left; eexists; reflexivity|].
        destruct (call_err r); simplify_eq/=; [left; eexists; reflexivity|].
        unfold all_sent_ok, sent in *. simpl. rewrite omap_app, map_app. simpl.
        now rewrite <- Hc.
      * destruct (call_err r); simplify_eq/=; [left; eexists; reflexivity|].
        unfold all_sent_ok, sent in *. simpl. rewrite omap_app, map_app. simpl.
        now rewrite <- Hc.
    + destruct (call_err r); simplify_eq/=; [left; eexists; reflexivity|].
      unfold all_sent_ok, sent in *. simpl. rewrite omap_app. simpl.
      rewrite app_nil_r. now rewrite <- Hc.
    + destruct (doneReceiving p) as [|n] eqn:Ed; simplify_eq/=.
      right. split; [assumption|]. apply (ctl_token p Hctl). lia.
  - unfold ack_step in Hstep.
    destruct (ack_pc p) eqn:Eack; try discriminate.
    destruct r; simplify_eq/=; try assumption;
      (eapply CallsInv_frame; [..|eassumption]); simpl; auto; try congruence.
    all: intros _; eexists; reflexivity.
Qed.

Lemma FinSentInv_step (l : Label) (p p' : Publisher) :
  CtlInv p -> QInv p -> FinSentInv p -> step l p = Some p' -> FinSentInv p'.
Proof.
  intros Hctl Hq Hf Hstep. unfold FinSentInv in *.
  destruct l as [e| | |r|r]; simpl in Hstep.
  - unfold Publish in Hstep. destruct (err p); simplify_eq/=; [assumption|].
    destruct (length (events p) <? events_capacity)%nat; simplify_eq/=.
    intros H. destruct (Hf H) as (es & Henq & Hev). exists es.
    rewrite Henq. split; [|assumption].
    rewrite <- app_assoc. reflexivity.
  - unfold Wait_enqueue in Hstep. destruct (wait_pc p); try discriminate.
    destruct (length (events p) <? events_capacity)%nat; simplify_eq/=.
    intros H. destruct (Hf H) as (es & Henq & Hev). exists es.
    rewrite Henq. split; [|assumption].
    rewrite <- app_assoc. reflexivity.
  - unfold Wait_receive in Hstep. repeat case_match; simplify_eq/=; assumption.
  - unfold run_step in Hstep.
    destruct (run_pc p) as [| |s| | |] eqn:Epc; try discriminate.
    + pose proof (ctl_pre p Hctl (or_introl Epc)) as Hc0.
      destruct (call_err r); simplify_eq/=; intros [H|[r0 H]];
        try discriminate; rewrite Hc0 in H; set_solver.
    + pose proof (ctl_pre p Hctl (or_intror Epc)) as Hc0.
      destruct (call_err r); simplify_eq/=; intros [H|[r0 H]];
        try discriminate; rewrite Hc0 in H; set_solver.
    + assert (Hno : forall r0 c res, CloseSend r0 ∈ calls p ++ [Send c res] -> False).
      { intros r0 c res H. apply elem_of_app in H as [H|H].
        - eapply (ctl_loop p Hctl); eauto.
        - apply list_elem_of_singleton in H. discriminate. }
      destruct (events p) as [|[ev|] rest] eqn:Eev; [discriminate| |].
      * destruct (marshal_err r); [|destruct (call_err r) eqn:Ece]; simplify_eq/=.
        -- intros [H|[r0 H]]; [discriminate|]. exfalso.
           eapply (ctl_loop p Hctl); eauto.
        -- intros [H|[r0 H]]; [discriminate|]. exfalso.
           eapply Hno. exact H.
        -- intros [H|[r0 H]]; [discriminate|]. exfalso.
           eapply Hno. exact H.
      * destruct (call_err r) eqn:Ece; simplify_eq/=.
        -- intros [H|[r0 H]]; [discriminate|]. exfalso.
           eapply Hno. exact H.
        -- intros _.
           destruct Hq as [(sq & dr & Henq & Hmap & Hlast & Hdrop & Hl) _].
           destruct (Hl s Epc) as (-> & Hall & _).
           destruct (Forall_is_Some_map sq Hall) as [es ->].
           exists es. simpl in Henq. rewrite Henq, Eev. split; [reflexivity|].
           unfold sent. simpl. rewrite omap_app, map_app. simpl.
           unfold sent in Hmap. rewrite Hmap, map_map. reflexivity.
    + assert (Hes : exists es,
                 enqueued p = map Some es ++ None :: events p
                 /\ map Event (sent p)
                    = map BazelEvent es ++ [ComponentStreamFinished_FINISHED])
        by (apply Hf; now left).
      destruct Hes as (es & Henq & Hev).
      destruct (call_err r); simplify_eq/=; intros _; exists es;
        (split; [assumption|]);
        unfold sent in *; simpl; rewrite omap_app; simpl; now rewrite app_nil_r.
    + destruct (doneReceiving p) as [|n] eqn:Ed; simplify_eq/=.
      intros _. apply Hf. right. exists None. apply (ctl_await p Hctl Epc).
    - unfold ack_step in Hstep. repeat case_match; simplify_eq/=; assumption.
Qed.

Lemma WaitNilInv_frame (p p' : Publisher) :
  wait_pc p' = wait_pc p -> run_pc p' = run_pc p -> err p' = err p ->
  ack_pc p' = ack_pc p -> calls p' = calls p ->
  WaitNilInv p -> WaitNilInv p'.
Proof.
  unfold WaitNilInv, all_sent_ok, sent. intros -> -> -> -> ->. auto.
Qed.

Lemma WaitNilInv_step (l : Label) (p p' : Publisher) :
  CtlInv p -> CallsInv p -> WaitNilInv p -> step l p = Some p' -> WaitNilInv p'.
Proof.
  intros Hctl Hc Hw Hstep.
  destruct l as [e| | |r|r]; simpl in Hstep.
  - unfold Publish in Hstep. repeat case_match; simplify_eq/=;
      (eapply WaitNilInv_frame; [..|eassumption]); auto.
  - unfold Wait_enqueue in Hstep. destruct (wait_pc p); try discriminate.
    destruct (length (events p) <? events_capacity)%nat; simplify_eq/=. discriminate.
  - unfold Wait_receive in Hstep. destruct (wait_pc p) eqn:Ew; try discriminate.
    destruct (done p) as [|n] eqn:Ed; simplify_eq/=.
    intros [= Herr].
    assert (Hret : run_pc p = RunReturned) by (apply (ctl_done p Hctl); left; lia).
    unfold CallsInv in Hc. rewrite Hret in Hc.
    destruct Hc as [[e0 He0]|[Hcalls Hack]]; [congruence|]. auto.
  - intros Hwp.
    assert (Hwp0 : wait_pc p = WaitReturned None).
    { unfold run_step in Hstep. repeat case_match; simplify_eq/=; assumption. }
    destruct (Hw Hwp0) as (Hret & _). unfold run_step in Hstep.
    rewrite Hret in Hstep. discriminate.
  - intros Hwp.
    assert (Hwp0 : wait_pc p = WaitReturned None).
    { unfold ack_step in Hstep. repeat case_match; simplify_eq/=; assumption. }
    destruct (Hw Hwp0) as (_ & _ & Hack & _). unfold ack_step in Hstep.
    rewrite Hack in Hstep. discriminate.
Qed.

Lemma Delivery_exec (ls : list Label) (p p' : Publisher) :
  Reachable_inv p -> Delivery_inv p -> exec ls p = Some p' ->
  Reachable_inv p' /\ Delivery_inv p'.
Proof.
  revert p. induction ls as [|l ls IH]; intros p Hinv Hd Hexec; simpl in Hexec.
  - injection Hexec as <-. auto.
  - destruct (step l p) as [q|] eqn:Estep; [|discriminate].
    destruct Hinv as [Hc Hq Hf]. destruct Hd as [Hca Hfs Hw].
    apply (IH q); [| |assumption].
    + split; [eapply CtlInv_step | eapply QInv_step | eapply FinInv_step]; eauto.
    + split; [eapply CallsInv_step | eapply FinSentInv_step | eapply WaitNilInv_step];
        eauto.
Qed.

Lemma exec_streamID (ls : list Label) (p p' : Publisher) :
  exec ls p = Some p' -> streamID p' = streamID p.
Proof.
  revert p. induction ls as [|l ls IH]; intros p Hexec; simpl in Hexec.
  - now injection Hexec as <-.
  - destruct (step l p) as [q|] eqn:Estep; [|discriminate].
    rewrite (IH q Hexec). clear IH Hexec.
    destruct l as [e| | |r|r]; simpl in Estep.
    + unfold Publish in Estep. repeat case_match; simplify_eq/=; reflexivity.
    + unfold Wait_enqueue in Estep. repeat case_match; simplify_eq/=; reflexivity.
    + unfold Wait_receive in Estep. repeat case_match; simplify_eq/=; reflexivity.
    + unfold run_step in Estep. repeat case_match; simplify_eq/=; reflexivity.
    + unfold ack_step in Estep. repeat case_match; simplify_eq/=; reflexivity.
Qed.

(** When [Wait] returns nil the whole stream went through: the events
    enqueued before the sentinel were all sent, in order and under the
    publisher's stream id, every [Send] succeeded, the finished marker came
    last, the half-close succeeded and was the last call on the stream, and
    the ack receiver has seen the end of the acks.  Events published after
    the sentinel are still in the channel. *)
Theorem Wait_nil_means_delivered (sid : StreamId) (ls : list Label) (p : Publisher) :
  exec ls (newBuildEventPublisher sid) = Some p ->
  wait_pc p = WaitReturned None ->
  exists es,
    enqueued p = map Some es ++ None :: events p
    /\ map Event (sent p) = map BazelEvent es ++ [ComponentStreamFinished_FINISHED]
    /\ calls p = map (fun req => Send req None) (sent p) ++ [CloseSend None]
    /\ Forall (fun req => OBE_StreamId req = sid) (sent p)
    /\ ack_pc p = AckReturned
    /\ err p = None.
Proof.
  intros Hexec Hwait.
  assert (Hinit : Reachable_inv (newBuildEventPublisher sid)).
  { split; [apply CtlInv_init | apply QInv_init | apply FinInv_init]. }
  destruct (Delivery_exec ls _ p Hinit (Delivery_init sid) Hexec)
    as [[Hctl [_ Hseq] _] [Hca Hfs Hw]].
  destruct (Hw Hwait) as (Hret & Herr & Hack & Hcalls).
  destruct Hfs as (es & Henq & Hev).
  { right. exists None. rewrite Hcalls. apply elem_of_app. right.
    apply list_elem_of_singleton. reflexivity. }
  exists es. repeat split; try assumption.
  apply Forall_lookup. intros i req Hi.
  destruct (Hseq i req Hi) as [_ ->].
  apply (exec_streamID ls _ p Hexec).
Qed.

Lemma Wait_nil_means_delivered_witness :
  exists p,
    exec clean_schedule (newBuildEventPublisher demo_sid) = Some p
    /\ exists es,
         enqueued p = map Some es ++ None :: events p
         /\ map Event (sent p) = map BazelEvent es ++ [ComponentStreamFinished_FINISHED].
Proof.
  eexists. split; [vm_compute; reflexivity|].
  match goal with |- exists es, enqueued ?p = _ /\ _ =>
    destruct (Wait_nil_means_delivered demo_sid clean_schedule p)
      as (es & H1 & H2 & _) end.
  - vm_compute. reflexivity.
  - reflexivity.
  - exists es. split; assumption.
Defined.

(** ** After Wait *)

Lemma returned_frozen_step (l : Label) (p p' : Publisher) :
  run_pc p = RunReturned -> step l p = Some p' ->
  run_pc p' = RunReturned /\ calls p' = calls p.
Proof.
  intros Hret Hstep.
  destruct l as [e| | |r|r]; simpl in Hstep.
  - unfold Publish in Hstep. repeat case_match; simplify_eq/=; auto.
  - unfold Wait_enqueue in Hstep. repeat case_match; simplify_eq/=; auto.
  - unfold Wait_receive in Hstep. repeat case_match; simplify_eq/=; auto.
  - unfold run_step in Hstep. rewrite Hret in Hstep. discriminate.
  - unfold ack_step in Hstep. repeat case_match; simplify_eq/=; auto.
Qed.

Lemma returned_frozen (ls : list Label) (p p' : Publisher) :
  run_pc p = RunReturned -> exec ls p = Some p' ->
  run_pc p' = RunReturned /\ calls p' = calls p.
Proof.
  revert p. induction ls as [|l ls IH]; intros p Hret Hexec; simpl in Hexec.
  - injection Hexec as <-. auto.
  - destruct (step l p) as [q|] eqn:Estep; [|discriminate].
    destruct (returned_frozen_step l p q Hret Estep) as [Hq Hc].
    destruct (IH q Hq Hexec) as [H1 H2]. split; [assumption | congruence].
Qed.

(** Once [Wait] has returned, whatever it returned, the stream is never
    touched again: no later move adds a call to it.  After a nil result an
    event is still accepted by [Publish], which returns nil, but it stays
    in the channel and is never sent. *)
Theorem nothing_sent_after_Wait (sid : StreamId) (ls ls' : list Label)
        (p q : Publisher) (res : option error) :
  exec ls (newBuildEventPublisher sid) = Some p ->
  wait_pc p = WaitReturned res ->
  exec ls' p = Some q ->
  calls q = calls p /\ sent q = sent p
  /\ (res = None -> forall e,
        (length (events p) < 256)%nat ->
        Publish e p = Some (None, enqueue (Some e) p)).
Proof.
  intros Hexec Hwait Hexec'.
  assert (Hinit : Reachable_inv (newBuildEventPublisher sid)).
  { split; [apply CtlInv_init | apply QInv_init | apply FinInv_init]. }
  destruct (Delivery_exec ls _ p Hinit (Delivery_init sid) Hexec)
    as [[Hctl _ _] [_ _ Hw]].
  assert (Hret : run_pc p = RunReturned).
  { apply (ctl_done p Hctl). right. eauto. }
  destruct (returned_frozen ls' p q Hret Hexec') as [_ Hcalls].
  split; [assumption|]. split; [unfold sent; now rewrite Hcalls|].
  intros -> e Hlen. destruct (Hw Hwait) as (_ & Herr & _).
  unfold Publish. rewrite Herr.
  apply Nat.ltb_lt in Hlen. unfold events_capacity. now rewrite Hlen.
Qed.

Lemma nothing_sent_after_Wait_witness :
  exists p q,
    exec clean_schedule (newBuildEventPublisher demo_sid) = Some p
    /\ exec [DoPublish (demo_event 2)] p = Some q
    /\ events q = [Some (demo_event 2)]
    /\ sent q = sent p.
Proof.
  eexists _, _. split; [vm_compute; reflexivity|]. split; [vm_compute; reflexivity|].
  split; [reflexivity|].
  match goal with |- sent ?q = sent ?p =>
    refine (proj1 (proj2 (nothing_sent_after_Wait demo_sid clean_schedule
                            [DoPublish (demo_event 2)] p q None _ _ _))) end.
  - vm_compute. reflexivity.
  - reflexivity.
  - vm_compute. reflexivity.
Defined.

(** ** A full channel and a dead publisher task *)

Lemma blocked_step (l : Label) (p p' : Publisher) :
  run_pc p = RunReturned -> wait_pc p = WaitNotCalled ->
  (events_capacity <= length (events p))%nat ->
  step l p = Some p' ->
  run_pc p' = RunReturned /\ wait_pc p' = WaitNotCalled /\ events p' = events p.
Proof.
  intros Hret Hw Hfull Hstep.
  destruct l as [e| | |r|r]; simpl in Hstep.
  - unfold Publish in Hstep. destruct (err p); simplify_eq/=; auto.
    destruct (length (events p) <? events_capacity)%nat eqn:E; [|discriminate].
    apply Nat.ltb_lt in E. lia.
  - unfold Wait_enqueue in Hstep. rewrite Hw in Hstep.
    destruct (length (events p) <? events_capacity)%nat eqn:E; [|discriminate].
    apply Nat.ltb_lt in E. lia.
  - unfold Wait_receive in Hstep. rewrite Hw in Hstep. discriminate.
  - unfold run_step in Hstep. rewrite Hret in Hstep. discriminate.
  - unfold ack_step in Hstep. repeat case_match; simplify_eq/=; auto.
Qed.

(** If [run] has returned while the channel is full, [Wait] can never get
    past its send of the sentinel: nothing receives from the channel any
    more, so the caller of [Wait] blocks for ever. *)
Theorem Wait_blocks_on_full_channel (ls : list Label) (p q : Publisher) :
  run_pc p = RunReturned -> wait_pc p = WaitNotCalled ->
  (256 <= length (events p))%nat ->
  exec ls p = Some q ->
  wait_pc q = WaitNotCalled /\ Wait_enqueue q = None.
Proof.
  intros Hret Hw Hfull Hexec.
  assert (Hgen : run_pc q = RunReturned /\ wait_pc q = WaitNotCalled
                 /\ events q = events p).
  { revert p Hret Hw Hfull Hexec.
    induction ls as [|l ls IH]; intros p Hret Hw Hfull Hexec; simpl in Hexec.
    - injection Hexec as <-. auto.
    - destruct (step l p) as [p1|] eqn:Estep; [|discriminate].
      destruct (blocked_step l p p1 Hret Hw Hfull Estep) as (H1 & H2 & H3).
      destruct (IH p1 H1 H2) as (H4 & H5 & H6); [now rewrite H3 | assumption|].
      repeat split; congruence. }
  destruct Hgen as (_ & Hwq & Hev). split; [assumption|].
  unfold Wait_enqueue. rewrite Hwq, Hev.
  destruct (length (events p) <? events_capacity)%nat eqn:E; [|reflexivity].
  apply Nat.ltb_lt in E. unfold events_capacity in E. lia.
Qed.

Lemma Wait_blocks_on_full_channel_witness :
  exists p,
    exec (flood_schedule (demo_event 0)) (newBuildEventPublisher demo_sid) = Some p
    /\ is_Some (err p)
    /\ wait_pc p = WaitNotCalled /\ Wait_enqueue p = None.
Proof.
  eexists. split; [vm_compute; reflexivity|]. split; [eexists; reflexivity|].
  match goal with |- wait_pc ?p = _ /\ _ =>
    refine (Wait_blocks_on_full_channel [] p p _ _ _ _) end.
  - reflexivity.
  - reflexivity.
  - apply Nat.leb_le. vm_compute. reflexivity.
  - reflexivity.
Defined.

(** *** The older copy of the publisher *)

Lemma ActionRunner_PreInv_step (l : Label) (p p' : Publisher) :
  PreInv p -> ActionRunnerPublisher.step l p = Some p' -> PreInv p'.
Proof.
  unfold PreInv. intros Hpre Hstep.
  destruct l as [e| | |r|r]; simpl in Hstep.
  - destruct (err p) eqn:Ee.
    + unfold Publish in Hstep. rewrite Ee in Hstep. now simplify_eq/=.
    + destruct (_ <? _)%nat; [|discriminate].
      unfold Publish in Hstep. rewrite Ee in Hstep.
      destruct (_ <? _)%nat; simplify_eq/=. assumption.
  - destruct (_ <? _)%nat; [|discriminate].
    unfold Wait_enqueue in Hstep. repeat case_match; simplify_eq/=. assumption.
  - unfold Wait_receive in Hstep. repeat case_match; simplify_eq/=. assumption.
  - unfold ActionRunnerPublisher.run_step in Hstep.
    destruct (run_pc p) as [| |s| | |] eqn:Epc; try discriminate.
    + destruct (call_err r); simplify_eq/=; [intros [Hx|Hx]; discriminate | auto].
    + destruct (call_err r); simplify_eq/=; intros [Hx|Hx]; discriminate.
    + destruct (events p) as [|[ev|] rest]; [discriminate| |];
        repeat case_match; simplify_eq/=; intros [Hx|Hx]; discriminate.
    + destruct (call_err r); simplify_eq/=; intros [Hx|Hx]; discriminate.
    + destruct (doneReceiving p); simplify_eq/=. intros [Hx|Hx]; discriminate.
  - unfold ack_step in Hstep. repeat case_match; simplify_eq/=; assumption.
Qed.

Lemma ActionRunner_QInv_step (l : Label) (p p' : Publisher) :
  PreInv p -> QInv p -> ActionRunnerPublisher.step l p = Some p' -> QInv p'.
Proof.
  intros Hpre Hq Hstep.
  destruct l as [e| | |r|r]; simpl in Hstep.
  - destruct (err p) eqn:Ee.
    + unfold Publish in Hstep. rewrite Ee in Hstep. now simplify_eq/=.
    + destruct (_ <? _)%nat; [|discriminate].
      unfold Publish in Hstep. rewrite Ee in Hstep.
      destruct (_ <? _)%nat; simplify_eq/=. eapply QInv_enqueue; eauto.
  - destruct (_ <? _)%nat; [|discriminate].
    unfold Wait_enqueue in Hstep. repeat case_match; simplify_eq/=.
    eapply QInv_enqueue; eauto.
  - unfold Wait_receive in Hstep. repeat case_match; simplify_eq/=.
    eapply QInv_frame; eauto.
  - unfold ActionRunnerPublisher.run_step in Hstep.
    destruct (run_pc p) as [| |s| | |] eqn:Epc.
    + destruct (call_err r); simplify_eq/=;
        (eapply QInv_frame; [eassumption|reflexivity..|]);
        right; rewrite Epc; split; discriminate.
    + destruct (call_err r); simplify_eq/=.
      * eapply QInv_frame; [eassumption|reflexivity..|].
        right; rewrite Epc; split; discriminate.
      * eapply QInv_open; [eassumption| | |reflexivity..].
        -- rewrite Epc. discriminate.
        -- apply Hpre. auto.
    + destruct (events p) as [|[ev|] rest] eqn:Eev; [discriminate| |].
      * destruct (marshal_err r).
        -- simplify_eq/=. eapply QInv_marshal_fail; eauto.
        -- destruct (call_err r) eqn:Ece; simplify_eq/=.
           ++ eapply (QInv_send p (Some ev) rest s 0 (Some e) RunReturned);
                eauto; try discriminate.
           ++ eapply (QInv_send p (Some ev) rest s 0 None (AtLoop (wrap64 (s + 1))));
                eauto.
              intros s' [= <-]. split; [eexists; reflexivity | reflexivity].
      * destruct (call_err r) eqn:Ece; simplify_eq/=.
        -- eapply (QInv_send p None rest s (now r) (Some e) RunReturned);
             eauto; try discriminate.
        -- eapply (QInv_send p None rest s (now r) None RunReturned);
             eauto; try discriminate.
    + destruct (call_err r); simplify_eq/=;
        (eapply QInv_frame; [eassumption|reflexivity..| |]);
        try (unfold sent; simpl; rewrite omap_app; simpl; apply app_nil_r);
        right; rewrite Epc; split; discriminate.
    + destruct (doneReceiving p); simplify_eq/=.
      eapply QInv_frame; [eassumption|reflexivity..|].
      right; rewrite Epc; split; discriminate.
    + discriminate.
  - unfold ack_step in Hstep. repeat case_match; simplify_eq/=;
      try assumption; eapply QInv_frame; eauto.
Qed.

Lemma ActionRunner_reachable_QInv (sid : StreamId) (ls : list Label) (p : Publisher) :
  ActionRunnerPublisher.exec ls (newBuildEventPublisher sid) = Some p -> QInv p.
Proof.
  assert (Hgen : forall ls q q', PreInv q -> QInv q ->
             ActionRunnerPublisher.exec ls q = Some q' -> QInv q').
  { clear. induction ls as [|l ls IH]; intros q q' Hp Hq Hexec; simpl in Hexec.
    - now injection Hexec as <-.
    - destruct (ActionRunnerPublisher.step l q) as [q1|] eqn:Estep; [|discriminate].
      apply (IH q1 q'); [| |assumption].
      + eapply ActionRunner_PreInv_step; eauto.
      + eapply ActionRunner_QInv_step; eauto. }
  apply Hgen; [intros _; reflexivity | apply QInv_init].
Qed.

(** The older copy numbers the envelopes the same way: once its publisher
    task has taken the sentinel off the channel, the envelopes handed to
    [stream.Send] are the [N] events published before it, in order and
    numbered 1 to [N], followed by the finished marker numbered [N+1]. *)
Theorem ActionRunner_wire_sequence_numbers (sid : StreamId) (ls : list Label)
        (p : Publisher) (es : list BuildEvent) (rest : list (option BuildEvent)) :
  ActionRunnerPublisher.exec ls (newBuildEventPublisher sid) = Some p ->
  enqueued p = map Some es ++ None :: rest ->
  (length (events p) + length es < length (enqueued p))%nat ->
  Z.of_nat (length es) + 1 < 2 ^ 63 ->
  wire_view p = number_from 1 (map BazelEvent es ++ [ComponentStreamFinished_FINISHED]).
Proof.
  intros Hexec Henq Hdeq Hbound.
  destruct (ActionRunner_reachable_QInv sid ls p Hexec) as [Hsplit Hseq].
  destruct Hsplit as (sq & dr & Hq & Hmap & Hlast & Hdrop & _).
  assert (Hlen : (length es < length (sq ++ dr))%nat).
  { rewrite Hq in Hdeq. rewrite !length_app in *. lia. }
  assert (Hsentinel : (sq ++ dr) !! length es = Some None).
  { rewrite <- (lookup_app_l _ (events p)) by assumption.
    rewrite <- app_assoc, <- Hq, Henq.
    rewrite <- (length_map Some es) at 1. apply list_lookup_middle. reflexivity. }
  assert (Hdr : dr = []).
  { destruct Hdrop as [->|[_ Hall]]; [reflexivity|].
    exfalso. eapply Forall_is_Some_no_None; eauto. }
  subst dr. rewrite app_nil_r in *. simpl in Hq.
  apply Hlast in Hsentinel.
  assert (Hsq : sq = map Some es ++ [None]).
  { rewrite Henq, (cons_middle None (map Some es) rest), app_assoc in Hq.
    symmetry in Hq. apply app_inj_1 in Hq as [Hsq _]; [assumption|].
    rewrite length_app, length_map. simpl. lia. }
  unfold wire_view. rewrite (wire_view_numbered (sent p) 1).
  - rewrite Hmap, Hsq, map_app, map_map. reflexivity.
  - intros i req Hi. destruct (Hseq i req Hi) as [-> _].
    assert (i < length (sent p))%nat by (eapply lookup_lt_Some; eauto).
    assert (length (sent p) = length sq) by (eapply map_length_eq; eauto).
    rewrite wrap64_small; lia.
Qed.

Lemma ActionRunner_wire_sequence_numbers_witness :
  exists p,
    ActionRunnerPublisher.exec
      [DoRun reply_ok; DoRun reply_ok; DoPublish (demo_event 0); DoRun reply_ok;
       DoWaitEnqueue; DoRun reply_ok; DoWaitReceive]
      (newBuildEventPublisher demo_sid) = Some p
    /\ wire_view p = [(1, BazelEvent (demo_event 0)); (2, ComponentStreamFinished_FINISHED)].
Proof.
  eexists. split; [vm_compute; reflexivity|].
  refine (ActionRunner_wire_sequence_numbers demo_sid
            [DoRun reply_ok; DoRun reply_ok; DoPublish (demo_event 0); DoRun reply_ok;
             DoWaitEnqueue; DoRun reply_ok; DoWaitReceive] _
            [demo_event 0] [] _ _ _ _).
  - vm_compute. reflexivity.
  - reflexivity.
  - simpl. lia.
  - reflexivity.
Defined.

(** ** Properties: shell tokens determine their arguments *)

Lemma append_inj_r (a b c : string) : a +:+ c = b +:+ c -> a = b.
Proof.
  revert b. induction a as [|x a IH]; intros [|y b] H; simpl in H.
  - reflexivity.
  - apply (f_equal String.length) in H. simpl in H. rewrite length_append in H. lia.
  - apply (f_equal String.length) in H. simpl in H. rewrite length_append in H. lia.
  - injection H as -> H. f_equal. now apply IH.
Qed.

Lemma escape_quotes_inj (a b : string) : escape_quotes a = escape_quotes b -> a = b.
Proof.
  revert b. induction a as [|x a IH]; intros [|y b]; simpl;
    unfold squote_escape, squote, dquote; simpl.
  - reflexivity.
  - destruct (Ascii.eqb y "039"%char); discriminate.
  - destruct (Ascii.eqb x "039"%char); discriminate.
  - destruct (Ascii.eqb_spec x "039"%char) as [->|Hx];
      destruct (Ascii.eqb_spec y "039"%char) as [->|Hy]; simpl; intros H.
    + injection H as H. f_equal. now apply IH.
    + injection H as Hq _. congruence.
    + injection H as Hq _. congruence.
    + injection H as -> H. f_equal. now apply IH.
Qed.

(** Distinct arguments are printed differently: [toShellToken] is
    injective, so the token shown for an argument determines it. *)
Theorem toShellToken_injective (a b : string) :
  a <> b -> toShellToken a <> toShellToken b.
Proof.
  assert (Hsafe : forall s t, all_chars shell_safe_char s = true ->
                    s = squote +:+ t -> False).
  { intros s t Hs ->. discriminate Hs. }
  intros Hne H. apply Hne. revert H.
  unfold toShellToken. rewrite !MatchString_all_chars, !ReplaceAll_squote.
  destruct (all_chars shell_safe_char a) eqn:Ea;
    destruct (all_chars shell_safe_char b) eqn:Eb; simpl; intros H.
  - exact H.
  - exfalso. eapply Hsafe; [exact Ea | exact H].
  - exfalso. eapply Hsafe; [exact Eb | symmetry; exact H].
  - injection H as H.
    apply append_inj_r in H. now apply escape_quotes_inj.
Qed.

Lemma toShellToken_injective_witness :
  toShellToken "it's" <> toShellToken "it"
  /\ toShellToken "a b" <> toShellToken "a  b".
Proof.
  split.
  - apply (toShellToken_injective "it's" "it"). discriminate.
  - apply (toShellToken_injective "a b" "a  b"). discriminate.
Defined.

(** ** Properties: the runner's log, stream opening and command loop *)

Lemma list_byte_of_string_app (a b : string) :
  String.list_byte_of_string (a +:+ b)
  = String.list_byte_of_string a ++ String.list_byte_of_string b.
Proof.
  unfold String.list_byte_of_string.
  induction a as [|c a IH]; simpl; [reflexivity | now f_equal].
Qed.

Lemma wf_len_pending (st : LogState) :
  LogState_wf st -> len (log_Buffer st) = length (pending st).
Proof.
  unfold LogState_wf, Buffer_wf, pending, slice_bytes.
  destruct (arr (log_Buffer st)) as [a|].
  - intros (bytes & -> & Hc & Hl). simpl. rewrite length_take. lia.
  - intros [-> _]. reflexivity.
Qed.

Lemma newInvocationLog_wf (h : heap) :
  LogState_wf (newInvocationLog h) /\ pending (newInvocationLog h) = [].
Proof. split; [split; reflexivity | reflexivity]. Qed.

Section RunnerFacts2.

Variable env : Env.
Variable flags : Flags.

(** *** The write listener *)

Lemma flushProgress_empties (w : World) :
  buffered (snd (flushProgress env w)) = 0
  /\ w_listener (snd (flushProgress env w)) = w_listener w
  /\ w_flusher (snd (flushProgress env w)) = w_flusher w.
Proof.
  unfold flushProgress, invocationLog_Consume, buffered. cbn [fst snd].
  destruct (len _ =? 0)%nat; [auto|].
  unfold bep_Publish. cbn. destruct (latched env (w_publishes w)); auto.
Qed.

Lemma Write_below_threshold (b : list byte) (w : World) :
  w_listener w = true ->
  buffered (snd (Write env b w)) < progressFlushThresholdBytes
  /\ w_listener (snd (Write env b w)) = true.
Proof.
  intros Hl. unfold Write.
  destruct (invocationLog_Write b (w_log w)) as [n lg].
  unfold bind, writeListener. cbn [w_listener set_log]. rewrite Hl.
  cbn [w_log set_log].
  destruct (progressFlushThresholdBytes <=? Z.of_nat (Buffer_Len (log_Buffer lg))) eqn:E.
  - destruct (flushProgress_empties (set_log lg w)) as (H0 & H1 & _).
    unfold bind.
    destruct (flushProgress env (set_log lg w)) as [[r| |] w1];
      cbn [fst snd ret] in *; rewrite H0, H1; (split; [reflexivity | exact Hl]).
  - apply Z.leb_gt in E. cbn [fst snd ret]. split; [exact E | exact Hl].
Qed.

Lemma flusher_tick_below_threshold (w : World) :
  w_listener w = true -> buffered w < progressFlushThresholdBytes ->
  buffered (snd (flusher_tick env w)) < progressFlushThresholdBytes
  /\ w_listener (snd (flusher_tick env w)) = true.
Proof.
  intros Hl Hb. unfold flusher_tick.
  destruct (w_flusher w) as [f|]; [|auto].
  destruct (flusher_step SelectTimer f) as [f'|]; [|auto].
  destruct (flushProgress_empties (set_flusher (Some f') w)) as (H0 & H1 & _).
  unfold bind.
  destruct (flushProgress env (set_flusher (Some f') w)) as [[r| |] w1];
    cbn [fst snd ret] in *; rewrite H0, H1; (split; [reflexivity | exact Hl]).
Qed.

Lemma play_below_threshold (evs : list CmdEvent) (w : World) :
  w_listener w = true -> buffered w < progressFlushThresholdBytes ->
  buffered (snd (play env evs w)) < progressFlushThresholdBytes
  /\ w_listener (snd (play env evs w)) = true.
Proof.
  revert w. induction evs as [|[b|] evs IH]; intros w Hl Hb; cbn [play].
  - auto.
  - destruct (Write_below_threshold b w Hl) as [H1 H2].
    destruct (log_only_Write env b w) as (n & w1 & Hw & _).
    unfold bind. rewrite Hw in *. cbn [fst snd] in *. now apply IH.
  - destruct (flusher_tick_below_threshold w Hl Hb) as [H1 H2].
    destruct (log_only_flusher_tick env w) as ([] & w1 & Hw & _).
    unfold bind. rewrite Hw in *. cbn [fst snd] in *. now apply IH.
Qed.

(** With the listener of [Run] installed, the log never holds 1000 bytes
    or more once a write has returned, whatever is written; and whatever the
    child prints and whenever the timer fires, fewer than 1000 bytes wait in
    the buffer when [runCommand] returns. *)
Theorem listener_bounds_the_log (w : World) :
  w_listener w = true ->
  (forall b, buffered (snd (Write env b w)) < 1000)
  /\ (buffered w < 1000 -> forall args, buffered (snd (runCommand env args w)) < 1000).
Proof.
  intros Hl. split.
  - intros b. apply (Write_below_threshold b w Hl).
  - intros Hb args. unfold runCommand.
    destruct (play_below_threshold (cmd_events (cmd_Run env (w_commands w) args))
                (count_command w) Hl Hb) as [H1 _].
    destruct (log_only_play env (cmd_events (cmd_Run env (w_commands w) args))
                (count_command w)) as ([] & w1 & Hw & _).
    unfold bind. rewrite Hw in *. exact H1.
Qed.

(** *** Actions that are not triggered *)

(** [RunAllActions] behaves as on the configuration restricted to the
    actions whose triggers match; when none matches it returns at once:
    no UUID is drawn, no event is published and no command is run. *)
Theorem untriggered_actions_are_skipped (cfg : BuildBuddyConfig) (w : World) :
  RunAllActions env flags cfg w
  = RunAllActions env flags
      {| Actions := List.filter (triggered flags) (Actions cfg) |} w
  /\ ((forall action, In action (Actions cfg) -> triggered flags action = false) ->
      RunAllActions env flags cfg w = (Returned tt, w)).
Proof.
  unfold RunAllActions, triggered. cbn [Actions].
  set (h := match os_Hostname env with (_, Some _) => "" | (h, None) => h end).
  set (u := match user_Current env with (_, Some _) => "" | (u, None) => u end).
  split.
  - revert w. induction (Actions cfg) as [|a rest IH]; intros w; [reflexivity|].
    cbn [List.filter run_actions].
    destruct (matchesAnyTrigger a (triggerEvent flags) (triggerBranch flags)) eqn:E.
    + cbn [negb run_actions]. rewrite E. cbn [negb]. unfold bind.
      destruct (runAction env flags u h a w) as [[[]| |] w1]; auto.
    + cbn [negb]. apply IH.
  - revert w. induction (Actions cfg) as [|a rest IH]; intros w Hno; [reflexivity|].
    cbn [run_actions]. rewrite (Hno a (or_introl eq_refl)). cbn [negb].
    apply IH. intros a' Ha'. apply Hno. now right.
Qed.

(** *** The opening of an action's stream *)

Lemma Printf_quiet (text : string) (w : World) :
  w_listener w = false ->
  Printf env text w
  = (Returned tt,
     set_log (snd (invocationLog_Write (String.list_byte_of_string (text +:+ nl))
                     (w_log w))) w).
Proof.
  intros Hl. unfold Printf, Write, bind.
  destruct (invocationLog_Write _ (w_log w)) as [n lg].
  unfold writeListener. cbn [w_listener set_log]. rewrite Hl. reflexivity.
Qed.

Lemma Run_prelude_spec (action : Action) (w : World) :
  w_listener w = false -> LogState_wf (w_log w) ->
  exists lg,
    Run_prelude env flags action w = (Returned tt, set_log lg w)
    /\ LogState_wf lg
    /\ pending lg
       = pending (w_log w)
         ++ String.list_byte_of_string (Run_header env flags action (w_streamID w)).
Proof.
  intros Hl Hwf. unfold Run_prelude, bind.
  rewrite (Printf_quiet _ w Hl).
  destruct (Write_pending
              (String.list_byte_of_string (("Action:          " +:+ Name action) +:+ nl))
              (w_log w) Hwf) as [Hwf1 Hp1].
  set (st1 := snd (invocationLog_Write _ (w_log w))) in *.
  rewrite (Printf_quiet _ (set_log st1 w) Hl). cbn [w_log set_log].
  match goal with |- context [invocationLog_Write ?b st1] =>
    destruct (Write_pending b st1 Hwf1) as [Hwf2 Hp2];
    set (st2 := snd (invocationLog_Write b st1)) in * end.
  match goal with |- context [Printf env ?t ?w2] =>
    rewrite (Printf_quiet t w2 Hl) end.
  cbn [w_log set_log w_streamID].
  match goal with |- context [invocationLog_Write ?b st2] =>
    destruct (Write_pending b st2 Hwf2) as [Hwf3 Hp3];
    set (st3 := snd (invocationLog_Write b st2)) in * end.
  match goal with |- context [Printf env ?t ?w3] =>
    rewrite (Printf_quiet t w3 Hl) end.
  cbn [w_log set_log w_streamID].
  match goal with |- context [invocationLog_Write ?b st3] =>
    destruct (Write_pending b st3 Hwf3) as [Hwf4 Hp4];
    set (st4 := snd (invocationLog_Write b st3)) in * end.
  exists st4. split; [reflexivity|]. split; [exact Hwf4|].
  rewrite Hp4, Hp3, Hp2, Hp1. unfold Run_header.
  rewrite !list_byte_of_string_app, <- !app_assoc. reflexivity.
Qed.

Lemma flushProgress_publishes (w : World) :
  LogState_wf (w_log w) -> pending (w_log w) <> [] ->
  latched env (w_publishes w) = None ->
  exists lg,
    flushProgress env w
    = (Returned None,
       count_publish
         (add_event
            (Some {| Id := Id_Progress (w_progressCount w);
                     Children := [Id_Progress (wrap32 (w_progressCount w + 1))];
                     Payload_of :=
                       Payload_Progress (String.string_of_list_byte (pending (w_log w)));
                     LastMessage := false |})
            (set_progressCount (wrap32 (w_progressCount w + 1)) (set_log lg w))))
    /\ LogState_wf lg /\ pending lg = [].
Proof.
  intros Hwf Hne Hlatch. unfold flushProgress.
  destruct (Consume_pending (w_log w) Hwf) as (Hwf' & Hp & Hs).
  pose proof (wf_len_pending (w_log w) Hwf) as Hlen.
  destruct (invocationLog_Consume (w_log w)) as [buf lg] eqn:Ec.
  cbn [fst snd] in *.
  assert (Hbuf : len buf = len (log_Buffer (w_log w))).
  { unfold invocationLog_Consume in Ec. now injection Ec as <- _. }
  destruct (len buf =? 0)%nat eqn:E0.
  - apply Nat.eqb_eq in E0. exfalso. apply Hne. apply length_zero_iff_nil. congruence.
  - exists lg. split; [|auto].
    unfold bep_Publish. cbn [w_publishes set_progressCount set_log].
    rewrite Hlatch, Hs. reflexivity.
Qed.

Lemma Run_header_nonempty (action : Action) (sid : StreamId) :
  String.list_byte_of_string (Run_header env flags action sid) <> [].
Proof. discriminate. Qed.

(** What [Run] has done when it reaches the command loop: from a fresh
    runner, with the first three calls of [Publish] accepted. *)
Lemma Run_opening (u h : string) (action : Action) (sid : StreamId) (w0 : World) :
  latched env (w_publishes w0) = None ->
  latched env (S (w_publishes w0)) = None ->
  latched env (S (S (w_publishes w0))) = None ->
  exists w5,
    Run env flags u h action (new_actionRunner sid w0)
    = with_defer stopFlushingProgress
        (run_commands env u h (BazelCommands action)) w5
    /\ w_events w5 = w_events w0 ++ opening_events env flags u h action sid
    /\ w_flusher w5 = Some startBackgroundProgressFlush
    /\ w_listener w5 = true
    /\ buffered w5 = 0
    /\ w_streamID w5 = sid
    /\ w_commands w5 = w_commands w0 /\ w_waits w5 = w_waits w0
    /\ w_uuids w5 = w_uuids w0.
Proof.
  intros H1 H2 H3. rewrite Run_unfold.
  destruct (newInvocationLog_wf (log_heap (w_log w0))) as [Hwf0 Hp0].
  destruct (Run_prelude_spec action (new_actionRunner sid w0) eq_refl Hwf0)
    as (lg & -> & Hwf & Hp).
  cbn [w_log new_actionRunner w_streamID] in Hp. rewrite Hp0 in Hp. simpl in Hp.
  unfold bep_Publish at 1. cbn [w_publishes set_log new_actionRunner]. rewrite H1.
  match goal with |- context [flushProgress env ?w2] =>
    destruct (flushProgress_publishes w2) as (lg' & -> & Hwf' & Hp') end.
  { exact Hwf. }
  { cbn [w_log count_publish add_event set_log]. rewrite Hp.
    apply Run_header_nonempty. }
  { exact H2. }
  unfold bep_Publish at 1.
  cbn [w_publishes count_publish add_event set_progressCount set_log new_actionRunner].
  rewrite H3.
  eexists. split; [reflexivity|].
  cbn [w_events w_flusher w_listener w_streamID w_commands w_waits w_uuids w_log
       w_progressCount set_flusher set_listener count_publish add_event
       set_progressCount set_log new_actionRunner startedEvent].
  rewrite Hp, String.string_of_list_byte_of_string.
  split; [|split; [reflexivity|split; [reflexivity|split; [|repeat split]]]].
  - unfold opening_events. rewrite <- !app_assoc. reflexivity.
  - unfold buffered, Buffer_Len.
    cbn [w_log set_flusher set_listener count_publish add_event set_progressCount
         set_log].
    rewrite (wf_len_pending lg' Hwf'), Hp'. reflexivity.
Qed.

Lemma run_commands_appends (u h : string) (cmds : list string) (w : World) :
  exists more, w_events (snd (run_commands env u h cmds w)) = w_events w ++ more.
Proof.
  revert w. induction cmds as [|cmd rest IH]; intros w.
  - exists []. simpl. now rewrite app_nil_r.
  - rewrite run_commands_cons.
    destruct (bazelArgs (shlex_Split env) cmd) as [[args [err|]]| |];
      try (exists []; simpl; now rewrite app_nil_r).
    destruct (command_round_spec env u h args w) as (w3 & -> & _ & _ & _ & _ & m3 & He3).
    destruct (log_only_flushProgress env w3) as (ferr & w4 & -> & _ & _ & _ & _ & m4 & He4).
    destruct ferr as [e|].
    + exists (m3 ++ m4). simpl. rewrite He4, He3, app_assoc. reflexivity.
    + destruct (cmd_result _).
      * exists (m3 ++ m4). simpl. rewrite He4, He3, app_assoc. reflexivity.
      * destruct (IH w4) as (m & Hm). exists (m3 ++ m4 ++ m).
        rewrite Hm, He4, He3, <- !app_assoc. reflexivity.
Qed.

Lemma with_defer_stop_events (u h : string) (cmds : list string) (w : World) :
  w_events (snd (with_defer stopFlushingProgress (run_commands env u h cmds) w))
  = w_events (snd (run_commands env u h cmds w)).
Proof.
  unfold with_defer, stopFlushingProgress.
  destruct (run_commands env u h cmds w) as [[r| |] w1]; cbn [fst snd]; try reflexivity;
    destruct (w_flusher w1) as [f|]; try reflexivity;
    destruct (flusher_step CallStop f); reflexivity.
Qed.

(** Every action's stream opens the same way.  From a fresh runner, when
    the first three calls of [Publish] are accepted, the first events [Run]
    puts on the channel are: Started, announcing Progress 0, WorkspaceStatus
    and BuildFinished; Progress 0, whose text is exactly the four header
    lines and which announces Progress 1; and WorkspaceStatus. *)
Theorem Run_opening_events (u h : string) (action : Action) (sid : StreamId)
        (w0 : World) :
  latched env (w_publishes w0) = None ->
  latched env (S (w_publishes w0)) = None ->
  latched env (S (S (w_publishes w0))) = None ->
  exists more,
    w_events (snd (Run env flags u h action (new_actionRunner sid w0)))
    = w_events w0 ++ opening_events env flags u h action sid ++ more.
Proof.
  intros H1 H2 H3.
  destruct (Run_opening u h action sid w0 H1 H2 H3) as (w5 & -> & He & _).
  rewrite with_defer_stop_events.
  destruct (run_commands_appends u h (BazelCommands action) w5) as (more & ->).
  exists more. rewrite He, <- app_assoc. reflexivity.
Qed.

(** *** A command that tokenises to nothing *)

(** A bazel command that tokenises to no token at all (an empty command
    line) crashes the runner.  When the first command of a triggered action
    is such a command, [Run] panics at [tokens[0]] right after the opening
    of the stream; its deferred stop function still runs, but the panic
    ends the loop of [RunAllActions]: no command is run, no BuildFinished
    event is published, [Wait] is never called, so the sentinel is never
    sent, and the actions that follow are not run.  The process dies with
    status 2. *)
Theorem empty_command_crashes_the_runner (u h : string) (action : Action)
        (rest : list Action) (w : World) (id1 id2 cmd : string) (cmds : list string) :
  matchesAnyTrigger action (triggerEvent flags) (triggerBranch flags) = true ->
  uuid_NewRandom env (w_uuids w) = Some id1 ->
  uuid_NewRandom env (S (w_uuids w)) = Some id2 ->
  latched env (w_publishes w) = None ->
  latched env (S (w_publishes w)) = None ->
  latched env (S (S (w_publishes w))) = None ->
  BazelCommands action = cmd :: cmds ->
  shlex_Split env cmd = ([], None) ->
  exists msg w',
    run_actions env flags u h (action :: rest) w = (Panicked msg, w')
    /\ exit_status (fst (run_actions env flags u h (action :: rest) w)) = 2
    /\ w_events w'
       = w_events w
         ++ opening_events env flags u h action {| InvocationId := id1; BuildId := id2 |}
    /\ w_waits w' = w_waits w
    /\ w_commands w' = w_commands w
    /\ w_flusher w' = Some {| stop := 1; flusher_pc := AtSelect; flush_calls := 0 |}.
Proof.
  intros Htrig Hid1 Hid2 H1 H2 H3 Hcmds Hsplit.
  set (sid := {| InvocationId := id1; BuildId := id2 |}).
  assert (Hrun : exists msg w',
             run_actions env flags u h (action :: rest) w = (Panicked msg, w')
             /\ w_events w' = w_events w ++ opening_events env flags u h action sid
             /\ w_waits w' = w_waits w
             /\ w_commands w' = w_commands w
             /\ w_flusher w'
                = Some {| stop := 1; flusher_pc := AtSelect; flush_calls := 0 |}).
  { cbn [run_actions]. rewrite Htrig. cbn [negb].
    unfold bind at 1. unfold runAction.
    unfold bind at 1. rewrite (newUUID_ok env id1 w Hid1).
    unfold bind at 1. rewrite (newUUID_ok env id2 (count_uuid w) Hid2).
    unfold bind at 1. unfold bind at 1. fold sid.
    destruct (Run_opening u h action sid (count_uuid (count_uuid w)) H1 H2 H3)
      as (w5 & -> & He & Hfl & Hl & Hb & Hs & Hc & Hw & Hu).
    rewrite Hcmds. unfold with_defer. rewrite run_commands_cons.
    unfold bazelArgs. rewrite Hsplit.
    unfold stopFlushingProgress. rewrite Hfl.
    cbn [flusher_step startBackgroundProgressFlush stop Nat.ltb Nat.leb].
    eexists _, _. split; [reflexivity|].
    cbn [w_events w_waits w_commands w_flusher set_flusher flusher_pc flush_calls].
    rewrite He, Hw, Hc. repeat split. }
  destruct Hrun as (msg & w' & Hrun & Hfacts).
  exists msg, w'. rewrite Hrun. split; [reflexivity|]. split; [reflexivity|].
  exact Hfacts.
Qed.

(** *** The command loop stops at the first failure *)

Lemma Run_reaches_commands (u h : string) (action : Action) (w : World) :
  (forall k, latched env k = None) ->
  exists w5,
    Run env flags u h action w
    = with_defer stopFlushingProgress
        (run_commands env u h (BazelCommands action)) w5
    /\ w_commands w5 = w_commands w /\ w_streamID w5 = w_streamID w
    /\ w_waits w5 = w_waits w /\ w_uuids w5 = w_uuids w
    /\ exists more, w_events w5 = w_events w ++ more.
Proof.
  intros Hpub. rewrite Run_unfold.
  destruct (log_only_Run_prelude env flags action w)
    as ([] & w1 & -> & Hs1 & Hc1 & Hu1 & Hw1 & m1 & He1).
  rewrite (Publish_ok env) by assumption.
  set (w2 := count_publish (add_event (Some (startedEvent env w1)) w1)).
  destruct (log_only_flushProgress env w2)
    as (r3 & w3 & Hf & Hs3 & Hc3 & Hu3 & Hw3 & m3 & He3).
  destruct (flushProgress_ok env w2 Hpub) as (w3' & Hf' & _).
  rewrite Hf in Hf'. injection Hf' as -> <-. rewrite Hf.
  rewrite (Publish_ok env) by assumption.
  eexists. split; [reflexivity|].
  cbn [w_commands w_streamID w_waits w_uuids w_events set_flusher set_listener
       count_publish add_event].
  subst w2. cbn [w_commands w_streamID w_waits w_uuids w_events count_publish add_event]
    in Hs3, Hc3, Hu3, Hw3, He3.
  repeat split; try congruence.
  eexists. rewrite He3, He1, <- !app_assoc. reflexivity.
Qed.

Lemma run_commands_pre (u h : string) (pre rest : list string) (w : World) :
  (forall k, latched env k = None) ->
  all_succeed env pre (w_commands w) ->
  exists w',
    run_commands env u h (pre ++ rest) w = run_commands env u h rest w'
    /\ w_commands w' = (w_commands w + length pre)%nat
    /\ w_streamID w' = w_streamID w
    /\ w_waits w' = w_waits w /\ w_uuids w' = w_uuids w.
Proof.
  intros Hpub. revert w. induction pre as [|cmd pre IH]; intros w Hall.
  - exists w. simpl. rewrite Nat.add_0_r. auto.
  - destruct Hall as (args & Hb & Hres & Hall).
    cbn [app]. rewrite run_commands_cons, Hb.
    destruct (command_round_spec env u h args w)
      as (w3 & -> & Hs3 & Hc3 & Hu3 & Hw3 & m3 & He3).
    destruct (log_only_flushProgress env w3)
      as (r4 & w4 & Hf & Hs4 & Hc4 & Hu4 & Hw4 & m4 & He4).
    destruct (flushProgress_ok env w3 Hpub) as (w4' & Hf' & _).
    rewrite Hf in Hf'. injection Hf' as -> <-. rewrite Hf, Hres.
    destruct (IH w4) as (w' & Hrun & Hc & Hs & Hw & Hu).
    { rewrite Hc4, Hc3. exact Hall. }
    exists w'. split; [exact Hrun|]. cbn [length].
    repeat split; try congruence; try lia.
Qed.

Lemma stop_keeps_counts (w : World) :
  w_commands (stopFlushingProgress w) = w_commands w
  /\ w_streamID (stopFlushingProgress w) = w_streamID w
  /\ w_waits (stopFlushingProgress w) = w_waits w
  /\ w_uuids (stopFlushingProgress w) = w_uuids w
  /\ w_events (stopFlushingProgress w) = w_events w.
Proof.
  unfold stopFlushingProgress. destruct (w_flusher w) as [f|]; [|auto].
  destruct (flusher_step CallStop f); auto.
Qed.

Lemma Run_first_failure_any (u h : string) (action : Action)
      (pre post : list string) (cmd : string) (w : World) :
  (forall k, latched env k = None) ->
  BazelCommands action = pre ++ cmd :: post ->
  all_succeed env pre (w_commands w) ->
  (forall args e,
      bazelArgs (shlex_Split env) cmd = Returned (args, None) ->
      cmd_result (cmd_Run env (w_commands w + length pre) args) = Some e ->
      exists w',
        Run env flags u h action w = (Returned (Some e), w')
        /\ w_commands w' = S (w_commands w + length pre))
  /\ (forall tokens cause,
        shlex_Split env cmd = (tokens, Some cause) ->
        exists w',
          Run env flags u h action w
          = (Returned (Some (ErrFmt "failed to parse bazel command: " cause)), w')
          /\ w_commands w' = (w_commands w + length pre)%nat).
Proof.
  intros Hpub Hcmds Hall.
  destruct (Run_reaches_commands u h action w Hpub)
    as (w5 & Hrun & Hc5 & Hs5 & Hw5 & Hu5 & m5 & He5).
  rewrite Hrun, Hcmds. unfold with_defer.
  destruct (run_commands_pre u h pre (cmd :: post) w5 Hpub) as (w6 & -> & Hc6 & _).
  { rewrite Hc5. exact Hall. }
  rewrite run_commands_cons. split.
  - intros args e Hb Hres. rewrite Hb.
    destruct (command_round_spec env u h args w6)
      as (w7 & -> & Hs7 & Hc7 & Hu7 & Hw7 & m7 & He7).
    destruct (log_only_flushProgress env w7)
      as (r8 & w8 & Hf & Hs8 & Hc8 & Hu8 & Hw8 & m8 & He8).
    destruct (flushProgress_ok env w7 Hpub) as (w8' & Hf' & _).
    rewrite Hf in Hf'. injection Hf' as -> <-. rewrite Hf.
    rewrite Hc6, Hc5, Hres. eexists. split; [reflexivity|].
    destruct (stop_keeps_counts w8) as (-> & _). lia.
  - intros tokens cause Hsp. unfold bazelArgs. rewrite Hsp.
    eexists. split; [reflexivity|].
    destruct (stop_keeps_counts w6) as (-> & _). lia.
Qed.

(** [Run] stops at the first command that fails.  When every call of
    [Publish] is accepted and the commands before it tokenise and succeed:
    if the command's child fails, with whatever error, [Run] returns that
    error; if the command cannot be tokenised, [Run] returns the parse error
    and the command is never run.  In both cases the commands that follow
    are never run. *)
Theorem Run_stops_at_first_failure (u h : string) (action : Action)
        (pre post : list string) (cmd : string) (w : World) :
  (forall k, latched env k = None) ->
  BazelCommands action = pre ++ cmd :: post ->
  all_succeed env pre (w_commands w) ->
  (forall args e,
      bazelArgs (shlex_Split env) cmd = Returned (args, None) ->
      cmd_result (cmd_Run env (w_commands w + length pre) args) = Some e ->
      exists w',
        Run env flags u h action w = (Returned (Some e), w')
        /\ w_commands w' = S (w_commands w + length pre))
  /\ (forall tokens cause,
        shlex_Split env cmd = (tokens, Some cause) ->
        exists w',
          Run env flags u h action w
          = (Returned (Some (ErrFmt "failed to parse bazel command: " cause)), w')
          /\ w_commands w' = (w_commands w + length pre)%nat).
Proof. apply Run_first_failure_any. Qed.

(** *** What BuildFinished reports *)

Lemma runAction_after_Run (u h : string) (action : Action) (w w1 : World)
      (id1 id2 : string) (r : option error) :
  publishing_succeeds env ->
  uuid_NewRandom env (w_uuids w) = Some id1 ->
  uuid_NewRandom env (S (w_uuids w)) = Some id2 ->
  let sid := {| InvocationId := id1; BuildId := id2 |} in
  Run env flags u h action (new_actionRunner sid (count_uuid (count_uuid w)))
  = (Returned r, w1) ->
  w_streamID w1 = sid ->
  exists w',
    runAction env flags u h action w = (Returned tt, w')
    /\ In (sid,
           Some (buildFinishedEvent env
                   match r with
                   | None => 0
                   | Some err =>
                       if getExitCode (Some err) =? noExitCode then 1
                       else getExitCode (Some err)
                   end))
          (w_events w')
    /\ w_commands w' = w_commands w1.
Proof.
  intros [Hpub Hwait] Hid1 Hid2 sid Hrun Hs1. unfold runAction.
  unfold bind at 1. rewrite (newUUID_ok env id1 w Hid1).
  unfold bind at 1. rewrite (newUUID_ok env id2 (count_uuid w) Hid2).
  unfold bind at 1. unfold bind at 1. fold sid. rewrite Hrun.
  assert (Htail : forall c w2,
             w_streamID w2 = sid ->
             exists w',
               (let* _ := flushProgress env in
                let* _ := bep_Publish env (buildFinishedEvent env c) in
                let* _ := bep_Publish env (buildToolLogsEvent env) in
                let* werr := bep_Wait env in
                match werr with
                | Some err =>
                    fatal (status_UnavailableErrorf
                             ("failed to publish build event for action "
                              +:+ strconv_Quote env (Name action) +:+ ": "
                              +:+ error_text err))
                | None => ret tt
                end) w2 = (Returned tt, w')
               /\ In (sid, Some (buildFinishedEvent env c)) (w_events w')
               /\ w_commands w' = w_commands w2).
  { intros c w2 Hs2.
    destruct (log_only_flushProgress env w2)
      as (fr & w3 & Hf & Hs3 & Hc3 & _).
    unfold bind at 1. rewrite Hf.
    unfold bind at 1. rewrite (Publish_ok env) by assumption.
    unfold bind at 1. rewrite (Publish_ok env) by assumption.
    unfold bind at 1. unfold bep_Wait. rewrite Hwait.
    eexists. split; [reflexivity|]. split.
    - simpl. rewrite !in_app_iff. left. left. right. left.
      f_equal. congruence.
    - simpl. exact Hc3. }
  destruct r as [e|].
  - match goal with |- context [Printf_format env ?t] =>
      destruct (log_only_Printf_format env t w1) as ([] & w2 & Hp & Hs2 & Hc2 & _) end.
    unfold bind at 1. unfold bind at 1. rewrite Hp. unfold ret at 1.
    destruct (Htail (if getExitCode (Some e) =? noExitCode then 1
                     else getExitCode (Some e)) w2) as (w' & Ht & Hin & Hc);
      [congruence|].
    exists w'. split; [exact Ht|]. split; [exact Hin | congruence].
  - unfold bind at 1. unfold ret at 1.
    destruct (Htail 0 w1 Hs1) as (w' & Ht & Hin & Hc).
    exists w'. auto.
Qed.

Lemma Run_keeps_stream (u h : string) (action : Action) (w w' : World)
      (r : option error) :
  Run env flags u h action w = (Returned r, w') -> w_streamID w' = w_streamID w.
Proof.
  rewrite Run_unfold.
  destruct (log_only_Run_prelude env flags action w) as ([] & w1 & -> & Hs1 & _).
  destruct (log_only_Publish env (startedEvent env w1) w1)
    as ([e|] & w2 & -> & Hs2 & _); [intros [= _ <-]; congruence|].
  destruct (log_only_flushProgress env w2)
    as ([e|] & w3 & -> & Hs3 & _); [intros [= _ <-]; congruence|].
  destruct (log_only_Publish env (workspaceStatusEvent flags u h) w3)
    as ([e|] & w4 & -> & Hs4 & _); [intros [= _ <-]; congruence|].
  intros Hd. apply with_defer_Returned in Hd as (w0 & Hrun & ->).
  destruct (stop_keeps_counts w0) as (_ & -> & _).
  assert (Hgen : forall cmds wa wb rr,
             run_commands env u h cmds wa = (Returned rr, wb) ->
             w_streamID wb = w_streamID wa).
  { clear. induction cmds as [|cmd rest IH]; intros wa wb rr.
    - intros [= _ <-]. reflexivity.
    - rewrite run_commands_cons.
      destruct (bazelArgs (shlex_Split env) cmd) as [[args [err|]]| |];
        try discriminate; [intros [= _ <-]; reflexivity|].
      destruct (command_round_spec env u h args wa) as (w3 & -> & Hs3 & _).
      destruct (log_only_flushProgress env w3) as ([e|] & w4 & -> & Hs4 & _);
        [intros [= _ <-]; congruence|].
      destruct (cmd_result _); [intros [= _ <-]; congruence|].
      intros H. rewrite (IH _ _ _ H). congruence. }
  rewrite (Hgen _ _ _ _ Hrun). simpl. congruence.
Qed.

(** A failure that carries no exit code is reported as 1.  When publishing
    succeeds and the first command to fail either cannot be tokenised, or
    fails with an error from which [getExitCode] reads no code (the child
    could not be started, or was killed by a signal so that its [ExitCode()]
    is -1), the action's BuildFinished event carries exit code 1, and the
    commands that follow are never run. *)
Theorem failure_without_exit_code_reports_1 (u h : string) (action : Action)
        (pre post : list string) (cmd : string) (w : World) (id1 id2 : string) :
  publishing_succeeds env ->
  uuid_NewRandom env (w_uuids w) = Some id1 ->
  uuid_NewRandom env (S (w_uuids w)) = Some id2 ->
  BazelCommands action = pre ++ cmd :: post ->
  all_succeed env pre (w_commands w) ->
  (exists tokens cause, shlex_Split env cmd = (tokens, Some cause))
  \/ (exists args e,
        bazelArgs (shlex_Split env) cmd = Returned (args, None)
        /\ cmd_result (cmd_Run env (w_commands w + length pre) args) = Some e
        /\ getExitCode (Some e) = noExitCode) ->
  exists w',
    runAction env flags u h action w = (Returned tt, w')
    /\ In ({| InvocationId := id1; BuildId := id2 |},
           Some {| Id := Id_BuildFinished;
                   Children := [Id_BuildToolLogs];
                   Payload_of := Payload_Finished 1 (time_now_millis env);
                   LastMessage := false |})
          (w_events w')
    /\ (w_commands w' <= S (w_commands w + length pre))%nat.
Proof.
  intros Hps Hid1 Hid2 Hcmds Hall Hfail.
  set (sid := {| InvocationId := id1; BuildId := id2 |}).
  set (w0 := new_actionRunner sid (count_uuid (count_uuid w))).
  destruct (Run_first_failure_any u h action pre post cmd w0 (proj1 Hps) Hcmds Hall)
    as [Hcmd Hparse].
  assert (Hrun : exists e w1,
             Run env flags u h action w0 = (Returned (Some e), w1)
             /\ getExitCode (Some e) = noExitCode
             /\ (w_commands w1 <= S (w_commands w + length pre))%nat).
  { destruct Hfail as [(tokens & cause & Hsp)|(args & e & Hb & Hres & Hcode)].
    - destruct (Hparse tokens cause Hsp) as (w1 & Hr & Hc).
      eexists _, w1. split; [exact Hr|]. split; [reflexivity|].
      rewrite Hc. simpl. lia.
    - destruct (Hcmd args e Hb Hres) as (w1 & Hr & Hc).
      exists e, w1. split; [exact Hr|]. split; [exact Hcode|].
      rewrite Hc. simpl. lia. }
  destruct Hrun as (e & w1 & Hrun & Hcode & Hc1).
  destruct (runAction_after_Run u h action w w1 id1 id2 (Some e) Hps Hid1 Hid2 Hrun)
    as (w' & Hra & Hin & Hc').
  { rewrite (Run_keeps_stream u h action w0 w1 (Some e) Hrun). reflexivity. }
  exists w'. split; [exact Hra|]. split.
  - rewrite Hcode in Hin. exact Hin.
  - rewrite Hc'. exact Hc1.
Qed.

End RunnerFacts2.

Lemma listener_bounds_the_log_witness :
  buffered (snd (Write S3_env (String.list_byte_of_string "INFO: Build completed")
                   (set_listener true initial_World))) < 1000.
Proof.
  apply (proj1 (listener_bounds_the_log S3_env (set_listener true initial_World) eq_refl)).
Defined.

Lemma untriggered_actions_are_skipped_witness :
  RunAllActions S3_env
    {| besBackend := "grpc://localhost:1985";
       besResultsURL := "http://localhost:8080/invocation";
       repoURL := "https://x/y"; commitSHA := "abc123";
       triggerEvent := "push"; triggerBranch := "dev" |}
    {| Actions := [S3_action] |} initial_World
  = (Returned tt, initial_World).
Proof.
  apply (proj2 (untriggered_actions_are_skipped S3_env _ {| Actions := [S3_action] |}
                  initial_World)).
  intros action [<-|[]]. reflexivity.
Defined.

Lemma Run_opening_events_witness :
  exists more,
    w_events (snd (Run S3_env S3_flags "ci" "host" S3_action
                     (new_actionRunner demo_sid initial_World)))
    = w_events initial_World
      ++ opening_events S3_env S3_flags "ci" "host" S3_action demo_sid ++ more.
Proof.
  apply (Run_opening_events S3_env S3_flags "ci" "host" S3_action demo_sid initial_World);
    reflexivity.
Defined.

Lemma empty_command_crashes_the_runner_witness :
  exists msg w',
    run_actions S3_env S3_flags "ci" "host" [blank_command_action; S3_action]
      initial_World = (Panicked msg, w')
    /\ exit_status (fst (run_actions S3_env S3_flags "ci" "host"
                           [blank_command_action; S3_action] initial_World)) = 2
    /\ w_events w'
       = w_events initial_World
         ++ opening_events S3_env S3_flags "ci" "host" blank_command_action
              {| InvocationId := "uuid-0"; BuildId := "uuid-1" |}
    /\ w_waits w' = w_waits initial_World
    /\ w_commands w' = w_commands initial_World
    /\ w_flusher w' = Some {| stop := 1; flusher_pc := AtSelect; flush_calls := 0 |}.
Proof.
  apply (empty_command_crashes_the_runner S3_env S3_flags "ci" "host"
           blank_command_action [S3_action] initial_World "uuid-0" "uuid-1" " " []);
    reflexivity.
Defined.

Lemma Run_stops_at_first_failure_witness :
  exists w',
    Run S3_env S3_flags "ci" "host"
      {| Name := "test"; Action_Triggers := Action_Triggers S3_action;
         BazelCommands := ["bazel build //:nonexistent"; "bazel test //..."] |}
      initial_World = (Returned (Some (ErrExit 1)), w')
    /\ w_commands w' = 1%nat.
Proof.
  apply (proj1 (Run_stops_at_first_failure S3_env S3_flags "ci" "host"
                  {| Name := "test"; Action_Triggers := Action_Triggers S3_action;
                     BazelCommands := ["bazel build //:nonexistent"; "bazel test //..."] |}
                  [] ["bazel test //..."] "bazel build //:nonexistent" initial_World
                  (fun _ => eq_refl) eq_refl I)
          ["build"; "//:nonexistent"] (ErrExit 1) eq_refl eq_refl).
Defined.

Lemma failure_without_exit_code_reports_1_witness :
  exists w',
    runAction S3_env_not_started S3_flags "ci" "host" S3_action initial_World
    = (Returned tt, w')
    /\ In ({| InvocationId := "uuid-0"; BuildId := "uuid-1" |},
           Some {| Id := Id_BuildFinished;
                   Children := [Id_BuildToolLogs];
                   Payload_of := Payload_Finished 1 (time_now_millis S3_env_not_started);
                   LastMessage := false |})
          (w_events w')
    /\ (w_commands w' <= 1)%nat.
Proof.
  apply (failure_without_exit_code_reports_1 S3_env_not_started S3_flags "ci" "host"
           S3_action [] [] "bazel build //:nonexistent" initial_World "uuid-0" "uuid-1").
  - split; intros k; reflexivity.
  - reflexivity.
  - reflexivity.
  - reflexivity.
  - exact I.
  - right. exists ["build"; "//:nonexistent"], (ErrOther "exec: bazelisk: executable file not found in $PATH").
    repeat split.
Defined.

(** ** Properties: no empty Progress event *)

Lemma no_empty_ret {A : Type} (a : A) : no_empty_progress (ret a).
Proof.
  intros w Hwf. split; [assumption|]. exists []. simpl. now rewrite app_nil_r.
Qed.

Lemma no_empty_bind {A B : Type} (c : M A) (k : A -> M B) :
  no_empty_progress c -> (forall a, no_empty_progress (k a)) ->
  no_empty_progress (bind c k).
Proof.
  intros Hc Hk w Hwf. unfold bind.
  destruct (Hc w Hwf) as (Hwf1 & m1 & He1 & Hf1).
  destruct (c w) as [[a| |] w1]; cbn [fst snd] in *; [|eauto..].
  destruct (Hk a w1 Hwf1) as (Hwf2 & m2 & He2 & Hf2).
  split; [assumption|]. exists (m1 ++ m2). rewrite He2, He1, <- app_assoc.
  split; [reflexivity|]. now apply Forall_app.
Qed.

Lemma no_empty_pure {A : Type} (c : M A) :
  (forall w, w_log (snd (c w)) = w_log w /\ w_events (snd (c w)) = w_events w) ->
  no_empty_progress c.
Proof.
  intros H w Hwf. destruct (H w) as [Hl He]. rewrite Hl, He.
  split; [assumption|]. exists []. now rewrite app_nil_r.
Qed.

Section NoEmptyProgress.

Variable env : Env.
Variable flags : Flags.

Lemma no_empty_Publish (e : BuildEvent) :
  (forall sid, progress_nonempty (sid, Some e)) ->
  no_empty_progress (bep_Publish env e).
Proof.
  intros He w Hwf. unfold bep_Publish.
  destruct (latched env (w_publishes w)); cbn [fst snd w_log w_events count_publish add_event].
  - split; [assumption|]. exists []. now rewrite app_nil_r.
  - split; [assumption|]. eexists. split; [reflexivity|].
    constructor; [apply He | constructor].
Qed.

Lemma no_empty_flushProgress : no_empty_progress (flushProgress env).
Proof.
  intros w Hwf. unfold flushProgress.
  destruct (Consume_pending (w_log w) Hwf) as (Hwf' & _ & Hs).
  pose proof (wf_len_pending (w_log w) Hwf) as Hlen.
  destruct (invocationLog_Consume (w_log w)) as [buf lg] eqn:Ec. cbn [fst snd] in *.
  assert (Hbuf : len buf = len (log_Buffer (w_log w))).
  { unfold invocationLog_Consume in Ec. now injection Ec as <- _. }
  destruct (len buf =? 0)%nat eqn:E0.
  - cbn [snd w_log set_log w_events]. split; [assumption|].
    exists []. now rewrite app_nil_r.
  - apply Nat.eqb_neq in E0.
    match goal with |- context [bep_Publish env ?e ?w2] =>
      destruct (no_empty_Publish e) with (w := w2) as (H1 & more & H2 & H3) end.
    + intros sid. unfold progress_nonempty. cbn [snd Payload_of]. rewrite Hs.
      destruct (pending (w_log w)) as [|b bs] eqn:Ep; [|discriminate].
      simpl in Hlen. congruence.
    + exact Hwf'.
    + split; [exact H1|]. exists more. split; [exact H2 | exact H3].
Qed.

Lemma no_empty_writeListener : no_empty_progress (writeListener env).
Proof.
  intros w. unfold writeListener.
  destruct (w_listener w); [|apply (no_empty_ret tt w)].
  destruct (progressFlushThresholdBytes <=? _); [|apply (no_empty_ret tt w)].
  apply (no_empty_bind _ _ no_empty_flushProgress (fun _ => no_empty_ret tt)).
Qed.

Lemma no_empty_Write (b : list byte) : no_empty_progress (Write env b).
Proof.
  intros w Hwf. unfold Write.
  destruct (Write_pending b (w_log w) Hwf) as [Hwf' _].
  destruct (invocationLog_Write b (w_log w)) as [n lg]. cbn [snd] in Hwf'.
  apply (no_empty_bind _ _ no_empty_writeListener (fun _ => no_empty_ret n)
           (set_log lg w)).
  exact Hwf'.
Qed.

Lemma no_empty_Printf (text : string) : no_empty_progress (Printf env text).
Proof.
  unfold Printf. apply no_empty_bind; [apply no_empty_Write | intros; apply no_empty_ret].
Qed.

Lemma no_empty_Printf_format (format : string) :
  no_empty_progress (Printf_format env format).
Proof.
  unfold Printf_format.
  apply no_empty_bind; [apply no_empty_Write | intros; apply no_empty_ret].
Qed.

Lemma no_empty_flusher_tick : no_empty_progress (flusher_tick env).
Proof.
  intros w. unfold flusher_tick.
  destruct (w_flusher w) as [f|]; [|apply (no_empty_ret tt w)].
  destruct (flusher_step SelectTimer f) as [f'|]; [|apply (no_empty_ret tt w)].
  apply (no_empty_bind _ _ no_empty_flushProgress (fun _ => no_empty_ret tt)
           (set_flusher (Some f') w)).
Qed.

Lemma no_empty_play (evs : list CmdEvent) : no_empty_progress (play env evs).
Proof.
  induction evs as [|[b|] evs IH]; cbn [play].
  - apply no_empty_ret.
  - apply no_empty_bind; [apply no_empty_Write | intros; exact IH].
  - apply no_empty_bind; [apply no_empty_flusher_tick | intros; exact IH].
Qed.

Lemma no_empty_runCommand (args : list string) : no_empty_progress (runCommand env args).
Proof.
  intros w. unfold runCommand.
  apply (no_empty_bind _ _ (no_empty_play _) (fun _ => no_empty_ret _) (count_command w)).
Qed.

Lemma no_empty_run_commands (u h : string) (cmds : list string) :
  no_empty_progress (run_commands env u h cmds).
Proof.
  induction cmds as [|cmd rest IH]; cbn [run_commands]; [apply no_empty_ret|].
  apply no_empty_bind; [apply no_empty_pure; intros w; auto|].
  intros [args [perr|]]; [apply no_empty_ret|].
  apply no_empty_bind; [apply no_empty_Printf_format | intros _].
  apply no_empty_bind; [apply no_empty_runCommand | intros err].
  apply no_empty_bind.
  { destruct (negb _); [apply no_empty_Printf | apply no_empty_ret]. }
  intros _. apply no_empty_bind; [apply no_empty_flushProgress|].
  intros [e|]; [apply no_empty_ret|].
  destruct err; [apply no_empty_ret | exact IH].
Qed.

Lemma no_empty_with_defer {A : Type} (body : M A) :
  no_empty_progress body -> no_empty_progress (with_defer stopFlushingProgress body).
Proof.
  intros Hb w Hwf. destruct (Hb w Hwf) as (Hwf1 & more & He & Hf).
  assert (Hstop : forall w1, w_log (stopFlushingProgress w1) = w_log w1
                             /\ w_events (stopFlushingProgress w1) = w_events w1).
  { intros w1. unfold stopFlushingProgress. destruct (w_flusher w1) as [f|]; [|auto].
    destruct (flusher_step CallStop f); auto. }
  unfold with_defer. destruct (body w) as [[a| |] w1]; cbn [fst snd] in *;
    try (destruct (Hstop w1) as [-> ->]); eauto.
Qed.

Lemma no_empty_Run (u h : string) (action : Action) :
  no_empty_progress (Run env flags u h action).
Proof.
  unfold Run.
  apply no_empty_bind; [apply no_empty_Printf | intros _].
  apply no_empty_bind; [apply no_empty_Printf | intros _].
  apply no_empty_bind; [intros w; apply no_empty_Printf | intros _].
  apply no_empty_bind; [intros w; apply no_empty_Printf | intros _].
  apply no_empty_bind; [intros w; now apply no_empty_Publish|].
  intros [e|]; [apply no_empty_ret|].
  apply no_empty_bind; [apply no_empty_flushProgress|].
  intros [e|]; [apply no_empty_ret|].
  apply no_empty_bind; [now apply no_empty_Publish|].
  intros [e|]; [apply no_empty_ret|].
  apply no_empty_bind; [apply no_empty_pure; intros w; auto | intros _].
  apply no_empty_bind; [apply no_empty_pure; intros w; auto | intros _].
  apply no_empty_with_defer. apply no_empty_run_commands.
Qed.

Lemma no_empty_runAction (u h : string) (action : Action) (w : World) :
  exists more,
    w_events (snd (runAction env flags u h action w)) = w_events w ++ more
    /\ Forall progress_nonempty more.
Proof.
  unfold runAction.
  assert (Hnil : exists more, w_events (count_uuid w) = w_events w ++ more
                              /\ Forall progress_nonempty more).
  { exists []. simpl. now rewrite app_nil_r. }
  unfold bind at 1. unfold newUUID at 1.
  destruct (uuid_NewRandom env (w_uuids w)) as [id1|]; [|exact Hnil].
  unfold bind at 1. unfold newUUID at 1.
  destruct (uuid_NewRandom env (w_uuids (count_uuid w))) as [id2|]; [|exact Hnil].
  unfold bind at 1.
  set (w0 := new_actionRunner _ (count_uuid (count_uuid w))).
  match goal with |- context [bind (Run env flags u h action) ?k w0] =>
    assert (Hrest : no_empty_progress (bind (Run env flags u h action) k)) end.
  { apply no_empty_bind; [apply no_empty_Run | intros rerr].
    apply no_empty_bind.
    { destruct rerr; [|apply no_empty_ret].
      apply no_empty_bind; [apply no_empty_Printf_format | intros; apply no_empty_ret]. }
    intros c.
    apply no_empty_bind; [apply no_empty_flushProgress | intros _].
    apply no_empty_bind; [now apply no_empty_Publish | intros _].
    apply no_empty_bind; [now apply no_empty_Publish | intros _].
    apply no_empty_bind.
    { intros w1 Hwf1. unfold bep_Wait. cbn [fst snd w_log w_events count_wait add_event].
      split; [assumption|]. eexists. split; [reflexivity|].
      constructor; [exact I | constructor]. }
    intros [e|]; [|apply no_empty_ret].
    apply no_empty_pure. intros w1. auto. }
  destruct (Hrest w0) as (_ & more & He & Hf); [split; reflexivity|].
  exists more. split; [exact He | exact Hf].
Qed.

(** The runner never publishes an empty Progress event: whatever the
    commands print, whenever the timer fires and whether or not [Publish]
    accepts the events, every Progress event [main] puts on a channel has a
    text of at least one byte. *)
Theorem no_empty_progress_events (w : World) :
  exists more,
    w_events (snd (main env flags w)) = w_events w ++ more
    /\ Forall progress_nonempty more.
Proof.
  assert (Hnil : exists more, w_events w = w_events w ++ more
                              /\ Forall progress_nonempty more).
  { exists []. now rewrite app_nil_r. }
  unfold main. destruct (cloneRepo env flags); [exact Hnil|].
  destruct (readConfig env) as [cfg [e|]]; [exact Hnil|].
  unfold RunAllActions.
  generalize (match os_Hostname env with (_, Some _) => "" | (h, None) => h end).
  generalize (match user_Current env with (_, Some _) => "" | (u, None) => u end).
  intros u h. clear Hnil. revert w.
  induction (Actions cfg) as [|a rest IH]; intros w; cbn [run_actions].
  - exists []. simpl. now rewrite app_nil_r.
  - destruct (negb _); [apply IH|].
    unfold bind.
    destruct (no_empty_runAction u h a w) as (m1 & He1 & Hf1).
    destruct (runAction env flags u h a w) as [[[]| |] w1]; cbn [fst snd] in *; eauto.
    destruct (IH w1) as (m2 & He2 & Hf2).
    exists (m1 ++ m2). rewrite He2, He1, <- app_assoc.
    split; [reflexivity | now apply Forall_app].
Qed.

End NoEmptyProgress.

(** ** Properties: the older copy of the runner *)

Section ActionRunnerMainFacts.

Import ActionRunnerMain.

Lemma validateFlags_fold (entries : list (string * string)) (acc : list string) :
  fold_left
    (fun errs entry =>
       if String.eqb (snd entry) "" then errs ++ ["--" +:+ fst entry +:+ " unset"]
       else errs)
    entries acc
  = acc ++ map (fun name => "--" +:+ name +:+ " unset") (unset_flags entries).
Proof.
  revert acc. induction entries as [|[name v] rest IH]; intros acc.
  - simpl. now rewrite app_nil_r.
  - cbn [fold_left]. rewrite IH. unfold unset_flags. cbn [List.filter fst snd].
    destruct (String.eqb v ""); [|reflexivity].
    cbn [map fst]. now rewrite <- app_assoc.
Qed.

Lemma unset_flags_nil (entries : list (string * string)) :
  unset_flags entries = [] <-> Forall (fun entry => snd entry <> "") entries.
Proof.
  unfold unset_flags. induction entries as [|[name v] rest IH]; cbn [List.filter snd].
  - split; [constructor | reflexivity].
  - destruct (String.eqb_spec v "") as [->|Hne].
    + split; [discriminate|]. intros H. inversion H; subst. simpl in *. congruence.
    + rewrite IH. split; [now constructor | intros H; now inversion H].
Qed.

Lemma validateFlags_None_iff (flags0 : Flags) (entries : list (string * string)) :
  Permutation entries (flag_table flags0) ->
  validateFlags entries = None <-> flags_set flags0.
Proof.
  intros Hperm. unfold validateFlags. rewrite validateFlags_fold. cbn [app].
  rewrite length_map.
  assert (Hset : unset_flags entries = [] <-> flags_set flags0).
  { rewrite unset_flags_nil. split; intros H.
    - apply (Permutation_Forall Hperm) in H.
      unfold flag_table in H. rewrite !Forall_cons in H. unfold flags_set.
      simpl in H. tauto.
    - apply (Permutation_Forall (Permutation_sym Hperm)).
      unfold flag_table. rewrite !Forall_cons. unfold flags_set in H.
      simpl. intuition constructor. }
  destruct (unset_flags entries) as [|n ns]; simpl.
  - tauto.
  - split; [discriminate|]. intros H. apply Hset in H. discriminate.
Qed.

(** [validateFlags] returns nil exactly when all six flags are set,
    whatever order the map is visited in; otherwise its error names the
    unset flags, one [--name unset] each, joined by [; ] in the order of the
    visit. *)
Theorem validateFlags_reports_unset_flags (flags0 : Flags)
        (entries : list (string * string)) :
  Permutation entries (flag_table flags0) ->
  (validateFlags entries = None <-> flags_set flags0)
  /\ (forall e, validateFlags entries = Some e ->
        e = ErrOther (strings_Join
                        (map (fun name => "--" +:+ name +:+ " unset")
                           (unset_flags entries)) "; ")
        /\ forall name, In name (unset_flags entries) <->
                         In (name, "") (flag_table flags0)).
Proof.
  intros Hperm. split; [now apply validateFlags_None_iff|].
  unfold validateFlags. rewrite validateFlags_fold. cbn [app]. rewrite length_map.
  destruct (length (unset_flags entries) =? 0)%nat; [discriminate|].
  intros e [= <-]. split; [reflexivity|].
  intros name. unfold unset_flags. rewrite in_map_iff. split.
  - intros ([nm v] & <- & Hin). apply filter_In in Hin as [Hin Hv].
    simpl in *. apply String.eqb_eq in Hv. subst v.
    apply (Permutation_in _ Hperm). exact Hin.
  - intros Hin. exists (name, ""). split; [reflexivity|].
    apply filter_In. split; [|reflexivity].
    apply (Permutation_in _ (Permutation_sym Hperm)). exact Hin.
Qed.

Lemma validateFlags_reports_unset_flags_witness :
  validateFlags (rev (flag_table S3_flags)) = None
  /\ validateFlags
       (flag_table {| besBackend := ""; besResultsURL := "http://localhost:8080";
                      repoURL := "https://x/y"; commitSHA := "";
                      triggerEvent := "push"; triggerBranch := "main" |})
     = Some (ErrOther "--commit_sha unset; --bes_backend unset").
Proof.
  split.
  - apply (proj1 (validateFlags_reports_unset_flags S3_flags (rev (flag_table S3_flags))
                    (Permutation_sym (Permutation_rev _)))).
    repeat split; discriminate.
  - destruct (validateFlags
                (flag_table {| besBackend := ""; besResultsURL := "http://localhost:8080";
                               repoURL := "https://x/y"; commitSHA := "";
                               triggerEvent := "push"; triggerBranch := "main" |}))
      as [e|] eqn:E; [|discriminate E].
    destruct (proj2 (validateFlags_reports_unset_flags _ _ (Permutation_refl _)) e E)
      as (-> & _). reflexivity.
Defined.

Variable env : Env.
Variable flags : Flags.

Lemma exits_with_ret {A : Type} (codes : list Z) (a : A) : exits_with codes (ret a).
Proof. intros w code. discriminate. Qed.

Lemma exits_with_bind {A B : Type} (codes : list Z) (c : M A) (k : A -> M B) :
  exits_with codes c -> (forall a, exits_with codes (k a)) ->
  exits_with codes (bind c k).
Proof.
  intros Hc Hk w code. unfold bind.
  specialize (Hc w). destruct (c w) as [[a| |] w1]; simpl in *.
  - apply Hk.
  - discriminate.
  - intros [= <-]. now apply Hc.
Qed.

Lemma exits_with_Publish (codes : list Z) (e : BuildEvent) :
  exits_with codes (bep_Publish env e).
Proof. intros w code. unfold bep_Publish. destruct (latched env _); discriminate. Qed.

Lemma exits_with_Printf (codes : list Z) (text : string) :
  exits_with codes (Printf text).
Proof.
  intros w code. unfold Printf, bind, writer_Write.
  destruct (invocationLog_Write _ _). discriminate.
Qed.

Lemma exits_with_flushProgress (codes : list Z) : exits_with codes (flushProgress env).
Proof.
  intros w code. unfold flushProgress.
  destruct (_ =? _)%nat; [discriminate | apply exits_with_Publish].
Qed.

Lemma exits_with_play (codes : list Z) (evs : list CmdEvent) : exits_with codes (play evs).
Proof.
  induction evs as [|[b|] evs IH]; cbn [play]; [apply exits_with_ret| |exact IH].
  apply exits_with_bind; [|intros _; exact IH].
  intros w code. unfold writer_Write. destruct (invocationLog_Write _ _). discriminate.
Qed.

Lemma exits_with_runCommand (codes : list Z) (args : list string) :
  exits_with codes (runCommand env args).
Proof.
  intros w code. unfold runCommand.
  apply (exits_with_bind codes _ _ (exits_with_play codes _)
           (fun _ => exits_with_ret codes _)).
Qed.

Lemma exits_with_run_commands (codes : list Z) (u h p : string) (cmds : list string) :
  exits_with codes (run_commands env u h p cmds).
Proof.
  induction cmds as [|cmd rest IH]; cbn [run_commands]; [apply exits_with_ret|].
  apply exits_with_bind.
  - intros w code. unfold lift, bazelArgs.
    destruct (shlex_Split env cmd) as [[|t0 ts] [e|]]; try discriminate.
    destruct (_ || _); discriminate.
  - intros [args [perr|]].
    + apply exits_with_bind; [apply exits_with_Printf | intros; apply exits_with_ret].
    + apply exits_with_bind; [apply exits_with_Printf | intros _].
      apply exits_with_bind; [apply exits_with_runCommand | intros err].
      apply exits_with_bind.
      { destruct (negb _); [apply exits_with_Printf | apply exits_with_ret]. }
      intros _. apply exits_with_bind; [apply exits_with_flushProgress|].
      intros [e|]; [apply exits_with_ret|].
      destruct err; [apply exits_with_ret | exact IH].
Qed.

Lemma exits_with_Run (codes : list Z) (u h : string) (action : Action) :
  exits_with codes (Run env flags u h action).
Proof.
  unfold Run.
  apply exits_with_bind; [apply exits_with_Printf | intros _].
  apply exits_with_bind; [apply exits_with_Printf | intros _].
  apply exits_with_bind; [intros w; apply exits_with_Printf | intros _].
  apply exits_with_bind; [intros w; apply exits_with_Printf | intros _].
  apply exits_with_bind; [intros w; apply exits_with_Publish|].
  intros [e|]; [apply exits_with_ret|].
  apply exits_with_bind; [apply exits_with_flushProgress|].
  intros [e|]; [apply exits_with_ret|].
  apply exits_with_bind; [apply exits_with_Publish|].
  intros [e|]; [apply exits_with_ret|].
  apply exits_with_run_commands.
Qed.

Lemma exits_with_newUUID : exits_with [retryableExitCode] (newUUID env).
Proof.
  intros w code. unfold newUUID. destruct (uuid_NewRandom env _); [discriminate|].
  intros [= <-]. now left.
Qed.

Lemma exits_with_runAction (u h : string) (action : Action) :
  exits_with [retryableExitCode] (runAction env flags u h action).
Proof.
  unfold runAction.
  apply exits_with_bind; [apply exits_with_newUUID | intros id1].
  apply exits_with_bind; [apply exits_with_newUUID | intros id2].
  apply exits_with_bind; [intros w code; discriminate | intros _].
  apply exits_with_bind; [apply exits_with_Run | intros rerr].
  apply exits_with_bind.
  { destruct rerr; [|apply exits_with_ret].
    apply exits_with_bind; [apply exits_with_Printf | intros; apply exits_with_ret]. }
  intros c.
  apply exits_with_bind; [apply exits_with_flushProgress | intros _].
  apply exits_with_bind; [apply exits_with_Publish | intros _].
  apply exits_with_bind; [apply exits_with_Publish | intros _].
  apply exits_with_bind; [intros w code; discriminate|].
  intros [e|]; [|apply exits_with_ret].
  intros w code [= <-]. now left.
Qed.

Lemma exits_with_run_actions (u h : string) (actions : list Action) :
  exits_with [retryableExitCode] (run_actions env flags u h actions).
Proof.
  induction actions as [|a rest IH]; cbn [run_actions]; [apply exits_with_ret|].
  destruct (negb _); [exact IH|].
  apply exits_with_bind; [apply exits_with_runAction | intros _; exact IH].
Qed.

(** The exit status of the older runner.  With invalid flags the process
    exits with 1 before anything else is done; with valid flags and a failed
    clone it exits with the retry code 21, no publisher having been started;
    with an unreadable configuration it exits with 1; and from there on the
    only exit is the retry code, on a failed UUID or a failed [Wait].  So
    the status is always 0, 1, 21, or 2 after a panic: never the exit code
    of a bazel command. *)
Theorem ActionRunner_main_exit_status (entries : list (string * string)) (w : World) :
  Permutation entries (flag_table flags) ->
  In (exit_status (fst (main env flags entries w))) [0; 1; 2; 21]
  /\ (~ flags_set flags -> main env flags entries w = (Exited 1, w))
  /\ (flags_set flags -> cloneRepo env flags <> None ->
      main env flags entries w = (Exited 21, w))
  /\ (flags_set flags -> cloneRepo env flags = None ->
      snd (readConfig env) <> None ->
      main env flags entries w = (Exited 1, w))
  /\ (flags_set flags -> cloneRepo env flags = None ->
      snd (readConfig env) = None ->
      forall code, fst (main env flags entries w) = Exited code -> code = 21).
Proof.
  intros Hperm.
  pose proof (validateFlags_None_iff flags entries Hperm) as Hv.
  unfold main.
  destruct (validateFlags entries) as [e|] eqn:Ev.
  - assert (Hns : ~ flags_set flags) by (intros H; apply Hv in H; discriminate).
    split; [simpl; tauto|]. split; [reflexivity|].
    repeat split; intros; contradiction.
  - assert (Hfs : flags_set flags) by (now apply Hv).
    destruct (cloneRepo env flags) as [e|] eqn:Ec.
    + split; [simpl; tauto|]. split; [intros; contradiction|].
      split; [reflexivity|]. split; intros; congruence.
    + destruct (readConfig env) as [cfg [e|]] eqn:Er; cbn [snd].
      * split; [simpl; tauto|]. split; [intros; contradiction|].
        split; [intros; congruence|]. split; [reflexivity | intros; congruence].
      * assert (Hex : forall code,
                   fst (RunAllActions env flags cfg w) = Exited code -> code = 21).
        { intros code H. unfold RunAllActions in H.
          apply exits_with_run_actions in H. destruct H as [<-|[]]. reflexivity. }
        split; [|split; [intros; contradiction|split; [intros; congruence|
                split; [intros; congruence | intros _ _ _; exact Hex]]]].
        destruct (fst (RunAllActions env flags cfg w)) as [[]| |code] eqn:Eo; simpl;
          [tauto | tauto |].
        rewrite (Hex code eq_refl). tauto.
Qed.

(** *** The log of the older copy *)

Lemma progress_bytes_app (a b : list (StreamId * option BuildEvent)) :
  progress_bytes (a ++ b) = progress_bytes a ++ progress_bytes b.
Proof. unfold progress_bytes. now rewrite flat_map_app. Qed.

Lemma accounted_refl (w : World) : log_accounted w w.
Proof.
  intros Hwf. split; [assumption|]. exists [], [].
  rewrite !app_nil_r. auto.
Qed.

Lemma accounted_trans (w1 w2 w3 : World) :
  log_accounted w1 w2 -> log_accounted w2 w3 -> log_accounted w1 w3.
Proof.
  intros H12 H23 Hwf.
  destruct (H12 Hwf) as (Hwf2 & wr1 & m1 & Hs1 & He1 & Hp1).
  destruct (H23 Hwf2) as (Hwf3 & wr2 & m2 & Hs2 & He2 & Hp2).
  split; [assumption|]. exists (wr1 ++ wr2), (m1 ++ m2).
  rewrite Hs2, Hs1, He2, He1, progress_bytes_app, <- !app_assoc.
  repeat split. rewrite (app_assoc (pending (w_log w1))), Hp1, <- app_assoc, Hp2.
  reflexivity.
Qed.

Lemma accounts_ret {A : Type} (a : A) : accounts (ret a).
Proof. intros w. apply accounted_refl. Qed.

Lemma accounts_bind {A B : Type} (c : M A) (k : A -> M B) :
  accounts c -> (forall a, accounts (k a)) -> accounts (bind c k).
Proof.
  intros Hc Hk w. unfold bind. specialize (Hc w).
  destruct (c w) as [[a| |] w1]; simpl in *; [|assumption..].
  eapply accounted_trans; [exact Hc | apply Hk].
Qed.

Lemma accounts_writer_Write (b : list byte) : accounts (writer_Write b).
Proof.
  intros w Hwf. unfold writer_Write.
  destruct (Write_pending b (w_log w) Hwf) as [Hwf' Hp].
  destruct (invocationLog_Write b (w_log w)) as [n lg] eqn:Ew. cbn [fst snd] in *.
  cbn [w_log set_log w_events]. split; [assumption|].
  exists b, []. rewrite app_nil_r, Hp. repeat split.
  unfold invocationLog_Write in Ew.
  destruct (Buffer_Write _ _ _) in Ew. now injection Ew as _ <-.
Qed.

Lemma accounts_Printf (text : string) : accounts (Printf text).
Proof.
  unfold Printf. apply accounts_bind; [apply accounts_writer_Write|].
  intros _. apply accounts_ret.
Qed.

Lemma accounts_Publish (e : BuildEvent) :
  match Payload_of e with Payload_Progress _ => False | _ => True end ->
  accounts (bep_Publish env e).
Proof.
  intros Hnp w Hwf. unfold bep_Publish.
  destruct (latched env (w_publishes w)); cbn [fst snd w_log count_publish add_event
                                                 w_events].
  - split; [assumption|]. exists [], []. rewrite !app_nil_r. auto.
  - split; [assumption|]. exists [], [(w_streamID w, Some e)].
    rewrite !app_nil_r. split; [reflexivity|]. split; [reflexivity|].
    unfold progress_bytes. cbn [flat_map snd].
    destruct e as [i c pl l]; destruct pl; simpl in *; try reflexivity. contradiction.
Qed.

Lemma accounts_flushProgress :
  (forall k, latched env k = None) -> accounts (flushProgress env).
Proof.
  intros Hpub w Hwf. unfold flushProgress.
  pose proof (wf_len_pending (w_log w) Hwf) as Hlen.
  destruct (Consume_pending (w_log w) Hwf) as (Hwf' & Hp' & Hs').
  unfold invocationLog_Consume in *. cbn [fst snd] in *.
  unfold Buffer_Len.
  destruct (len (log_Buffer (w_log w)) =? 0)%nat eqn:E0.
  - apply accounted_refl. assumption.
  - unfold bep_Publish. cbn [w_publishes set_log set_progressCount]. rewrite Hpub.
    cbn [fst snd w_log count_publish add_event set_log set_progressCount w_events
         w_streamID log_stderr].
    split; [assumption|]. eexists [], [_]. rewrite !app_nil_r. repeat split.
    unfold progress_bytes. cbn [flat_map snd Payload_of]. rewrite app_nil_r.
    rewrite String.list_byte_of_string_of_list_byte.
    unfold pending in *. rewrite Hp', app_nil_r. exact (eq_sym Hs').
Qed.

Lemma flushProgress_empties_log (w : World) :
  LogState_wf (w_log w) ->
  pending (w_log (snd (flushProgress env w))) = [].
Proof.
  intros Hwf. unfold flushProgress.
  pose proof (wf_len_pending (w_log w) Hwf) as Hlen.
  destruct (Consume_pending (w_log w) Hwf) as (_ & Hp' & _).
  unfold invocationLog_Consume in *. cbn [fst snd] in *.
  unfold Buffer_Len.
  destruct (len (log_Buffer (w_log w)) =? 0)%nat eqn:E0.
  - apply Nat.eqb_eq in E0. cbn [snd]. apply length_zero_iff_nil. congruence.
  - unfold bep_Publish. cbn [w_publishes set_log set_progressCount].
    destruct (latched env _); exact Hp'.
Qed.

Lemma accounts_play (evs : list CmdEvent) : accounts (play evs).
Proof.
  induction evs as [|[b|] evs IH]; cbn [play]; [apply accounts_ret| |exact IH].
  apply accounts_bind; [apply accounts_writer_Write | intros _; exact IH].
Qed.

Lemma accounts_runCommand (args : list string) : accounts (runCommand env args).
Proof.
  intros w. unfold runCommand.
  apply (accounts_bind _ _ (accounts_play _) (fun _ => accounts_ret _) (count_command w)).
Qed.

Lemma accounts_run_commands (u h p : string) (cmds : list string) :
  (forall k, latched env k = None) -> accounts (run_commands env u h p cmds).
Proof.
  intros Hpub. induction cmds as [|cmd rest IH]; cbn [run_commands];
    [apply accounts_ret|].
  apply accounts_bind; [intros w; apply accounted_refl|].
  intros [args [perr|]].
  - apply accounts_bind; [apply accounts_Printf | intros; apply accounts_ret].
  - apply accounts_bind; [apply accounts_Printf | intros _].
    apply accounts_bind; [apply accounts_runCommand | intros err].
    apply accounts_bind.
    { destruct (negb _); [apply accounts_Printf | apply accounts_ret]. }
    intros _. apply accounts_bind; [now apply accounts_flushProgress|].
    intros [e|]; [apply accounts_ret|].
    destruct err; [apply accounts_ret | exact IH].
Qed.

Lemma accounts_Run (u h : string) (action : Action) :
  (forall k, latched env k = None) -> accounts (Run env flags u h action).
Proof.
  intros Hpub. unfold Run.
  apply accounts_bind; [apply accounts_Printf | intros _].
  apply accounts_bind; [apply accounts_Printf | intros _].
  apply accounts_bind; [intros w; apply accounts_Printf | intros _].
  apply accounts_bind; [intros w; apply accounts_Printf | intros _].
  apply accounts_bind; [intros w; now apply accounts_Publish|].
  intros [e|]; [apply accounts_ret|].
  apply accounts_bind; [now apply accounts_flushProgress|].
  intros [e|]; [apply accounts_ret|].
  apply accounts_bind; [now apply accounts_Publish|].
  intros [e|]; [apply accounts_ret|].
  now apply accounts_run_commands.
Qed.

(** In the older copy the Progress events of an action carry its log.
    When every call of [Publish] is accepted, the texts of the Progress
    events published for a triggered action, followed by what the buffer
    still holds, are exactly the bytes the action wrote to its log and to
    standard error, each once and in order; and unless [Run] panicked the
    buffer is empty at the end, so the Progress events alone are the log. *)
Theorem ActionRunner_progress_events_carry_the_log (u h : string) (action : Action)
        (w : World) (id1 id2 : string) :
  (forall k, latched env k = None) ->
  uuid_NewRandom env (w_uuids w) = Some id1 ->
  uuid_NewRandom env (S (w_uuids w)) = Some id2 ->
  exists more,
    w_events (snd (runAction env flags u h action w)) = w_events w ++ more
    /\ progress_bytes more ++ pending (w_log (snd (runAction env flags u h action w)))
       = log_stderr (w_log (snd (runAction env flags u h action w)))
    /\ ((forall msg, fst (runAction env flags u h action w) <> Panicked msg) ->
        pending (w_log (snd (runAction env flags u h action w))) = []).
Proof.
  intros Hpub Hid1 Hid2.
  set (sid := {| InvocationId := id1; BuildId := id2 |}).
  set (w0 := new_actionRunner sid (count_uuid (count_uuid w))).
  set (tail := fun (rerr : option error) =>
    let* exitCode :=
      match rerr with
      | None => ret 0
      | Some err =>
          let* _ := Printf ("action runner failed: " +:+ error_text err) in
          let exitCode := getExitCode (Some err) in
          ret (if exitCode =? noExitCode then 1 else exitCode)
      end in
    let* _ := flushProgress env in
    let* _ := bep_Publish env (buildFinishedEvent env exitCode) in
    let* _ := bep_Publish env (buildToolLogsEvent env) in
    let* werr := bep_Wait env in
    match werr with
    | Some _ => os_Exit retryableExitCode
    | None => ret tt
    end).
  assert (Hunfold : runAction env flags u h action w
                    = bind (Run env flags u h action) tail w0).
  { unfold runAction.
    unfold bind at 1. unfold newUUID at 1. rewrite Hid1.
    unfold bind at 1. unfold newUUID at 1. cbn [w_uuids count_uuid]. rewrite Hid2.
    unfold bind at 1. reflexivity. }
  assert (Hwf0 : LogState_wf (w_log w0)) by (split; reflexivity).
  assert (Htail : forall r w1, LogState_wf (w_log w1) ->
             exists o w',
               tail r w1 = (o, w')
               /\ log_accounted w1 w' /\ pending (w_log w') = []).
  { intros r w1 Hwf1. unfold tail.
    set (pre := match r with
                | None => ret 0
                | Some err =>
                    let* _ := Printf ("action runner failed: " +:+ error_text err) in
                    ret (if getExitCode (Some err) =? noExitCode then 1
                         else getExitCode (Some err))
                end).
    assert (Hpre : exists c w2, pre w1 = (Returned c, w2) /\ log_accounted w1 w2).
    { unfold pre. destruct r as [e|].
      - pose proof (accounts_Printf ("action runner failed: " +:+ error_text e) w1) as Ha.
        unfold bind. unfold Printf, bind, writer_Write in *.
        destruct (invocationLog_Write _ (w_log w1)) as [n lg]. cbn [fst snd ret] in *.
        eexists _, _. split; [reflexivity | exact Ha].
      - eexists _, _. split; [reflexivity | apply accounted_refl]. }
    destruct Hpre as (c & w2 & Hpre & Ha2).
    unfold bind at 1. rewrite Hpre.
    destruct (Ha2 Hwf1) as (Hwf2 & _).
    pose proof (accounts_flushProgress Hpub w2) as Ha3.
    pose proof (flushProgress_empties_log w2 Hwf2) as Hp3.
    pose proof (exits_with_flushProgress [] w2) as Hex3.
    unfold bind at 1.
    destruct (flushProgress env w2) as [[fr|msg|code] w3] eqn:Ef; cbn [fst snd] in *.
    2:{ eexists _, _. split; [reflexivity|].
        split; [eapply accounted_trans; eauto | assumption]. }
    2:{ destruct (Hex3 code eq_refl). }
    unfold bind at 1. rewrite (Publish_ok env) by assumption.
    unfold bind at 1. rewrite (Publish_ok env) by assumption.
    unfold bind at 1. unfold bep_Wait.
    assert (Hacc : log_accounted w1
                     (count_wait
                        (add_event None
                           (count_publish
                              (add_event (Some (buildToolLogsEvent env))
                                 (count_publish
                                    (add_event (Some (buildFinishedEvent env c))
                                       w3))))))).
    { eapply accounted_trans; [exact Ha2|].
      eapply accounted_trans; [exact Ha3|].
      intros Hwf3. cbn [snd w_log count_wait count_publish add_event w_events].
      split; [assumption|]. eexists [], _. rewrite app_nil_r.
      split; [reflexivity|]. split; [rewrite <- !app_assoc; reflexivity|].
      rewrite app_nil_r. reflexivity. }
    destruct (Wait_result env _); eexists _, _; (split; [reflexivity|]);
      (split; [exact Hacc | exact Hp3]). }
  rewrite Hunfold. unfold bind.
  pose proof (accounts_Run u h action Hpub w0) as HaR.
  pose proof (exits_with_Run [] u h action w0) as HexR.
  destruct (Run env flags u h action w0) as [[r|msg|code] w1] eqn:ER; cbn [fst snd] in *.
  - destruct (HaR Hwf0) as (Hwf1 & _).
    destruct (Htail r w1 Hwf1) as (o & w' & -> & Ha & Hp). cbn [fst snd].
    destruct (accounted_trans _ _ _ HaR Ha Hwf0) as (_ & wr & more & Hs & He & Hpb).
    exists more. split; [exact He|]. split; [|intros _; exact Hp].
    rewrite Hs. simpl in Hpb. simpl. congruence.
  - destruct (HaR Hwf0) as (_ & wr & more & Hs & He & Hpb).
    exists more. split; [exact He|]. split.
    + rewrite Hs. simpl in Hpb. simpl. congruence.
    + intros Hnp. destruct (Hnp msg eq_refl).
  - destruct (HexR code eq_refl).
Qed.

End ActionRunnerMainFacts.

Lemma ActionRunner_main_exit_status_witness :
  In (exit_status (fst (ActionRunnerMain.main S3_env S3_flags
                          (ActionRunnerMain.flag_table S3_flags) initial_World)))
     [0; 1; 2; 21]
  /\ ActionRunnerMain.main S3_env
       {| besBackend := ""; besResultsURL := "http://localhost:8080";
          repoURL := "https://x/y"; commitSHA := "abc123";
          triggerEvent := "push"; triggerBranch := "main" |}
       (ActionRunnerMain.flag_table
          {| besBackend := ""; besResultsURL := "http://localhost:8080";
             repoURL := "https://x/y"; commitSHA := "abc123";
             triggerEvent := "push"; triggerBranch := "main" |})
       initial_World
     = (Exited 1, initial_World).
Proof.
  split.
  - apply (proj1 (ActionRunner_main_exit_status S3_env S3_flags _ initial_World
                    (Permutation_refl _))).
  - apply (proj1 (proj2 (ActionRunner_main_exit_status S3_env _ _ initial_World
                           (Permutation_refl _)))).
    intros (_ & _ & _ & _ & H & _). now apply H.
Defined.

Lemma ActionRunner_progress_events_carry_the_log_witness :
  exists more,
    w_events (snd (ActionRunnerMain.runAction S3_env S3_flags "ci" "host" S3_action
                     initial_World))
    = w_events initial_World ++ more
    /\ progress_bytes more
       ++ pending (w_log (snd (ActionRunnerMain.runAction S3_env S3_flags "ci" "host"
                                 S3_action initial_World)))
       = log_stderr (w_log (snd (ActionRunnerMain.runAction S3_env S3_flags "ci" "host"
                                   S3_action initial_World)))
    /\ ((forall msg,
           fst (ActionRunnerMain.runAction S3_env S3_flags "ci" "host" S3_action
                  initial_World) <> Panicked msg) ->
        pending (w_log (snd (ActionRunnerMain.runAction S3_env S3_flags "ci" "host"
                               S3_action initial_World))) = []).
Proof.
  apply (ActionRunner_progress_events_carry_the_log S3_env S3_flags "ci" "host" S3_action
           initial_World "uuid-0" "uuid-1"); [intros k|..]; reflexivity.
Defined.

(** ** Properties: the printed command line *)

Lemma safe_char_plain (c : ascii) :
  shell_safe_char c = true ->
  Ascii.eqb c " "%char = false /\ Ascii.eqb c "039"%char = false
  /\ Ascii.eqb c "034"%char = false.
Proof.
  intros Hs. repeat split;
    match goal with |- Ascii.eqb c ?k = false =>
      destruct (Ascii.eqb_spec c k) as [->|]; [discriminate Hs | reflexivity] end.
Qed.

Lemma sh_split_safe (a rest : string) (w : string) :
  all_chars shell_safe_char a = true ->
  sh_split Bare (Some w) (a +:+ rest) = sh_split Bare (Some (w +:+ a)) rest.
Proof.
  revert w. induction a as [|c a IH]; intros w Hs.
  - simpl. now rewrite append_nil_r.
  - simpl in Hs. apply andb_true_iff in Hs as [Hc Ha].
    destruct (safe_char_plain c Hc) as (H1 & H2 & H3).
    cbn [String.append sh_split]. rewrite H1, H2, H3, Hc.
    unfold push_char. cbn [default]. rewrite (IH _ Ha).
    rewrite append_assoc. reflexivity.
Qed.

Lemma sh_split_safe_first (a rest : string) (c : ascii) :
  all_chars shell_safe_char (String c a) = true ->
  sh_split Bare None (String c a +:+ rest) = sh_split Bare (Some (String c a)) rest.
Proof.
  intros Hs. pose proof Hs as Hs'. simpl in Hs'.
  apply andb_true_iff in Hs' as [Hc Ha].
  destruct (safe_char_plain c Hc) as (H1 & H2 & H3).
  cbn [String.append sh_split]. rewrite H1, H2, H3, Hc.
  unfold push_char. cbn [default]. rewrite (sh_split_safe a rest _ Ha). reflexivity.
Qed.

Lemma sh_split_quoted (a rest : string) (w : string) :
  sh_split InSingle (Some w) (escape_quotes a +:+ squote +:+ rest)
  = sh_split Bare (Some (w +:+ a)) rest.
Proof.
  revert w. induction a as [|c a IH]; intros w.
  - simpl. now rewrite append_nil_r.
  - cbn [escape_quotes]. destruct (Ascii.eqb_spec c "039"%char) as [->|Hne].
    + rewrite append_assoc. unfold squote_escape, squote, dquote.
      cbn [String.append sh_split Ascii.eqb Bool.eqb ascii_in existsb
           String.list_ascii_of_string orb push_char default].
      cbn [id]. change (String "039"%char rest) with (squote +:+ rest).
      rewrite IH, append_assoc. reflexivity.
    + apply Ascii.eqb_neq in Hne.
      cbn [String.append sh_split]. rewrite Hne.
      unfold push_char. cbn [default]. rewrite IH, append_assoc. reflexivity.
Qed.

Lemma sh_split_token (a rest : string) (cur : option string) :
  a <> "" ->
  sh_split Bare cur (toShellToken a +:+ rest)
  = sh_split Bare (Some (default "" cur +:+ a)) rest.
Proof.
  intros Hne. unfold toShellToken. rewrite MatchString_all_chars, ReplaceAll_squote.
  destruct (all_chars shell_safe_char a) eqn:Ea; cbn [negb].
  - destruct cur as [w|]; cbn [default].
    + now apply sh_split_safe.
    + destruct a as [|c a]; [congruence|]. now apply sh_split_safe_first.
  - rewrite append_assoc. unfold squote at 1.
    cbn [String.append sh_split Ascii.eqb Bool.eqb].
    rewrite append_assoc. apply sh_split_quoted.
Qed.

Lemma command_line_unfold (args : list string) (acc : string) :
  fold_left (fun acc arg => acc +:+ " " +:+ toShellToken arg) args acc
  = acc +:+ fold_right (fun arg tail => " " +:+ toShellToken arg +:+ tail) "" args.
Proof.
  revert acc. induction args as [|a args IH]; intros acc; simpl.
  - now rewrite append_nil_r.
  - rewrite IH, !append_assoc. reflexivity.
Qed.

Lemma sh_split_args (args : list string) (w : string) :
  Forall (fun arg => arg <> "") args ->
  sh_split Bare (Some w)
    (fold_right (fun arg tail => " " +:+ toShellToken arg +:+ tail) "" args)
  = Some (w :: args).
Proof.
  intros Hall. revert w. induction Hall as [|a args Ha Hall IH]; intros w.
  - reflexivity.
  - cbn [fold_right]. cbn [String.append sh_split Ascii.eqb Bool.eqb].
    rewrite (sh_split_token a _ None Ha). cbn [default String.append].
    rewrite IH. reflexivity.
Qed.

(** The command text that [printCommandLine] builds can be pasted into a
    shell: read back word by word it is [bazelisk] followed by exactly the
    arguments, whatever characters they hold, provided none of them is
    empty.  An empty argument is put down as nothing at all (not as a pair
    of quotes) and so is lost from the text.  The text, after the prompt,
    is the format that [printCommandLine] hands to [Printf]. *)
Theorem command_line_reads_back (env : Env) (username hostname : string)
        (args : list string) :
  printCommandLine env username hostname args
  = Printf_format env (command_line_format username hostname args)
  /\ (Forall (fun arg => arg <> "") args ->
      sh_split Bare None (command_line args) = Some ("bazelisk" :: args))
  /\ (forall s, toShellToken s = "" <-> s = "")
  /\ sh_split Bare None (command_line ["build"; ""; "//:all"])
     = Some ["bazelisk"; "build"; "//:all"].
Proof.
  split; [reflexivity|]. split; [|split].
  - intros Hall. unfold command_line. rewrite command_line_unfold.
    rewrite (sh_split_safe_first "azelisk" _ "b"%char eq_refl).
    now apply sh_split_args.
  - intros s. split; [|intros ->; reflexivity].
    unfold toShellToken. destruct (shellCharsRequiringQuote_MatchString s); [|auto].
    discriminate.
  - reflexivity.
Qed.

Lemma command_line_reads_back_witness :
  sh_split Bare None (command_line ["test"; "--test_arg=it's $HOME"; "//a b:c"])
  = Some ["bazelisk"; "test"; "--test_arg=it's $HOME"; "//a b:c"].
Proof.
  apply (proj1 (proj2 (command_line_reads_back S3_env "ci" "host"
                         ["test"; "--test_arg=it's $HOME"; "//a b:c"]))).
  repeat constructor; discriminate.
Defined.

(** ** Properties: the command line is parsed as a format *)

Lemma doPrintf_plain (a rest : string) :
  ascii_in "%" a = false -> doPrintf 0 (a +:+ rest) = a +:+ doPrintf 0 rest.
Proof.
  induction a as [|c a IH]; intros Ha; [reflexivity|].
  unfold ascii_in in *. cbn [String.list_ascii_of_string existsb] in Ha.
  apply orb_false_elim in Ha as [Hc Ha].
  change (String c a +:+ rest) with (String c (a +:+ rest)).
  cbn [doPrintf]. rewrite Ascii.eqb_sym, Hc, (IH Ha). reflexivity.
Qed.

Lemma fmt_Sprintf_plain (s : string) :
  ascii_in "%" s = false -> fmt_Sprintf s = s.
Proof.
  intros Hs. unfold fmt_Sprintf.
  rewrite <- (append_nil_r s) at 1. rewrite (doPrintf_plain s "" Hs).
  cbn [doPrintf]. apply append_nil_r.
Qed.

Lemma ascii_in_app (c : ascii) (a b : string) :
  ascii_in c (a +:+ b) = ascii_in c a || ascii_in c b.
Proof.
  unfold ascii_in. induction a as [|x a IH]; [reflexivity|].
  change (String x a +:+ b) with (String x (a +:+ b)).
  cbn [String.list_ascii_of_string existsb]. rewrite IH. now rewrite orb_assoc.
Qed.

(** [printCommandLine] hands its line to [Printf] as the format, with no
    operand.  A line without a percent sign is logged as it is.  A line
    whose only percent sign is its last byte (a last argument such as
    [--define=pct=100%], which [toShellToken] leaves unquoted) is logged
    with the percent sign and the line end replaced by the text [fmt]
    writes for a verb without operand, and without a line end. *)
Theorem command_line_is_parsed_as_format (env : Env) (username hostname : string)
        (args : list string) :
  (ascii_in "%" (command_line_format username hostname args) = false ->
   printCommandLine env username hostname args
   = Printf env (command_line_format username hostname args))
  /\ (forall line,
        command_line_format username hostname args = line +:+ "%" ->
        ascii_in "%" line = false ->
        printCommandLine env username hostname args
        = (let* _ := Write env (String.list_byte_of_string
                                  (line +:+ "%!" +:+ nl +:+ "(MISSING)")) in
           ret tt)).
Proof.
  split.
  - intros Hp. unfold printCommandLine. fold (command_line args).
    fold (command_line_format username hostname args).
    unfold Printf_format, Printf. rewrite fmt_Sprintf_plain; [reflexivity|].
    rewrite ascii_in_app, Hp. reflexivity.
  - intros line Hline Hp. unfold printCommandLine. fold (command_line args).
    fold (command_line_format username hostname args).
    unfold Printf_format. rewrite Hline. unfold fmt_Sprintf.
    rewrite append_assoc, (doPrintf_plain line _ Hp).
    reflexivity.
Qed.

Lemma command_line_is_parsed_as_format_witness :
  printCommandLine S3_env "ci" "host" ["build"; "//:all"]
  = Printf S3_env (nl +:+ aurora_Cyan "ci@host" +:+ "$ bazelisk build //:all")
  /\ printCommandLine S3_env "ci" "host" ["build"; "--define=pct=100%"]
     = (let* _ := Write S3_env
                    (String.list_byte_of_string
                       (nl +:+ aurora_Cyan "ci@host"
                        +:+ "$ bazelisk build --define=pct=100"
                        +:+ "%!" +:+ nl +:+ "(MISSING)")) in
        ret tt).
Proof.
  split.
  - apply (proj1 (command_line_is_parsed_as_format S3_env "ci" "host"
                    ["build"; "//:all"])).
    reflexivity.
  - apply (proj2 (command_line_is_parsed_as_format S3_env "ci" "host"
                    ["build"; "--define=pct=100%"])
             (nl +:+ aurora_Cyan "ci@host" +:+ "$ bazelisk build --define=pct=100"));
      reflexivity.
Defined.

(** ** Properties: the results URL with and without its trailing slash *)

(** A trailing slash on [--bes_results_url] makes no difference: a prefix
    that does not end in a slash gives the same invocation URLs as that
    prefix followed by a slash. *)
Theorem invocationURL_trailing_slash (flags : Flags) (invocationID : string) :
  strings_HasSuffix (besResultsURL flags) "/" = false ->
  invocationURL flags invocationID
  = invocationURL
      {| besBackend := besBackend flags;
         besResultsURL := besResultsURL flags +:+ "/";
         repoURL := repoURL flags; commitSHA := commitSHA flags;
         triggerEvent := triggerEvent flags; triggerBranch := triggerBranch flags |}
      invocationID.
Proof.
  intros H. unfold invocationURL. cbn [besResultsURL]. rewrite H. cbn [negb].
  assert (Hs : strings_HasSuffix (besResultsURL flags +:+ "/") "/" = true).
  { apply HasSuffix_slash_iff. eexists. reflexivity. }
  rewrite Hs. reflexivity.
Qed.

Lemma invocationURL_trailing_slash_witness :
  invocationURL S3_flags "abc"
  = invocationURL
      {| besBackend := besBackend S3_flags;
         besResultsURL := "http://localhost:8080/invocation/";
         repoURL := repoURL S3_flags; commitSHA := commitSHA S3_flags;
         triggerEvent := triggerEvent S3_flags; triggerBranch := triggerBranch S3_flags |}
      "abc".
Proof. apply (invocationURL_trailing_slash S3_flags "abc"). reflexivity. Defined.

(** ** Properties: a refused Publish shows in Wait *)

Lemma latch_shows_step (l : Label) (p p' : Publisher) :
  is_Some (err p) /\ (forall r, wait_pc p = WaitReturned r -> is_Some r) ->
  step l p = Some p' ->
  is_Some (err p') /\ (forall r, wait_pc p' = WaitReturned r -> is_Some r).
Proof.
  intros [[e0 He0] Hw] Hstep.
  destruct l as [e| | |r|r]; simpl in Hstep;
    [unfold Publish in Hstep | unfold Wait_enqueue in Hstep
     | unfold Wait_receive in Hstep | unfold run_step in Hstep
     | unfold ack_step in Hstep];
    repeat case_match; simplify_eq/=;
    (split; [first [eexists; reflexivity | eexists; eassumption]|]);
    try assumption; try discriminate.
  intros r [= <-]. eexists. eassumption.
Qed.

(** The failures that [Run] swallows do come back: if [Publish] has
    refused an event, then [Wait], called or still blocked at that time,
    returns an error whenever it returns. *)
Theorem refused_publish_surfaces_in_Wait (ls : list Label) (p q : Publisher)
        (e : BuildEvent) (e0 : error) (res : option error) :
  Publish e p = Some (Some e0, p) ->
  wait_pc p = WaitNotCalled \/ wait_pc p = WaitBlocked ->
  exec ls p = Some q ->
  wait_pc q = WaitReturned res ->
  is_Some res.
Proof.
  intros Hpub Hwait Hexec Hres.
  assert (Herr : is_Some (err p)).
  { unfold Publish in Hpub. destruct (err p) as [e1|]; [eexists; reflexivity|].
    destruct (_ <? _)%nat; discriminate. }
  assert (Hgen : forall ls p q,
             is_Some (err p) /\ (forall r, wait_pc p = WaitReturned r -> is_Some r) ->
             exec ls p = Some q ->
             is_Some (err q) /\ (forall r, wait_pc q = WaitReturned r -> is_Some r)).
  { clear. induction ls as [|l ls IH]; intros p q Hp Hexec; simpl in Hexec.
    - now injection Hexec as <-.
    - destruct (step l p) as [p1|] eqn:Estep; [|discriminate].
      apply (IH p1 q); [|assumption]. eapply latch_shows_step; eauto. }
  apply (Hgen ls p q); [|assumption..].
  split; [assumption|]. intros r Hr. destruct Hwait as [H|H]; congruence.
Qed.

Lemma refused_publish_surfaces_in_Wait_witness :
  exists p q res,
    exec [DoRun reply_fail] (newBuildEventPublisher demo_sid) = Some p
    /\ exec [DoWaitEnqueue; DoWaitReceive] p = Some q
    /\ wait_pc q = WaitReturned res /\ is_Some res.
Proof.
  pose (d := newBuildEventPublisher demo_sid).
  let v := eval vm_compute in (default d (exec [DoRun reply_fail] d)) in
  pose (p := v).
  let v := eval vm_compute in (default d (exec [DoWaitEnqueue; DoWaitReceive] p)) in
  pose (q := v).
  exists p, q, (err q).
  split; [vm_compute; reflexivity|]. split; [vm_compute; reflexivity|].
  split; [reflexivity|].
  refine (refused_publish_surfaces_in_Wait [DoWaitEnqueue; DoWaitReceive]
            p q (demo_event 0) _ (err q) _ (or_introl eq_refl) _ eq_refl);
    vm_compute; reflexivity.
Defined.
